(** * tts_reader: the text splitter, the import parser, the book store,
      the backup restore flows, the prefix cleanup and the TTS sanitizer.

    A shallow embedding of the TypeScript sources.  JavaScript strings are
    sequences of UTF-16 code units, indices are integers, and every regular
    expression literal of the sources is transcribed into a small syntax
    tree that is run by a backtracking matcher with the priorities of the
    ECMAScript matcher (greedy quantifiers, left alternative first). *)

From Stdlib Require Import ZArith NArith List Ascii String Bool Lia.
From stdpp Require Import base option list gmap sorting.
Import ListNotations.

Local Open Scope Z_scope.

(** ** JavaScript strings *)

Module JS.

(** A string is its list of UTF-16 code units. *)
Abbreviation jsstring := (list N).

(** An ASCII literal as a JavaScript string. *)
Definition js (s : string) : jsstring :=
  List.map N_of_ascii (list_ascii_of_string s).

Definition len (s : jsstring) : Z := Z.of_nat (length s).

Definition SPACE : N := 32%N.
Definition LF : N := 10%N.

(** WhiteSpace and LineTerminator code units: what [String.prototype.trim]
    strips and what [\s] matches. *)
Definition isWhiteSpace (c : N) : bool :=
  ((9 <=? c) && (c <=? 13) || (c =? 32) || (c =? 160) || (c =? 0x1680)
   || (0x2000 <=? c) && (c <=? 0x200A) || (c =? 0x2028) || (c =? 0x2029)
   || (c =? 0x202F) || (c =? 0x205F) || (c =? 0x3000) || (c =? 0xFEFF))%N.

Definition isLineTerminator (c : N) : bool :=
  ((c =? 10) || (c =? 13) || (c =? 0x2028) || (c =? 0x2029))%N.

Fixpoint trimStart (s : jsstring) : jsstring :=
  match s with
  | c :: s' => if isWhiteSpace c then trimStart s' else s
  | [] => []
  end.

Definition trimEnd (s : jsstring) : jsstring := rev (trimStart (rev s)).

Definition trim (s : jsstring) : jsstring := trimEnd (trimStart s).

(** [s.length === 0], [!s] on a string. *)
Definition isEmpty (s : jsstring) : bool :=
  match s with [] => true | _ => false end.

Definition clampIndex (s : jsstring) (i : Z) : Z := Z.max 0 (Z.min i (len s)).

(** [s.substring(a, b)]: both indices are clamped to [0, length] and swapped
    when out of order. *)
Definition substring (s : jsstring) (a b : Z) : jsstring :=
  let a' := clampIndex s a in
  let b' := clampIndex s b in
  let lo := Z.min a' b' in
  let hi := Z.max a' b' in
  take (Z.to_nat (hi - lo)) (drop (Z.to_nat lo) s).

(** [s.substring(a)] *)
Definition substringFrom (s : jsstring) (a : Z) : jsstring :=
  substring s a (len s).

Fixpoint lastIndexFrom (c : N) (s : jsstring) (i limit acc : Z) : Z :=
  match s with
  | [] => acc
  | x :: s' =>
      lastIndexFrom c s' (i + 1) limit
        (if (i <=? limit) && (x =? c)%N then i else acc)
  end.

(** [s.lastIndexOf(c, fromIndex)] for a one-character search string: the
    largest index [k <= max(fromIndex, 0)] holding [c], or [-1]. *)
Definition lastIndexOf (s : jsstring) (c : N) (fromIndex : Z) : Z :=
  lastIndexFrom c s 0 (Z.max fromIndex 0) (-1).

Fixpoint indexFrom (c : N) (s : jsstring) (i : Z) : Z :=
  match s with
  | [] => -1
  | x :: s' => if (x =? c)%N then i else indexFrom c s' (i + 1)
  end.

(** [s.indexOf(c)] for a one-character search string. *)
Definition indexOf (s : jsstring) (c : N) : Z := indexFrom c s 0.

(** [s.includes(c)] *)
Definition includes (s : jsstring) (c : N) : bool := existsb (N.eqb c) s.

Definition eqs (a b : jsstring) : bool := bool_decide (a = b).

(** [s.startsWith(p)] *)
Fixpoint startsWith (s p : jsstring) : bool :=
  match p, s with
  | [], _ => true
  | x :: p', y :: s' => (x =? y)%N && startsWith s' p'
  | _ :: _, [] => false
  end.

(** [s.split(sep)] for a one-character separator; never empty. *)
Fixpoint splitOn (sep : N) (s : jsstring) : list jsstring :=
  match s with
  | [] => [[]]
  | c :: s' =>
      if (c =? sep)%N then [] :: splitOn sep s'
      else match splitOn sep s' with
           | l :: ls => (c :: l) :: ls
           | [] => [[c]]
           end
  end.

(** [lines.join(sep)] *)
Fixpoint joinWith (sep : N) (ls : list jsstring) : jsstring :=
  match ls with
  | [] => []
  | [l] => l
  | l :: ls' => l ++ sep :: joinWith sep ls'
  end.

(** Decimal digits of a number, as [String(n)] prints a natural number. *)
Fixpoint digitsFuel (fuel : nat) (n : N) (acc : jsstring) : jsstring :=
  match fuel with
  | O => acc
  | S f =>
      let acc' := (48 + n mod 10)%N :: acc in
      if (n <? 10)%N then acc' else digitsFuel f (n / 10)%N acc'
  end.

Definition numberToString (n : N) : jsstring :=
  digitsFuel (S (N.to_nat (N.log2 n))) n [].

End JS.

Export JS.

(** ** The host's Unicode tables

    The sources rely on the engine for case mapping and for the character
    properties [\p{L}] and [\p{N}]; the tables are not part of the
    repository and are taken as an interface. *)

Class UnicodeTables := {
  (** simple upper-case mapping of one code unit, as used by the
      case-insensitive matcher *)
  upperUnit : N -> N;
  (** [String.prototype.toLowerCase] *)
  toLowerCase : jsstring -> jsstring;
  (** [\p{L}] on a code point *)
  isLetter : N -> bool;
  (** [\p{N}] on a code point *)
  isNumber : N -> bool
}.

(** Tables that are exact on U+0000..U+007F and treat every other character
    as caseless and as neither letter nor number: enough to evaluate the
    embedding on ASCII inputs. *)
Definition asciiUpper (c : N) : N :=
  if ((97 <=? c) && (c <=? 122))%N then (c - 32)%N else c.

Definition asciiLower (c : N) : N :=
  if ((65 <=? c) && (c <=? 90))%N then (c + 32)%N else c.

Definition asciiTables : UnicodeTables := {|
  upperUnit := asciiUpper;
  toLowerCase := List.map asciiLower;
  isLetter := fun c => ((65 <=? c) && (c <=? 90) || (97 <=? c) && (c <=? 122))%N;
  isNumber := fun c => ((48 <=? c) && (c <=? 57))%N
|}.

(** Tables that are exact on U+0000..U+00FF (Basic Latin and Latin-1
    Supplement, from the Unicode Character Database) and treat every
    other character as caseless and as neither letter nor number.  The
    letters are A-Z, a-z, the ordinal indicators, the micro sign and the
    accented letters; the numbers are the digits 0-9 (category Nd) and,
    in category No, the superscripts 1, 2, 3 and the fractions one
    quarter, one half and three quarters. *)
Definition latin1Upper (c : N) : N :=
  if ((97 <=? c) && (c <=? 122) || (224 <=? c) && (c <=? 246)
      || (248 <=? c) && (c <=? 254))%N then (c - 32)%N
  else if (c =? 255)%N then 0x178%N
  else if (c =? 181)%N then 0x39C%N
  else c.

Definition latin1Lower (c : N) : N :=
  if ((65 <=? c) && (c <=? 90) || (192 <=? c) && (c <=? 214)
      || (216 <=? c) && (c <=? 222))%N then (c + 32)%N
  else c.

Definition latin1Tables : UnicodeTables := {|
  upperUnit := latin1Upper;
  toLowerCase := List.map latin1Lower;
  isLetter := fun c =>
    ((65 <=? c) && (c <=? 90) || (97 <=? c) && (c <=? 122)
     || (c =? 170) || (c =? 181) || (c =? 186)
     || (192 <=? c) && (c <=? 214) || (216 <=? c) && (c <=? 246)
     || (248 <=? c) && (c <=? 255))%N;
  isNumber := fun c =>
    ((48 <=? c) && (c <=? 57) || (c =? 178) || (c =? 179) || (c =? 185)
     || (188 <=? c) && (c <=? 190))%N
|}.

(** The decimal digits (category Nd) below U+0100: 0 to 9. *)
Definition latin1Digit (c : N) : bool := ((48 <=? c) && (c <=? 57))%N.

(** ** Regular expressions *)

Module Regex.

Inductive regex : Type :=
| Eps
| Chr (p : N -> bool)            (* one code unit of a class *)
| Seq (r1 r2 : regex)
| Alt (r1 r2 : regex)
| Opt (r : regex)                (* r?  greedy *)
| Star (p : N -> bool)           (* [class]*  greedy *)
| Plus (p : N -> bool)           (* [class]+  greedy *)
| Bol (multiline : bool)         (* ^ *)
| Eol (multiline : bool)         (* $ *)
| Look (r : regex).              (* (?=r) *)

(** A position in the input: the code units before it (nearest first) and
    the code units after it. *)
Definition cont := list N -> list N -> option (list N * list N).

Definition done : cont := fun b a => Some (b, a).

Definition orElse {A} (x y : option A) : option A :=
  match x with Some _ => x | None => y end.

Fixpoint star (p : N -> bool) (k : cont) (b a : list N) {struct a}
  : option (list N * list N) :=
  match a with
  | c :: a' => if p c then orElse (star p k (c :: b) a') (k b a) else k b a
  | [] => k b a
  end.

Definition atLineStart (multiline : bool) (b : list N) : bool :=
  match b with
  | [] => true
  | c :: _ => multiline && isLineTerminator c
  end.

Definition atLineEnd (multiline : bool) (a : list N) : bool :=
  match a with
  | [] => true
  | c :: _ => multiline && isLineTerminator c
  end.

(** The matcher, in continuation-passing style: [rmatch r b a k] tries the
    ways [r] can match at the position in priority order and returns the
    first one the continuation accepts. *)
Fixpoint rmatch (r : regex) (b a : list N) (k : cont) {struct r}
  : option (list N * list N) :=
  match r with
  | Eps => k b a
  | Chr p =>
      match a with
      | c :: a' => if p c then k (c :: b) a' else None
      | [] => None
      end
  | Seq r1 r2 => rmatch r1 b a (fun b' a' => rmatch r2 b' a' k)
  | Alt r1 r2 => orElse (rmatch r1 b a k) (rmatch r2 b a k)
  | Opt r1 =>
      orElse
        (rmatch r1 b a
           (fun b' a' => if (length a' =? length a)%nat then None else k b' a'))
        (k b a)
  | Star p => star p k b a
  | Plus p =>
      match a with
      | c :: a' => if p c then star p k (c :: b) a' else None
      | [] => None
      end
  | Bol m => if atLineStart m b then k b a else None
  | Eol m => if atLineEnd m a then k b a else None
  | Look r1 =>
      match rmatch r1 b a done with
      | Some _ => k b a
      | None => None
      end
  end.

(** A match attempt at one position. *)
Definition matchAt (r : regex) (b a : list N) : option (list N * list N) :=
  rmatch r b a done.

(** The text matched between a start position [b] and an end position [b']. *)
Definition matched (b b' : list N) : jsstring :=
  rev (take (length b' - length b)%nat b').

(** [RegExp.prototype.exec] without the sticky flag: the first position at
    or after the current one where the expression matches.  Returns the
    position where the match starts and the position where it ends. *)
Fixpoint search (r : regex) (b a : list N) {struct a}
  : option (list N * (list N * list N)) :=
  match matchAt r b a with
  | Some e => Some (b, e)
  | None =>
      match a with
      | c :: a' => search r (c :: b) a'
      | [] => None
      end
  end.

(** [s.match(r)] for an expression with the [g] flag: all matches from
    left to right; after an empty match the scan moves one unit on. *)
Fixpoint matchAllFrom (fuel : nat) (r : regex) (b a : list N) : list jsstring :=
  match fuel with
  | O => []
  | S f =>
      match search r b a with
      | None => []
      | Some (b0, (b', a')) =>
          matched b0 b' ::
            (if (length b' =? length b0)%nat then
               match a' with
               | c :: a'' => matchAllFrom f r (c :: b') a''
               | [] => []
               end
             else matchAllFrom f r b' a')
      end
  end.

Definition matchAll (r : regex) (s : jsstring) : list jsstring :=
  matchAllFrom (S (length s)) r [] s.

(** [s.match(r)] for an expression without the [g] flag: the text of the
    first match, [match[0]]. *)
Definition matchFirst (r : regex) (s : jsstring) : option jsstring :=
  match search r [] s with
  | Some (b0, (b', _)) => Some (matched b0 b')
  | None => None
  end.

(** [s.replace(r, rep)] for an expression without the [g] flag (and a
    replacement text without [$]). *)
Definition replaceFirst (r : regex) (rep s : jsstring) : jsstring :=
  match search r [] s with
  | Some (b0, (_, a')) => rev b0 ++ rep ++ a'
  | None => s
  end.

(** [s.split(r)]: at every position after the start of the current piece
    the expression is tried in place; a match that ends where the piece
    starts is skipped; a piece ends at the position of the match and the
    next one starts at its end. *)
Fixpoint splitFrom (fuel : nat) (r : regex) (piece b a : list N)
  : list jsstring :=
  match fuel with
  | O => [rev piece ++ a]
  | S f =>
      match a with
      | [] => [rev piece]
      | c :: a' =>
          match matchAt r b a with
          | Some (b', e) =>
              if (length e =? length a)%nat then
                match piece with
                | [] => splitFrom f r [c] (c :: b) a'
                | _ => rev piece :: splitFrom f r [] b a
                end
              else
                rev piece :: splitFrom f r [] b' e
          | None => splitFrom f r (c :: piece) (c :: b) a'
          end
      end
  end.

(** [s.replace(r, rep)] for an expression with the [g] flag: the text
    between the matches is kept and every match [m] becomes [rep m] (the
    replacement text with [$&] filled in); after an empty match the scan
    moves one unit on. *)
Fixpoint replaceAllFrom (fuel : nat) (r : regex) (rep : jsstring -> jsstring)
    (b a : list N) : jsstring :=
  match fuel with
  | O => a
  | S f =>
      match search r b a with
      | None => a
      | Some (b0, (b', a')) =>
          matched b b0 ++ rep (matched b0 b') ++
            (if (length b' =? length b0)%nat then
               match a' with
               | c :: a'' => c :: replaceAllFrom f r rep (c :: b') a''
               | [] => []
               end
             else replaceAllFrom f r rep b' a')
      end
  end.

Definition replaceAllWith (r : regex) (rep : jsstring -> jsstring)
    (s : jsstring) : jsstring :=
  replaceAllFrom (S (length s)) r rep [] s.

(** The same with a replacement text that has no [$]. *)
Definition replaceAll (r : regex) (rep s : jsstring) : jsstring :=
  replaceAllWith r (fun _ => rep) s.

(** [RegExp.prototype[Symbol.split]]: the empty string is a special case. *)
Definition split (r : regex) (s : jsstring) : list jsstring :=
  match s with
  | [] => match matchAt r [] [] with Some _ => [] | None => [[]] end
  | _ => splitFrom (2 * S (length s)) r [] [] s
  end.

End Regex.

Export Regex.

(** ** utils/textSplitter.ts

    [maxLength] is an integer of any sign.  The fallback loop of the source
    need not end (it does not for a negative [maxLength]), so the loop
    takes a bound on its iterations and answers [None] when the bound is
    reached. *)

Module TextSplitter.

Definition isSentenceEnd (c : N) : bool :=
  ((c =? 46) || (c =? 63) || (c =? 33))%N.           (* . ? ! *)

Definition notSentenceEnd (c : N) : bool := negb (isSentenceEnd c).

Definition isDoubleQuote (c : N) : bool := (c =? 34)%N.

(** The sentence pattern of the source, with the [g] flag: one or more
    units other than [. ? !], then one or more of [. ? !], an optional
    double quote (U+0022) and any white space; or one or more units other
    than [. ? !] up to the end of the text. *)
Definition sentenceRegex : regex :=
  Alt (Seq (Plus notSentenceEnd)
        (Seq (Plus isSentenceEnd)
          (Seq (Opt (Chr isDoubleQuote)) (Star isWhiteSpace))))
      (Seq (Plus notSentenceEnd) (Eol false)).

(** The body of the [for (const sentence of sentences)] loop, on the pair
    of [chunks] and [currentChunk]. *)
Definition sentenceStep (maxLength : Z)
    (st : list jsstring * jsstring) (sentence : jsstring)
  : list jsstring * jsstring :=
  let '(chunks, currentChunk) := st in
  let trimmedSentence := trim sentence in
  if len trimmedSentence =? 0 then st
  else
    let '(chunks, currentChunk) :=
      if (len currentChunk >? 0)
         && (len currentChunk + len trimmedSentence >? maxLength)
      then (chunks ++ [trim currentChunk], [])
      else (chunks, currentChunk) in
    (chunks, currentChunk ++ trimmedSentence ++ [SPACE]).

Definition sentenceChunks (maxLength : Z) (sentences : list jsstring)
  : list jsstring :=
  let '(chunks, currentChunk) :=
    fold_left (sentenceStep maxLength) sentences ([], []) in
  if len (trim currentChunk) >? 0 then chunks ++ [trim currentChunk]
  else chunks.

(** One iteration of the [while (startIndex < trimmedText.length)] loop:
    the chunk it cuts (before the emptiness test) and the next
    [startIndex]. *)
Definition fallbackStep (trimmedText : jsstring) (maxLength startIndex : Z)
  : jsstring * Z :=
  let endIndex := startIndex + maxLength in
  let endIndex :=
    if endIndex <? len trimmedText then
      let lastSpace := lastIndexOf trimmedText SPACE endIndex in
      if lastSpace >? startIndex then lastSpace else endIndex
    else len trimmedText in
  (trim (substring trimmedText startIndex endIndex), endIndex + 1).

(** The [while] loop; [None] when the iterations allowed are used up before
    the loop condition fails. *)
Fixpoint fallbackLoop (fuel : nat) (trimmedText : jsstring)
    (maxLength startIndex : Z) (chunks : list jsstring)
  : option (list jsstring) :=
  if startIndex <? len trimmedText then
    match fuel with
    | O => None
    | S fuel' =>
        let '(chunk, next) := fallbackStep trimmedText maxLength startIndex in
        fallbackLoop fuel' trimmedText maxLength next
          (if isEmpty chunk then chunks else chunks ++ [chunk])
    end
  else Some chunks.

(** [splitTextIntoChunks(text, maxLength)]; the first argument bounds the
    iterations of the fallback loop. *)
Definition splitTextIntoChunks (fuel : nat) (text : jsstring) (maxLength : Z)
  : option (list jsstring) :=
  if isEmpty text || (len (trim text) =? 0) then Some []
  else
    let trimmedText := trim text in
    if len trimmedText <=? maxLength then Some [trimmedText]
    else
      let sentences := matchAll sentenceRegex trimmedText in
      let chunks :=
        if (1 <? length sentences)%nat then
          Some (sentenceChunks maxLength sentences)
        else fallbackLoop fuel trimmedText maxLength 0 [] in
      match chunks with
      | None => None
      | Some chunks =>
          if (length chunks =? 0)%nat && (len trimmedText >? 0)
          then Some [trimmedText]
          else Some chunks
      end.

End TextSplitter.

Import TextSplitter.

Arguments fallbackStep : simpl never.
Arguments sentenceStep : simpl never.

(** ** types.ts *)

Module Types.

Record Chapter := {
  chapterId : jsstring;
  chapterTitle : jsstring;
  content : jsstring
}.

Record Position := { chapterIndex : Z; sentenceIndex : Z }.

Record Book := {
  id : jsstring;
  title : jsstring;
  author : option jsstring;
  coverImage : option jsstring;
  chapters : list Chapter;
  lastPosition : option Position
}.

End Types.

Export Types.

(** ** The pattern language of [new RegExp(pattern, 'i')]

    The part of the pattern syntax that the prefix cleanup can produce:
    [^] and [$], escaped syntax characters, [\s] and [\d], classes of plain
    characters, the quantifiers [*], [+] and [?] after a one-character
    atom, and plain characters.  A pattern the engine refuses is answered
    with [None]; so is a pattern with a construct outside this part
    (groups, alternation, ranges, other escapes), and the patterns the
    prefix cleanup builds are shown below never to hold one. *)

Module RegExpSyntax.

Section Canonical.
Context `{UnicodeTables}.

(** Canonicalize of the case-insensitive matcher: the upper-case mapping,
    except that no character outside ASCII is mapped into ASCII. *)
Definition canonicalize (c : N) : N :=
  if (c <? 128)%N then asciiUpper c
  else let u := upperUnit c in if (u <? 128)%N then c else u.

(** A plain character of the pattern. *)
Definition literal (ignoreCase : bool) (x : N) : N -> bool :=
  fun c => if ignoreCase then (canonicalize c =? canonicalize x)%N
           else (c =? x)%N.

(** A class given by its members. *)
Definition inClass (ignoreCase : bool) (members : list N) : N -> bool :=
  fun c => if ignoreCase
           then existsb (fun m => (canonicalize m =? canonicalize c)%N) members
           else existsb (fun m => (m =? c)%N) members.

End Canonical.

(** The members of [\s] and of [\d]. *)
Definition whiteSpaceUnits : list N :=
  [9; 10; 11; 12; 13; 32; 160; 0x1680; 0x2000; 0x2001; 0x2002; 0x2003;
   0x2004; 0x2005; 0x2006; 0x2007; 0x2008; 0x2009; 0x200A; 0x2028; 0x2029;
   0x202F; 0x205F; 0x3000; 0xFEFF]%N.

Definition digitUnits : list N := [48; 49; 50; 51; 52; 53; 54; 55; 56; 57]%N.

(** [. * + ? ^ $ { } ( ) | [ ] \]: the syntax characters, which are also
    the characters [escapeRegExp] escapes. *)
Definition isSyntaxCharacter (c : N) : bool :=
  ((c =? 46) || (c =? 42) || (c =? 43) || (c =? 63) || (c =? 94) || (c =? 36)
   || (c =? 123) || (c =? 125) || (c =? 40) || (c =? 41) || (c =? 124)
   || (c =? 91) || (c =? 93) || (c =? 92))%N.

Inductive quantifier := QStar | QPlus | QOpt.

Inductive token :=
| TAtom (p : N -> bool)
| TQuant (q : quantifier)
| TBol
| TEol.

Section Parse.
Context `{UnicodeTables}.
Variable ignoreCase : bool.

(** The atom after a backslash. *)
Definition escapeAtom (d : N) : option token :=
  if (d =? 115)%N then Some (TAtom (inClass ignoreCase whiteSpaceUnits))
  else if (d =? 100)%N then Some (TAtom (inClass ignoreCase digitUnits))
  else if isSyntaxCharacter d then Some (TAtom (literal ignoreCase d))
  else None.

(** The tokens of a pattern; [cls] holds the members read so far while
    inside a class. *)
Fixpoint tokens (cls : option (list N)) (s : jsstring) : option (list token) :=
  match s with
  | [] => match cls with None => Some [] | Some _ => None end
  | c :: s' =>
      match cls with
      | Some members =>
          if (c =? 93)%N then
            option_map (cons (TAtom (inClass ignoreCase members)))
                       (tokens None s')
          else if (c =? 92)%N then None
          else if (c =? 94)%N && isEmpty members then None
          else if (c =? 45)%N && negb (isEmpty members)
                  && negb (match s' with d :: _ => (d =? 93)%N | [] => false end)
               then None
          else tokens (Some (members ++ [c])) s'
      | None =>
          if (c =? 92)%N then
            match s' with
            | d :: s'' =>
                match escapeAtom d with
                | Some t => option_map (cons t) (tokens None s'')
                | None => None
                end
            | [] => None
            end
          else if (c =? 91)%N then tokens (Some []) s'
          else if (c =? 94)%N then option_map (cons TBol) (tokens None s')
          else if (c =? 36)%N then option_map (cons TEol) (tokens None s')
          else if (c =? 42)%N then option_map (cons (TQuant QStar)) (tokens None s')
          else if (c =? 43)%N then option_map (cons (TQuant QPlus)) (tokens None s')
          else if (c =? 63)%N then option_map (cons (TQuant QOpt)) (tokens None s')
          else if isSyntaxCharacter c then None
          else option_map (cons (TAtom (literal ignoreCase c))) (tokens None s')
      end
  end.

Definition quantified (p : N -> bool) (q : quantifier) : regex :=
  match q with
  | QStar => Star p
  | QPlus => Plus p
  | QOpt => Opt (Chr p)
  end.

(** The terms of the pattern, in order. *)
Fixpoint terms (ts : list token) : option (list regex) :=
  match ts with
  | [] => Some []
  | TAtom p :: rest =>
      match rest with
      | TQuant q :: rest' =>
          match rest' with
          | TQuant _ :: _ => None
          | _ => option_map (cons (quantified p q)) (terms rest')
          end
      | _ => option_map (cons (Chr p)) (terms rest)
      end
  | TBol :: rest =>
      match rest with
      | TQuant _ :: _ => None
      | _ => option_map (cons (Bol false)) (terms rest)
      end
  | TEol :: rest =>
      match rest with
      | TQuant _ :: _ => None
      | _ => option_map (cons (Eol false)) (terms rest)
      end
  | TQuant _ :: _ => None
  end.

Definition sequence (rs : list regex) : regex := fold_right Seq Eps rs.

Definition parseTerms (pattern : jsstring) : option (list regex) :=
  match tokens None pattern with
  | Some ts => terms ts
  | None => None
  end.

End Parse.

(** [new RegExp(pattern, 'i')]; [None] when the constructor throws. *)
Definition newRegExp_i `{UnicodeTables} (pattern : jsstring) : option regex :=
  option_map sequence (parseTerms true pattern).

End RegExpSyntax.

Export RegExpSyntax.

(** ** components/BookSettingsModal.tsx *)

Module BookSettingsModal.

(** [string.replace(/[.*+?^${}()|[\]\\]/g, '\\$&')] *)
Definition escapeRegExp (s : jsstring) : jsstring :=
  replaceAllWith (Chr isSyntaxCharacter) (fun m => 92%N :: m) s.

Definition HASH : N := 35%N.

(** The replacement text: backslash s star, backslash d plus, the class
    of [.], [:] and [-] with a question mark, backslash s star. *)
Definition numberPattern : jsstring :=
  [92; 115; 42;  92; 100; 43;  91; 46; 58; 45; 93; 63;  92; 115; 42]%N.

(** The pattern text: [^], then the escaped prefix with its first [#]
    replaced. *)
Definition prefixPattern (trimmedPrefix : jsstring) : jsstring :=
  94%N :: replaceFirst (Chr (N.eqb HASH)) numberPattern
            (escapeRegExp trimmedPrefix).

Section Modal.
Context `{UnicodeTables}.

(** The [try] block that sets [removalRegex]. *)
Definition removalRegex (trimmedPrefix : jsstring) : option regex :=
  if includes trimmedPrefix HASH then newRegExp_i (prefixPattern trimmedPrefix)
  else None.

(** [match && match[0]]: a match with a non-empty text. *)
Definition nonEmptyMatch (r : regex) (s : jsstring) : option jsstring :=
  match matchFirst r s with
  | Some m => if isEmpty m then None else Some m
  | None => None
  end.

Record PreviewChange := {
  previewChapterId : jsstring;
  previewChapterTitle : jsstring;
  originalLine : jsstring;
  toRemove : jsstring;
  result : jsstring
}.

(** The body of the [reduce] of the live preview, for one chapter. *)
Definition previewChange (trimmedPrefix : jsstring) (chapter : Chapter)
  : option PreviewChange :=
  let content := trimStart (content chapter) in
  let matchText :=
    match removalRegex trimmedPrefix with
    | Some r => matchFirst r content
    | None =>
        if startsWith (toLowerCase content) (toLowerCase trimmedPrefix)
        then Some (substring content 0 (len trimmedPrefix))
        else None
    end in
  match matchText with
  | Some partToRemove =>
      if isEmpty partToRemove then None
      else
        let firstLineEnd := indexOf content LF in
        Some {| previewChapterId := chapterId chapter;
                previewChapterTitle := chapterTitle chapter;
                originalLine := if firstLineEnd =? -1 then content
                                else substring content 0 firstLineEnd;
                toRemove := partToRemove;
                result := substringFrom content (len partToRemove) |}
  | None => None
  end.


(** The body of the [map] in [handleSaveChanges], for one chapter. *)
Definition cleanChapter (trimmedPrefix : jsstring) (chapter : Chapter)
  : Chapter :=
  let originalContent := content chapter in
  let trimmedContent := trimStart originalContent in
  let leadingWhitespaceLength := len originalContent - len trimmedContent in
  let leadingWhitespace := substring originalContent 0 leadingWhitespaceLength in
  let newContent :=
    match removalRegex trimmedPrefix with
    | Some r =>
        match nonEmptyMatch r trimmedContent with
        | Some m => leadingWhitespace ++ substringFrom trimmedContent (len m)
        | None => originalContent
        end
    | None =>
        if startsWith (toLowerCase trimmedContent) (toLowerCase trimmedPrefix)
        then leadingWhitespace
               ++ substringFrom trimmedContent (len trimmedPrefix)
        else originalContent
    end in
  {| chapterId := chapterId chapter;
     chapterTitle := chapterTitle chapter;
     content := newContent |}.

(** [handleSaveChanges]: the book handed to [onSave]. *)
Definition handleSaveChanges (book : Book) (editedChapters : list Chapter)
    (prefixToRemove : jsstring) : Book :=
  let trimmedPrefix := trim prefixToRemove in
  let finalChapters :=
    if isEmpty trimmedPrefix then editedChapters
    else List.map (cleanChapter trimmedPrefix) editedChapters in
  {| id := id book; title := title book; author := author book;
     coverImage := coverImage book; chapters := finalChapters;
     lastPosition := lastPosition book |}.

(** [handleDeleteChapter]: the chapters afterwards ([alert] aside). *)
Definition handleDeleteChapter (editedChapters : list Chapter)
    (chapterId' : jsstring) : list Chapter :=
  if (length editedChapters <=? 1)%nat then editedChapters
  else List.filter (fun ch => negb (eqs (chapterId ch) chapterId')) editedChapters.

End Modal.

End BookSettingsModal.

Import BookSettingsModal.

(** ** services/localTtsService.ts *)

Module LocalTts.

Definition isHighSurrogate (c : N) : bool := ((0xD800 <=? c) && (c <=? 0xDBFF))%N.
Definition isLowSurrogate (c : N) : bool := ((0xDC00 <=? c) && (c <=? 0xDFFF))%N.

(** The code point of a surrogate pair. *)
Definition codePoint (hi lo : N) : N :=
  (0x10000 + (hi - 0xD800) * 0x400 + (lo - 0xDC00))%N.

Section Sanitize.
Context `{UnicodeTables}.

(** The class [\p{L}\p{N}\s.,!?:...] of the first pattern (the last
    member is the ellipsis U+2026), on a code point. *)
Definition isKept (cp : N) : bool :=
  isLetter cp || isNumber cp || isWhiteSpace cp
  || ((cp =? 46) || (cp =? 44) || (cp =? 33) || (cp =? 63) || (cp =? 58)
      || (cp =? 0x2026))%N.

(** [text.replace(/[^...]/gu, ' ')]: with the [u] flag the scan goes by
    code points, a surrogate pair counting as one; every code point
    outside the class becomes one space. *)
Fixpoint replaceUnwanted (s : jsstring) : jsstring :=
  match s with
  | [] => []
  | c :: rest =>
      match rest with
      | d :: rest' =>
          if isHighSurrogate c && isLowSurrogate d then
            (if isKept (codePoint c d) then [c; d] else [SPACE])
              ++ replaceUnwanted rest'
          else (if isKept c then c else SPACE) :: replaceUnwanted rest
      | [] => [if isKept c then c else SPACE]
      end
  end.

(** [cleanedText.replace(/\s+/g, ' ').trim()] after the first replace. *)
Definition sanitize (text : jsstring) : jsstring :=
  trim (replaceAll (Plus isWhiteSpace) [SPACE] (replaceUnwanted text)).

End Sanitize.

(** What the [fetch] of the request can do. *)
Inductive errorBody :=
| BodyUnparsable                        (* [response.json()] rejects *)
| BodyNull                              (* the body is JSON [null] *)
| BodyObject (error : option jsstring). (* an object, with or without a
                                           non-empty [error] text *)

Inductive fetchOutcome :=
| ResponseOk (blob : list N)
| ResponseNotOk (status : N) (body : errorBody)
| FetchAborted                          (* DOMException AbortError *)
| FetchTypeError                        (* TypeError: network, CORS, DNS *)
| FetchOtherError (message : jsstring)  (* some other [Error] *)
| FetchNonError.                        (* a thrown value that is no [Error] *)

Record request := { url : jsstring; bodyText : jsstring }.

Inductive failure :=
| TtsError (message : jsstring)
| AbortError.

Inductive outcome :=
| SpeechResolved (blob : list N)
| SpeechRejected (e : failure).

Definition emptyTextMessage := js "Cannot generate audio from empty text.".
Definition noServerMessage :=
  js "TTS Server URL is not configured. Please check your settings.".
Definition emptyAfterCleaningMessage := js "Text became empty after sanitization.".
Definition networkMessage (serverUrl : jsstring) :=
  js "Network error connecting to TTS server at " ++ serverUrl ++
  js ". Ensure the server is running, the URL is correct, and there are no CORS issues. If using HTTPS, you may need to accept a self-signed certificate.".

Definition statusMessage (status : N) (detail : jsstring) :=
  js "Server responded with " ++ numberToString status ++ js ": " ++ detail.

(** [fetchSpeechFromLocalServer(text, signal)], given the configured server
    URL and the behaviour of the network: the requests issued and the way
    the promise settles. *)
Definition fetchSpeechFromLocalServer `{UnicodeTables}
    (serverUrl : jsstring) (net : request -> fetchOutcome) (text : jsstring)
  : list request * outcome :=
  if isEmpty text || (len (trim text) =? 0) then
    ([], SpeechRejected (TtsError emptyTextMessage))
  else if isEmpty serverUrl then
    ([], SpeechRejected (TtsError noServerMessage))
  else
    let cleanedText := sanitize text in
    if isEmpty cleanedText then
      ([], SpeechRejected (TtsError emptyAfterCleaningMessage))
    else
      let req := {| url := serverUrl ++ js "/speak"; bodyText := cleanedText |} in
      ([req],
       match net req with
       | ResponseOk blob => SpeechResolved blob
       | ResponseNotOk status BodyUnparsable =>
           SpeechRejected (TtsError (statusMessage status (js "Unknown server error")))
       | ResponseNotOk status BodyNull =>
           SpeechRejected (TtsError (networkMessage serverUrl))
       | ResponseNotOk status (BodyObject (Some e)) =>
           SpeechRejected (TtsError (statusMessage status e))
       | ResponseNotOk status (BodyObject None) =>
           SpeechRejected (TtsError (statusMessage status (js "Failed to fetch audio")))
       | FetchAborted => SpeechRejected AbortError
       | FetchTypeError => SpeechRejected (TtsError (networkMessage serverUrl))
       | FetchOtherError message => SpeechRejected (TtsError message)
       | FetchNonError =>
           SpeechRejected (TtsError (js "An unknown error occurred while fetching audio."))
       end).

End LocalTts.

Import LocalTts.


(** ** The Dexie table behind [db.books]

    [services/db.ts] declares one table, [books], with the primary key
    [id] taken from the stored record.  The table itself is the Dexie
    library's; it is modelled here as a finite map from keys to records,
    with the outcomes the sources rely on.  The table is declared as
    [Table<Book, string>]; a key is a string or, for records that come
    from a backup unchecked, any other key of IndexedDB that JSON can
    deliver: a number or an array of keys.  [storage] says whether the
    browser's storage accepts writes. *)

Module Dexie.

#[warnings="-register-all"]
Inductive key :=
| KNumber (n : Z)
| KString (s : jsstring)
| KArray (items : list key).

Fixpoint keyTree (k : key) : gen_tree (Z + jsstring) :=
  match k with
  | KNumber n => GenLeaf (inl n)
  | KString s => GenLeaf (inr s)
  | KArray items => GenNode 0 (List.map keyTree items)
  end.

Fixpoint treeKey (t : gen_tree (Z + jsstring)) : key :=
  match t with
  | GenLeaf (inl n) => KNumber n
  | GenLeaf (inr s) => KString s
  | GenNode _ ts => KArray (List.map treeKey ts)
  end.

Lemma treeKey_keyTree : forall k, treeKey (keyTree k) = k.
Proof.
  fix IH 1. intros [n|s|items]; [reflexivity|reflexivity|].
  cbn [keyTree treeKey]. f_equal.
  induction items as [|k items IHitems]; [reflexivity|].
  cbn [List.map]. f_equal; [apply IH|exact IHitems].
Qed.

#[global] Instance key_eq_dec : EqDecision key.
Proof.
  intros x y. destruct (decide (keyTree x = keyTree y)) as [E|E].
  - left. rewrite <- (treeKey_keyTree x), E. apply treeKey_keyTree.
  - right. by intros ->.
Defined.

#[global] Instance key_countable : Countable key.
Proof. apply (inj_countable' keyTree treeKey). apply treeKey_keyTree. Defined.

Inductive storage := Healthy | Faulty.

Section Table.
Context {V : Type}.
Variable keyOf : V -> option key.

(** [table.add(record)]: rejected when the record has no valid key or the
    key is taken. *)
Definition add (io : storage) (t : gmap key V) (v : V) : option (gmap key V) :=
  match io, keyOf v with
  | Healthy, Some k =>
      match t !! k with
      | None => Some (<[k:=v]> t)
      | Some _ => None
      end
  | _, _ => None
  end.

(** [table.put(record)]: adds or replaces. *)
Definition put (io : storage) (t : gmap key V) (v : V) : option (gmap key V) :=
  match io, keyOf v with
  | Healthy, Some k => Some (<[k:=v]> t)
  | _, _ => None
  end.

(** [table.delete(key)]: no error when the key is absent. *)
Definition delete (io : storage) (t : gmap key V) (k : key)
  : option (gmap key V) :=
  match io with
  | Healthy => Some (base.delete k t)
  | Faulty => None
  end.

(** [table.update(key, changes)]: changes the record when there is one. *)
Definition update (io : storage) (t : gmap key V) (k : key) (changes : V -> V)
  : option (gmap key V) :=
  match io with
  | Healthy => Some (alter changes k t)
  | Faulty => None
  end.

(** [table.clear()] *)
Definition clear (io : storage) (t : gmap key V) : option (gmap key V) :=
  match io with
  | Healthy => Some ∅
  | Faulty => None
  end.

(** [table.bulkAdd(records)]: rejected as soon as one [add] is. *)
Fixpoint bulkAdd (io : storage) (t : gmap key V) (vs : list V)
  : option (gmap key V) :=
  match vs with
  | [] => match io with Healthy => Some t | Faulty => None end
  | v :: vs' =>
      match add io t v with
      | Some t' => bulkAdd io t' vs'
      | None => None
      end
  end.

(** [db.transaction('rw', table, body)]: all or nothing. *)
Definition transaction (body : gmap key V -> option (gmap key V))
    (t : gmap key V) : option (gmap key V) := body t.

End Table.

(** The order of the keys in the primary index: numbers come before
    strings and strings before arrays; numbers go by value, strings by
    their code units, arrays by their first items that differ, a shorter
    array coming before the arrays it starts. *)
Fixpoint stringLeb (a b : jsstring) : bool :=
  match a, b with
  | [], _ => true
  | _ :: _, [] => false
  | x :: a', y :: b' => (x <? y)%N || ((x =? y)%N && stringLeb a' b')
  end.

Fixpoint keyLeb (k1 k2 : key) : bool :=
  match k1, k2 with
  | KNumber a, KNumber b => a <=? b
  | KNumber _, KString _ => true
  | KString _, KNumber _ => false
  | KString a, KString b => stringLeb a b
  | KNumber _, KArray _ | KString _, KArray _ => true
  | KArray _, KNumber _ | KArray _, KString _ => false
  | KArray xs, KArray ys =>
      (fix itemsLeb (xs ys : list key) : bool :=
         match xs, ys with
         | [], _ => true
         | _ :: _, [] => false
         | x :: xs', y :: ys' =>
             if decide (x = y) then itemsLeb xs' ys' else keyLeb x y
         end) xs ys
  end.

(** [table.toArray()]: the records, in the order of their keys. *)
Definition toArray {V} (io : storage) (t : gmap key V) : option (list V) :=
  match io with
  | Healthy =>
      Some ((merge_sort (fun p q : key * V => Is_true (keyLeb p.1 q.1))
                        (map_to_list t)).*2)
  | Faulty => None
  end.

End Dexie.

Import Dexie.

(** ** hooks/useBookStore.ts *)

Module BookStore.

Record state := {
  books : list Book;            (* the React state [books] *)
  table : gmap key Book;        (* what IndexedDB holds *)
  logged : list jsstring        (* the [console.error] lines *)
}.

Definition bookKey (b : Book) : option key := Some (KString (id b)).

Definition withPosition (lastPosition' : Position) (book : Book) : Book :=
  {| id := id book; title := title book; author := author book;
     coverImage := coverImage book; chapters := chapters book;
     lastPosition := Some lastPosition' |}.

(** The four writes, [await db.books....]. *)
Definition writeAdd io (t : gmap key Book) (newBook : Book) :=
  Dexie.add bookKey io t newBook.
Definition writeDelete io (t : gmap key Book) (bookId : jsstring) :=
  Dexie.delete io t (KString bookId).
Definition writePut io (t : gmap key Book) (updatedBook : Book) :=
  Dexie.put bookKey io t updatedBook.
Definition writePosition io (t : gmap key Book) (bookId : jsstring)
    (lastPosition' : Position) :=
  Dexie.update io t (KString bookId) (withPosition lastPosition').

(** The four updaters handed to [setBooks]. *)
Definition appended (newBook : Book) (prevBooks : list Book) : list Book :=
  prevBooks ++ [newBook].
Definition removed (bookId : jsstring) (prevBooks : list Book) : list Book :=
  List.filter (fun book => negb (eqs (id book) bookId)) prevBooks.
Definition replaced (updatedBook : Book) (prevBooks : list Book) : list Book :=
  List.map (fun book => if eqs (id book) (id updatedBook) then updatedBook else book)
           prevBooks.
Definition repositioned (bookId : jsstring) (lastPosition' : Position)
    (prevBooks : list Book) : list Book :=
  List.map (fun book => if eqs (id book) bookId
                        then withPosition lastPosition' book else book)
           prevBooks.

(** [try { await write; setBooks(updater) } catch { console.error(text) }] *)
Definition attempt (written : option (gmap key Book))
    (updater : list Book -> list Book) (text : jsstring) (st : state) : state :=
  match written with
  | Some t' => {| books := updater (books st); table := t'; logged := logged st |}
  | None => {| books := books st; table := table st;
               logged := logged st ++ [text] |}
  end.

Definition addBook (io : storage) (newBook : Book) (st : state) : state :=
  attempt (writeAdd io (table st) newBook) (appended newBook)
          (js "Failed to add book to IndexedDB") st.

Definition deleteBook (io : storage) (bookId : jsstring) (st : state) : state :=
  attempt (writeDelete io (table st) bookId) (removed bookId)
          (js "Failed to delete book from IndexedDB") st.

Definition updateBook (io : storage) (updatedBook : Book) (st : state) : state :=
  attempt (writePut io (table st) updatedBook) (replaced updatedBook)
          (js "Failed to update book in IndexedDB") st.

Definition updateBookPosition (io : storage) (bookId : jsstring)
    (lastPosition' : Position) (st : state) : state :=
  attempt (writePosition io (table st) bookId lastPosition')
          (repositioned bookId lastPosition')
          (js "Failed to update book position in IndexedDB") st.

(** [loadBooks]: the list in memory becomes what [toArray] delivers; a
    failure is logged.  (The [loading] flag, raised during the call and
    lowered after it on both paths, is not part of the state kept here.) *)
Definition loadBooks (io : storage) (st : state) : state :=
  match toArray io (table st) with
  | Some allBooks =>
      {| books := allBooks; table := table st; logged := logged st |}
  | None =>
      {| books := books st; table := table st;
         logged := logged st ++ [js "Failed to load books from IndexedDB"] |}
  end.

End BookStore.

(** ** JavaScript values, as [response.json()] delivers them *)

Module Json.

(** A parsed JSON text, or [undefined] (what reading a missing property
    gives).  Numbers are taken to be integers. *)
#[warnings="-register-all"]
Inductive json :=
| JUndefined
| JNull
| JBool (b : bool)
| JNumber (n : Z)
| JString (s : jsstring)
| JArray (items : list json)
| JObject (fields : list (jsstring * json)).

(** The value of a property of an object: the last field of that name. *)
Fixpoint fieldOf (name : jsstring) (fields : list (jsstring * json)) : json :=
  match fields with
  | [] => JUndefined
  | (n, v) :: rest =>
      match fieldOf name rest with
      | JUndefined => if eqs n name then v else JUndefined
      | w => w
      end
  end.

(** [data.name] for a name that is neither an index nor [length]; [None]
    when the access throws. *)
Definition property (data : json) (name : jsstring) : option json :=
  match data with
  | JUndefined | JNull => None
  | JObject fields => Some (fieldOf name fields)
  | _ => Some JUndefined
  end.

Definition truthy (v : json) : bool :=
  match v with
  | JUndefined | JNull => false
  | JBool b => b
  | JNumber n => negb (n =? 0)
  | JString s => negb (isEmpty s)
  | JArray _ | JObject _ => true
  end.

(** [Array.isArray(v)] *)
Definition isArray (v : json) : bool :=
  match v with JArray _ => true | _ => false end.

(** [typeof v === 'object' && v !== null] *)
Definition isNonNullObject (v : json) : bool :=
  match v with JArray _ | JObject _ => true | _ => false end.

(** A value as a key of IndexedDB: a text, a number, or an array whose
    items all are keys. *)
Fixpoint keyOfValue (v : json) : option key :=
  match v with
  | JString s => Some (KString s)
  | JNumber n => Some (KNumber n)
  | JArray items =>
      option_map KArray
        ((fix keysOf (vs : list json) : option (list key) :=
            match vs with
            | [] => Some []
            | v' :: vs' =>
                match keyOfValue v', keysOf vs' with
                | Some k, Some ks => Some (k :: ks)
                | _, _ => None
                end
            end) items)
  | JUndefined | JNull | JBool _ | JObject _ => None
  end.

(** The key of a record stored under the key path [id]. *)
Definition recordKey (v : json) : option key :=
  match v with
  | JObject fields => keyOfValue (fieldOf (js "id") fields)
  | _ => None
  end.

End Json.

Export Json.

(** ** services/settingsService.ts *)

Module SettingsService.

Definition DEFAULT_ttsServerUrl : jsstring := js "https://localhost:3000".

(** The entry of [localStorage] under [SETTINGS_KEY], parsed. *)
Definition stored := option json.

(** [getSettings().ttsServerUrl], for a stored entry whose [ttsServerUrl],
    when it has one, is a text. *)
Definition getServerUrl (item : stored) : jsstring :=
  match item with
  | Some (JObject fields) =>
      match fieldOf (js "ttsServerUrl") fields with
      | JString s => s
      | _ => DEFAULT_ttsServerUrl
      end
  | _ => DEFAULT_ttsServerUrl
  end.

(** [saveSettings(settings)]: a failing [setItem] is caught and logged. *)
Definition saveSettings (io : storage) (settings : json) (item : stored)
  : stored :=
  match io with
  | Healthy => Some settings
  | Faulty => item
  end.

End SettingsService.

Import SettingsService.

(** ** The two restore flows: components/SettingsPage.tsx and
       components/UserSwitcherModal.tsx *)

Module RestoreFlows.

(** How the promise of [restoreBackup(serverUrl, backupId)] settles. *)
Inductive fetchResult :=
| Rejects (message : jsstring)
| Resolves (data : json).

(** Why a restore ends in its [catch]. *)
Inductive failure :=
| FetchFailed (message : jsstring)   (* the message of [restoreBackup] *)
| PayloadUnreadable                  (* reading a property of [null] *)
| InvalidFormat                      (* the [throw] of the [else] branch *)
| WriteFailed.                       (* the transaction was rejected *)

(** What the application holds outside the component. *)
Record persisted := {
  table : gmap key json;       (* [db.books] *)
  settingsItem : stored        (* the settings entry of [localStorage] *)
}.

(** The end of one [handleRestore]: the state, how the entry of the backup
    in [restoreStatus] ends ([None] for success), and whether the reload
    of the data has been scheduled. *)
Record ending := {
  after : persisted;
  error : option failure;
  reloadScheduled : bool
}.

Section Flows.

(** The server, as [restoreBackup] sees it. *)
Variable restoreBackup : jsstring -> jsstring -> fetchResult.

(** What [bulkAdd] of the library does when handed a value that is no
    array. *)
Variable bulkAddUntyped : json -> gmap key json -> option (gmap key json).

(** [db.transaction('rw', db.books, async () => { await db.books.clear();
    await db.books.bulkAdd(data.books); })] *)
Definition replaceBooks (io : storage) (books : json) (t : gmap key json)
  : option (gmap key json) :=
  transaction
    (fun t =>
       match clear io t with
       | Some t0 =>
           match books with
           | JArray items => bulkAdd recordKey io t0 items
           | other => bulkAddUntyped other t0
           end
       | None => None
       end) t.

Definition failed (st : persisted) (why : failure) : ending :=
  {| after := st; error := Some why; reloadScheduled := false |}.

(** The body of the [if] of both flows. *)
Definition replaceAll (io ls : storage) (books settings : json)
    (st : persisted) : ending :=
  match replaceBooks io books (table st) with
  | Some t' =>
      {| after := {| table := t';
                     settingsItem := saveSettings ls settings (settingsItem st) |};
         error := None; reloadScheduled := true |}
  | None => failed st WriteFailed
  end.

(** The test of the Settings view. *)
Definition settingsPageAccepts (books settings : json) : bool :=
  isArray books && isNonNullObject settings.

(** The test of the profile switcher. *)
Definition userSwitcherAccepts (books settings : json) : bool :=
  truthy books && truthy settings.

Definition restoreWith (accepts : json -> json -> bool)
    (io ls : storage) (fetched : fetchResult) (st : persisted) : ending :=
  match fetched with
  | Rejects message => failed st (FetchFailed message)
  | Resolves data =>
      match property data (js "books"), property data (js "settings") with
      | Some books, Some settings =>
          if accepts books settings then replaceAll io ls books settings st
          else failed st InvalidFormat
      | _, _ => failed st PayloadUnreadable
      end
  end.

(** [SettingsPage.handleRestore(backupId)], with the server URL of the form. *)
Definition settingsPage_handleRestore (io ls : storage)
    (ttsServerUrl backupId : jsstring) (st : persisted) : ending :=
  restoreWith settingsPageAccepts io ls (restoreBackup ttsServerUrl backupId) st.

(** [UserSwitcherModal.handleRestore(backup)], with the stored server URL. *)
Definition userSwitcher_handleRestore (io ls : storage)
    (backupId : jsstring) (st : persisted) : ending :=
  restoreWith userSwitcherAccepts io ls
    (restoreBackup (getServerUrl (settingsItem st)) backupId) st.

End Flows.

End RestoreFlows.

(** ** services/parser.ts *)

Module Parser.

(** What the parser asks of an uploaded file: its name, the text
    [readAsText] delivers ([None] when the reader fails), and what the
    EPUB library makes of its bytes. *)
Inductive loadOutcome :=
| LoadRejects                    (* [bookInstance.load] rejects *)
| LoadFalsy                      (* it resolves to nothing *)
| LoadDocument (text : jsstring) (* a document; [text] is what the browser
                                    extracts from its markup once the
                                    style and script elements are gone *)
| LoadString (text : jsstring)   (* markup as a text; [text] as above *)
| LoadOther.                     (* any other value *)

Record SpineItem := {
  itemId : option jsstring;      (* [item.id] *)
  tocLabel : option jsstring;    (* [item.toc?.label] *)
  loaded : loadOutcome           (* [bookInstance.load(item.href)] *)
}.

Record Container := {
  metadataTitle : option jsstring;
  metadataCreator : option jsstring;
  spineItems : list SpineItem;
  cover : option jsstring        (* the data URL of the cover, if the
                                    extraction went through *)
}.

Inductive epubRead :=
| BufferUnreadable               (* [reader.onerror] *)
| BufferEmpty                    (* no array buffer *)
| EpubBroken                     (* the library rejects the container *)
| EpubLoaded (c : Container).

Record File := {
  name : jsstring;
  text : option jsstring;
  epub : epubRead
}.

Inductive parseError :=
| EmptyFile                      (* File is empty or could not be read. *)
| ReadFailed                     (* the error of the reader *)
| SetupFailed                    (* the error of the EPUB library *)
| NoContent                      (* Failed to extract any content. The book
                                    may be corrupted or protected by DRM. *)
| MobiUnsupported
| UnsupportedType (extension : jsstring).

Inductive parsed :=
| Resolved (book : Book)
| Rejected (e : parseError).

Section Parser.
Context `{UnicodeTables}.

(** The identifiers [generateId()] hands out during one import, in the
    order of the calls. *)
Variable generateId : nat -> jsstring.

(** The characters of a text, each matched without regard to case. *)
Definition letters (s : jsstring) : regex :=
  sequence (List.map (fun c => Chr (literal true c)) s).

Definition chuaXacDinh : jsstring :=
  [67; 104; 432; 97; 32; 120; 225; 99; 32; 273; 7883; 110; 104]%N.
Definition chuong : jsstring := [32; 67; 104; 432; 417; 110; 103; 32]%N.

(** The junk title pattern, with the [i] flag: at the start, the
    placeholder phrase, optionally the chapter word with digits,
    optionally a colon, and any white space. *)
Definition JUNK_TITLE_REGEX : regex :=
  Seq (Bol false)
    (Seq (letters chuaXacDinh)
      (Seq (Opt (Seq (letters chuong) (Plus (inClass true digitUnits))))
        (Seq (Opt (Chr (literal true 58)))
          (Star (inClass true whiteSpaceUnits))))).

(** [/\.[^/.]+$/] *)
Definition extensionRegex : regex :=
  Seq (Chr (N.eqb 46))
    (Seq (Plus (fun c => negb ((c =? 47) || (c =? 46))%N)) (Eol false)).

(** [/(?=^Chapter \d+|CHAPTER \d+)/im] *)
Definition chapterRegex : regex :=
  Look (Alt (Seq (Bol true)
               (Seq (letters (js "Chapter ")) (Plus (inClass true digitUnits))))
            (Seq (letters (js "CHAPTER ")) (Plus (inClass true digitUnits)))).

(** [file.name.replace(/\.[^/.]+$/, "")] *)
Definition withoutExtension (fileName : jsstring) : jsstring :=
  replaceFirst extensionRegex [] fileName.

(** [content.split('\n').find(line => line.trim().length > 0)?.trim()] *)
Definition getFirstContentLine (content : jsstring) : option jsstring :=
  option_map trim
    (List.find (fun line => negb (isEmpty (trim line))) (splitOn LF content)).

(** [content.split('\n').map(l => l.trim()).filter(l => l.length > 0)] *)
Definition contentLines (content : jsstring) : list jsstring :=
  List.filter (fun l => negb (isEmpty l)) (List.map trim (splitOn LF content)).

(** [if (lines.length > 0 && test(lines[0])) lines.shift()] *)
Definition shiftIf (test : jsstring -> bool) (lines : list jsstring)
  : list jsstring :=
  match lines with
  | l :: rest => if test l then rest else lines
  | [] => []
  end.

Definition sameIgnoringCase (a b : jsstring) : bool :=
  eqs (toLowerCase a) (toLowerCase b).

(** The repeating header: the first content line of the first two raw
    chapters, when both have one, it is longer than 5 and the two agree. *)
Definition repeatingHeaderOf (rawChapters : list Chapter) : option jsstring :=
  match rawChapters with
  | c0 :: c1 :: _ =>
      match getFirstContentLine (content c0) with
      | Some firstLine1 =>
          if negb (isEmpty firstLine1) && (len firstLine1 >? 5)
             && bool_decide (getFirstContentLine (content c1) = Some firstLine1)
          then Some firstLine1 else None
      | None => None
      end
  | _ => None
  end.

Definition removeHeader (repeatingHeader : option jsstring)
    (lines : list jsstring) : list jsstring :=
  match repeatingHeader with
  | Some h => shiftIf (eqs h) lines
  | None => lines
  end.

(** The title after the junk is stripped, or [Chapter n]. *)
Definition cleanTitle (title : jsstring) (index : nat) : jsstring :=
  let cleanedTitle := trim (replaceFirst JUNK_TITLE_REGEX [] title) in
  if isEmpty cleanedTitle
  then js "Chapter " ++ numberToString (N.of_nat (index + 1))
  else cleanedTitle.

(** [parts.map((part) => ...)] *)
Definition rawChapterOfPart (index : nat) (part : jsstring) : Chapter :=
  match splitOn LF part with
  | first :: lines =>
      {| chapterId := generateId index; chapterTitle := trim first;
         content := trim (joinWith LF lines) |}
  | [] =>
      {| chapterId := generateId index; chapterTitle := [];
         content := [] |}
  end.

(** The body of [rawChapters.forEach]: the chapter pushed, if any. *)
Definition txtChapter (bookTitle : jsstring) (repeatingHeader : option jsstring)
    (index : nat) (chapter : Chapter) : option Chapter :=
  let lines := contentLines (content chapter) in
  let lines := removeHeader repeatingHeader lines in
  let lines := shiftIf (fun l => sameIgnoringCase l bookTitle) lines in
  if (0 <? length lines)%nat then
    Some {| chapterId := chapterId chapter;
            chapterTitle := cleanTitle (chapterTitle chapter) index;
            content := joinWith LF lines |}
  else None.

(** The non-blank pieces of the text, split before every chapter heading. *)
Definition partsOf (fileContent : jsstring) : list jsstring :=
  List.filter (fun part => negb (isEmpty (trim part)))
              (split chapterRegex fileContent).

Definition txtChapters (bookTitle fileContent : jsstring) : list Chapter :=
  let parts := partsOf fileContent in
  if (length parts <=? 1)%nat then
    let lines :=
      List.filter (fun l => negb (isEmpty l))
                  (List.map trim (splitOn LF fileContent)) in
    let lines := shiftIf (fun l => sameIgnoringCase l bookTitle) lines in
    [{| chapterId := generateId 0; chapterTitle := js "Full Text";
        content := trim (joinWith LF lines) |}]
  else
    let rawChapters := imap rawChapterOfPart parts in
    let repeatingHeader := repeatingHeaderOf rawChapters in
    omap (fun x => x) (imap (txtChapter bookTitle repeatingHeader) rawChapters).

Definition parseTxt (file : File) : parsed :=
  match text file with
  | None => Rejected ReadFailed
  | Some fileContent =>
      if isEmpty fileContent then Rejected EmptyFile
      else
        let bookTitle := withoutExtension (name file) in
        let chapters := txtChapters bookTitle fileContent in
        Resolved {| id := generateId (Nat.max 1 (length (partsOf fileContent)));
                    title := bookTitle; author := None; coverImage := None;
                    chapters := chapters; lastPosition := None |}
  end.

(** [a || b] on texts that may be missing. *)
Definition orText (a : option jsstring) (b : jsstring) : jsstring :=
  match a with
  | Some s => if isEmpty s then b else s
  | None => b
  end.

(** One of the [chapterPromises]: [None] when it rejects. *)
Definition chapterPromise (index : nat) (item : SpineItem) : option Chapter :=
  let fulfilled text :=
    Some {| chapterId := orText (itemId item) (generateId index);
            chapterTitle := cleanTitle (orText (option_map trim (tocLabel item)) [])
                                       index;
            content := trim text |} in
  match loaded item with
  | LoadDocument text => fulfilled text
  | LoadString text => fulfilled text
  | LoadRejects | LoadFalsy | LoadOther => None
  end.

(** [results.forEach]: the fulfilled results with a non-empty content. *)
Definition epubRawChapters (items : list SpineItem) : list Chapter :=
  omap (fun result =>
          match result with
          | Some value => if isEmpty (content value) then None else Some value
          | None => None
          end)
       (imap chapterPromise items).

(** The body of [rawChapters.map] of the EPUB path. *)
Definition epubChapter (bookTitle : jsstring) (repeatingHeader : option jsstring)
    (chapter : Chapter) : Chapter :=
  let lines := contentLines (content chapter) in
  let lines := removeHeader repeatingHeader lines in
  let lines := shiftIf (fun l => sameIgnoringCase l bookTitle) lines in
  let lines := shiftIf (fun l => sameIgnoringCase l (chapterTitle chapter)) lines in
  {| chapterId := chapterId chapter; chapterTitle := chapterTitle chapter;
     content := joinWith LF lines |}.

Definition epubChapters (bookTitle : jsstring) (items : list SpineItem)
  : list Chapter :=
  let rawChapters := epubRawChapters items in
  let repeatingHeader := repeatingHeaderOf rawChapters in
  List.filter (fun c => negb (isEmpty (content c)))
              (List.map (epubChapter bookTitle repeatingHeader) rawChapters).

Definition parseEpub (file : File) : parsed :=
  match epub file with
  | BufferUnreadable => Rejected ReadFailed
  | BufferEmpty => Rejected EmptyFile
  | EpubBroken => Rejected SetupFailed
  | EpubLoaded c =>
      let bookTitle := orText (metadataTitle c) (withoutExtension (name file)) in
      let chapters := epubChapters bookTitle (spineItems c) in
      if (0 <? length (spineItems c))%nat && (length chapters =? 0)%nat
      then Rejected NoContent
      else Resolved {| id := generateId (length (spineItems c));
                       title := bookTitle; author := metadataCreator c;
                       coverImage := cover c; chapters := chapters;
                       lastPosition := None |}
  end.

(** [file.name.split('.').pop()?.toLowerCase()] *)
Definition extensionOf (fileName : jsstring) : jsstring :=
  toLowerCase (List.last (splitOn 46%N fileName) []).

Definition parseFile (file : File) : parsed :=
  let extension := extensionOf (name file) in
  if eqs extension (js "txt") then parseTxt file
  else if eqs extension (js "epub") then parseEpub file
  else if eqs extension (js "mobi") then Rejected MobiUnsupported
  else Rejected (UnsupportedType extension).

End Parser.

End Parser.

Import Parser.

(** ** components/ReaderPage.tsx: the audio queue

    The part of the component that decides which chunks are fetched: the
    refs of the queue, the [audioInfo] state with the ref that mirrors it,
    and the functions that read or write them.  Playback (the audio
    context, [playAudio], [stopPlayback]) and the state it alone uses
    ([currentlyPlayingIndex], [resumeIndex], [chapterStatus], the tab) do
    not write any of these and are passed in where a function reads them.
    An [AbortController] is named by the order of its creation. *)

Module ReaderPage.

Definition AUDIO_PRELOAD_COUNT : nat := 10.

(** [AudioInfo.state]: ['idle' | 'loading' | 'loaded' | 'error'] *)
Inductive AudioState := AudioIdle | AudioLoading | AudioLoaded | AudioError.

#[global] Instance AudioState_eq_dec : EqDecision AudioState.
Proof. solve_decision. Defined.

Record AudioRequest := { index : nat; loaderId : nat; text : jsstring }.

Record page := {
  audioLoaderId : nat;                        (* audioLoaderIdRef *)
  audioRequestQueue : list AudioRequest;      (* audioRequestQueueRef *)
  activelyProcessingIndex : option nat;       (* activelyProcessingIndexRef *)
  activelyProcessingController : option nat;  (* activelyProcessingControllerRef *)
  isChapterLoadCancelled : bool;              (* isChapterLoadCancelledRef *)
  isProcessingQueue : bool;                   (* isProcessingQueueRef *)
  audioInfoRef : gmap nat AudioState;         (* audioInfoRef *)
  audioInfo : gmap nat AudioState;            (* the state [audioInfo] *)
  audioError : option jsstring;               (* the state [audioError] *)
  queueUpdated : nat;                         (* the state [queueUpdated] *)
  controllersCreated : nat                    (* [new AbortController()] so far *)
}.

Definition initialPage : page :=
  {| audioLoaderId := 0; audioRequestQueue := [];
     activelyProcessingIndex := None; activelyProcessingController := None;
     isChapterLoadCancelled := false; isProcessingQueue := false;
     audioInfoRef := ∅; audioInfo := ∅; audioError := None;
     queueUpdated := 0; controllersCreated := 0 |}.

Definition setQueue (q : list AudioRequest) (p : page) : page :=
  {| audioLoaderId := audioLoaderId p; audioRequestQueue := q;
     activelyProcessingIndex := activelyProcessingIndex p;
     activelyProcessingController := activelyProcessingController p;
     isChapterLoadCancelled := isChapterLoadCancelled p;
     isProcessingQueue := isProcessingQueue p;
     audioInfoRef := audioInfoRef p; audioInfo := audioInfo p;
     audioError := audioError p; queueUpdated := queueUpdated p;
     controllersCreated := controllersCreated p |}.

Definition setLoaderId (n : nat) (p : page) : page :=
  {| audioLoaderId := n; audioRequestQueue := audioRequestQueue p;
     activelyProcessingIndex := activelyProcessingIndex p;
     activelyProcessingController := activelyProcessingController p;
     isChapterLoadCancelled := isChapterLoadCancelled p;
     isProcessingQueue := isProcessingQueue p;
     audioInfoRef := audioInfoRef p; audioInfo := audioInfo p;
     audioError := audioError p; queueUpdated := queueUpdated p;
     controllersCreated := controllersCreated p |}.

Definition setProcessing (i c : option nat) (p : page) : page :=
  {| audioLoaderId := audioLoaderId p;
     audioRequestQueue := audioRequestQueue p;
     activelyProcessingIndex := i; activelyProcessingController := c;
     isChapterLoadCancelled := isChapterLoadCancelled p;
     isProcessingQueue := isProcessingQueue p;
     audioInfoRef := audioInfoRef p; audioInfo := audioInfo p;
     audioError := audioError p; queueUpdated := queueUpdated p;
     controllersCreated := controllersCreated p |}.

Definition setCancelled (b : bool) (p : page) : page :=
  {| audioLoaderId := audioLoaderId p;
     audioRequestQueue := audioRequestQueue p;
     activelyProcessingIndex := activelyProcessingIndex p;
     activelyProcessingController := activelyProcessingController p;
     isChapterLoadCancelled := b;
     isProcessingQueue := isProcessingQueue p;
     audioInfoRef := audioInfoRef p; audioInfo := audioInfo p;
     audioError := audioError p; queueUpdated := queueUpdated p;
     controllersCreated := controllersCreated p |}.

Definition setIsProcessing (b : bool) (p : page) : page :=
  {| audioLoaderId := audioLoaderId p;
     audioRequestQueue := audioRequestQueue p;
     activelyProcessingIndex := activelyProcessingIndex p;
     activelyProcessingController := activelyProcessingController p;
     isChapterLoadCancelled := isChapterLoadCancelled p;
     isProcessingQueue := b;
     audioInfoRef := audioInfoRef p; audioInfo := audioInfo p;
     audioError := audioError p; queueUpdated := queueUpdated p;
     controllersCreated := controllersCreated p |}.

Definition setAudioInfoRef (m : gmap nat AudioState) (p : page) : page :=
  {| audioLoaderId := audioLoaderId p;
     audioRequestQueue := audioRequestQueue p;
     activelyProcessingIndex := activelyProcessingIndex p;
     activelyProcessingController := activelyProcessingController p;
     isChapterLoadCancelled := isChapterLoadCancelled p;
     isProcessingQueue := isProcessingQueue p;
     audioInfoRef := m; audioInfo := audioInfo p;
     audioError := audioError p; queueUpdated := queueUpdated p;
     controllersCreated := controllersCreated p |}.

(** [setAudioInfo(prev => f(prev))] *)
Definition setAudioInfo (f : gmap nat AudioState -> gmap nat AudioState)
    (p : page) : page :=
  {| audioLoaderId := audioLoaderId p;
     audioRequestQueue := audioRequestQueue p;
     activelyProcessingIndex := activelyProcessingIndex p;
     activelyProcessingController := activelyProcessingController p;
     isChapterLoadCancelled := isChapterLoadCancelled p;
     isProcessingQueue := isProcessingQueue p;
     audioInfoRef := audioInfoRef p; audioInfo := f (audioInfo p);
     audioError := audioError p; queueUpdated := queueUpdated p;
     controllersCreated := controllersCreated p |}.

Definition setAudioError (e : option jsstring) (p : page) : page :=
  {| audioLoaderId := audioLoaderId p;
     audioRequestQueue := audioRequestQueue p;
     activelyProcessingIndex := activelyProcessingIndex p;
     activelyProcessingController := activelyProcessingController p;
     isChapterLoadCancelled := isChapterLoadCancelled p;
     isProcessingQueue := isProcessingQueue p;
     audioInfoRef := audioInfoRef p; audioInfo := audioInfo p;
     audioError := e; queueUpdated := queueUpdated p;
     controllersCreated := controllersCreated p |}.

(** [setQueueUpdated(c => c + 1)] *)
Definition bumpQueueUpdated (p : page) : page :=
  {| audioLoaderId := audioLoaderId p;
     audioRequestQueue := audioRequestQueue p;
     activelyProcessingIndex := activelyProcessingIndex p;
     activelyProcessingController := activelyProcessingController p;
     isChapterLoadCancelled := isChapterLoadCancelled p;
     isProcessingQueue := isProcessingQueue p;
     audioInfoRef := audioInfoRef p; audioInfo := audioInfo p;
     audioError := audioError p; queueUpdated := S (queueUpdated p);
     controllersCreated := controllersCreated p |}.

Definition countController (p : page) : page :=
  {| audioLoaderId := audioLoaderId p;
     audioRequestQueue := audioRequestQueue p;
     activelyProcessingIndex := activelyProcessingIndex p;
     activelyProcessingController := activelyProcessingController p;
     isChapterLoadCancelled := isChapterLoadCancelled p;
     isProcessingQueue := isProcessingQueue p;
     audioInfoRef := audioInfoRef p; audioInfo := audioInfo p;
     audioError := audioError p; queueUpdated := queueUpdated p;
     controllersCreated := S (controllersCreated p) |}.

(** [useEffect(() => { audioInfoRef.current = audioInfo; }, [audioInfo])] *)
Definition syncAudioInfoRef (p : page) : page :=
  setAudioInfoRef (audioInfo p) p.

(** [isFreshLoad || !info || info.state === 'idle' || info.state === 'error'] *)
Definition wanted (isFreshLoad : bool) (info : option AudioState) : bool :=
  isFreshLoad
  || match info with
     | None | Some AudioIdle | Some AudioError => true
     | Some AudioLoading | Some AudioLoaded => false
     end.

(** The body of the [for] loop of the scheduler: the request pushed for
    the index [i], if any.  The loop keeps [i] below [chunks.length]. *)
Definition candidate (isFreshLoad : bool) (chunks : list jsstring) (p : page)
    (i : nat) : option AudioRequest :=
  let info := audioInfoRef p !! i in
  let isAlreadyQueued :=
    existsb (fun r => index r =? i)%nat (audioRequestQueue p) in
  let isBeingProcessed := bool_decide (activelyProcessingIndex p = Some i) in
  if wanted isFreshLoad info && negb isAlreadyQueued && negb isBeingProcessed
  then Some {| index := i; loaderId := audioLoaderId p;
               text := default [] (chunks !! i) |}
  else None.

(** [scheduleAudioLoading(startIndex, isPriority, chunks, isFreshLoad)] *)
Definition scheduleAudioLoading (startIndex : nat) (isPriority : bool)
    (chunks : list jsstring) (isFreshLoad : bool) (p : page) : page :=
  if isChapterLoadCancelled p then p
  else
    let endIndex := Nat.min (startIndex + AUDIO_PRELOAD_COUNT) (length chunks) in
    let newRequests :=
      omap (candidate isFreshLoad chunks p)
           (seq startIndex (endIndex - startIndex)) in
    if (0 <? length newRequests)%nat then
      let queue :=
        if isPriority then
          let filteredOldQueue :=
            List.filter
              (fun r => negb (existsb (fun n => index n =? index r)%nat
                                      newRequests))
              (audioRequestQueue p) in
          newRequests ++ filteredOldQueue
        else audioRequestQueue p ++ newRequests in
      bumpQueueUpdated (setQueue queue p)
    else p.

(** A fetch that [processQueue] has started: its controller and its
    request. *)
Inductive launched := Launched (controller : nat) (request : AudioRequest).

(** [processQueue], up to its first [await]: the page afterwards and the
    fetch it started, if any. *)
Definition processQueue (p : page) : page * option launched :=
  if isProcessingQueue p || (length (audioRequestQueue p) =? 0)%nat
     || isChapterLoadCancelled p
  then (p, None)
  else
    match audioRequestQueue p with
    | [] => (p, None)
    | request :: rest =>
        if negb (loaderId request =? audioLoaderId p)%nat then
          (bumpQueueUpdated (setIsProcessing false (setQueue rest p)), None)
        else
          let controller := controllersCreated p in
          let p := countController (setIsProcessing true p) in
          let p := setProcessing (Some (index request)) (Some controller) p in
          let p :=
            setAudioInfo
              (fun prev =>
                 if bool_decide (prev !! index request = Some AudioLoading)
                 then prev else <[index request := AudioLoading]> prev) p in
          (setQueue rest p, Some (Launched controller request))
    end.

(** The effect on [queueUpdated] and [processQueue]. *)
Definition queueEffect (p : page) : page * option launched :=
  if (0 <? length (audioRequestQueue p))%nat && negb (isProcessingQueue p)
     && negb (isChapterLoadCancelled p)
  then processQueue p else (p, None).

(** What a rejected [await] throws: the [AbortError] of an aborted fetch,
    or an error with a message that is a [TtsError] or not. *)
Inductive thrown :=
| AbortException
| ErrorThrown (isTtsError : bool) (message : jsstring).

Definition failedChunkMessage (i : nat) : jsstring :=
  js "Failed audio for chunk " ++ numberToString (N.of_nat i)
  ++ js ". See console.".

(** The [catch] block of [processQueue]. *)
Definition catchBlock (l : launched) (e : thrown) (p : page) : page :=
  let '(Launched _ request) := l in
  match e with
  | AbortException =>
      setAudioInfo
        (fun prev =>
           if bool_decide (prev !! index request = Some AudioLoading)
           then <[index request := AudioIdle]> prev else prev) p
  | ErrorThrown isTtsError message =>
      if startsWith message (js "Stale request") then p
      else if (loaderId request =? audioLoaderId p)%nat then
        let p := setQueue [] (setCancelled true p) in
        let errorMessage :=
          if isTtsError then message else failedChunkMessage (index request) in
        setAudioError (Some errorMessage)
          (setAudioInfo (fun prev => <[index request := AudioError]> prev) p)
      else p
  end.

(** The [finally] block of [processQueue]. *)
Definition finallyBlock (l : launched) (p : page) : page :=
  let '(Launched controller _) := l in
  let p :=
    if bool_decide (activelyProcessingController p = Some controller)
    then setProcessing None None p else p in
  let p := setIsProcessing false p in
  if (0 <? length (audioRequestQueue p))%nat
     && negb (isChapterLoadCancelled p)
  then bumpQueueUpdated p else p.

(** [processQueue] when [fetchSpeechFromLocalServer] settles: with
    [rejected = None] the blob has arrived; [context] is what
    [initializeAudioContext] threw, if it did; the flag tells whether the
    function goes on to decode the blob. *)
Definition afterFetch (l : launched) (rejected context : option thrown)
    (p : page) : page * bool :=
  let '(Launched _ request) := l in
  match rejected with
  | Some e => (finallyBlock l (catchBlock l e p), false)
  | None =>
      if negb (loaderId request =? audioLoaderId p)%nat then
        (finallyBlock l
           (catchBlock l (ErrorThrown false (js "Stale request after fetch")) p),
         false)
      else
        match context with
        | Some e => (finallyBlock l (catchBlock l e p), false)
        | None => (p, true)
        end
  end.

(** [processQueue] when the decoding settles: [rejected] is what
    [arrayBuffer] or [decodeAudioData] threw, [playback] what the calls
    that start the playback threw, if they were made and threw. *)
Definition afterDecode (l : launched) (rejected playback : option thrown)
    (p : page) : page :=
  let '(Launched _ request) := l in
  match rejected with
  | Some e => finallyBlock l (catchBlock l e p)
  | None =>
      if negb (loaderId request =? audioLoaderId p)%nat then
        finallyBlock l
          (catchBlock l (ErrorThrown false (js "Stale request after decode")) p)
      else
        let p :=
          setAudioInfo (fun prev => <[index request := AudioLoaded]> prev) p in
        match playback with
        | Some e => finallyBlock l (catchBlock l e p)
        | None => finallyBlock l p
        end
  end.

(** The effect that preloads what follows the chunk being played. *)
Definition preloadEffect (currentlyPlayingIndex : option nat)
    (sentenceChunks : list jsstring) (p : page) : page :=
  match currentlyPlayingIndex with
  | None => p
  | Some playing =>
      if (length sentenceChunks =? 0)%nat then p
      else
        let preloadStartIndex := (playing + 1)%nat in
        if (preloadStartIndex <? length sentenceChunks)%nat
        then scheduleAudioLoading preloadStartIndex false sentenceChunks false p
        else p
  end.

(** The index the chapter effect starts the schedule at. *)
Definition scheduleStartIndexOf (book : Book) (currentChapterIndex : Z) : nat :=
  match lastPosition book with
  | Some lastPos =>
      if (chapterIndex lastPos =? currentChapterIndex)
         && (sentenceIndex lastPos >? 0)
      then Z.to_nat (sentenceIndex lastPos) else 0%nat
  | None => 0%nat
  end.

(** The effect on [book.id] and [currentChapterIndex] that loads a
    chapter; [None] if the splitter did not return. *)
Definition chapterEffect (book : Book) (currentChapterIndex : Z) (p : page)
  : option page :=
  if Z.of_nat (length (chapters book)) <=? currentChapterIndex then Some p
  else if currentChapterIndex <? 0 then Some p
  else
    match chapters book !! Z.to_nat currentChapterIndex with
    | None => Some p
    | Some currentChapter =>
        let p := setAudioError None p in
        let p :=
          setQueue [] (setCancelled false
                         (setLoaderId (S (audioLoaderId p)) p)) in
        let content := trim (content currentChapter) in
        match splitTextIntoChunks (length content) content 400 with
        | None => None
        | Some chunks =>
            let p := setAudioInfo (fun _ => ∅) p in
            let scheduleStartIndex :=
              scheduleStartIndexOf book currentChapterIndex in
            if len content <? 15 then Some p
            else Some (scheduleAudioLoading scheduleStartIndex true chunks true p)
        end
    end.

(** The cleanup of the chapter effect. *)
Definition chapterCleanup (p : page) : page :=
  setQueue [] (setCancelled true (setLoaderId (S (audioLoaderId p)) p)).

(** The PLAY branch shared by [handleGlobalPlayPause] and
    [handlePlayPauseSentence]. *)
Definition playFrom (startSentence : nat) (sentenceChunks : list jsstring)
    (p : page) : page :=
  let p := setQueue [] p in
  let p :=
    if bool_decide (audioInfoRef p !! startSentence = Some AudioLoaded) then p
    else setAudioInfo (fun prev => <[startSentence := AudioLoading]> prev) p in
  scheduleAudioLoading startSentence true sentenceChunks false p.

Definition handleGlobalPlayPause (currentlyPlayingIndex resumeIndex : option nat)
    (sentenceChunks : list jsstring) (p : page) : page :=
  match currentlyPlayingIndex with
  | Some _ => p
  | None => playFrom (default 0%nat resumeIndex) sentenceChunks p
  end.

Definition handlePlayPauseSentence (currentlyPlayingIndex : option nat)
    (i : nat) (sentenceChunks : list jsstring) (p : page) : page :=
  if bool_decide (currentlyPlayingIndex = Some i) then p
  else playFrom i sentenceChunks p.

End ReaderPage.

(** * Properties *)


(** ** Facts about trimming *)

Section TrimFacts.

(** Empty or made of white space only. *)
Definition allWhite (s : jsstring) : bool := forallb isWhiteSpace s.

(** The first or the last code unit is white space. *)
Definition startsOrEndsWithWhiteSpace (s : jsstring) : bool :=
  match s with
  | [] => false
  | c :: _ => isWhiteSpace c || isWhiteSpace (List.last s c)
  end.

Lemma trimStart_head s :
  match trimStart s with c :: _ => isWhiteSpace c = false | [] => True end.
Proof.
  induction s as [|c s IH]; simpl; [exact I|].
  destruct (isWhiteSpace c) eqn:E; [exact IH | exact E].
Qed.

Lemma trimStart_nil s : trimStart s = [] <-> allWhite s = true.
Proof.
  induction s as [|c s IH]; simpl; [tauto|].
  destruct (isWhiteSpace c); simpl; [exact IH|].
  split; discriminate.
Qed.

Lemma trimStart_length s : (length (trimStart s) <= length s)%nat.
Proof.
  induction s as [|c s IH]; simpl; [lia|].
  destruct (isWhiteSpace c); simpl; lia.
Qed.

Lemma trimStart_suffix s : exists w, s = w ++ trimStart s.
Proof.
  induction s as [|c s [w IH]]; simpl; [by exists []|].
  destruct (isWhiteSpace c).
  - exists (c :: w). simpl. by rewrite <- IH.
  - by exists [].
Qed.

Lemma trimStart_snoc s c :
  isWhiteSpace c = false -> exists u, trimStart (s ++ [c]) = u ++ [c].
Proof.
  intros Hc. induction s as [|x s [u IH]]; simpl.
  - rewrite Hc. by exists [].
  - destruct (isWhiteSpace x); [by exists u|]. by exists (x :: s).
Qed.

Lemma allWhite_app s t : allWhite (s ++ t) = allWhite s && allWhite t.
Proof. apply forallb_app. Qed.

Lemma allWhite_rev s : allWhite (rev s) = allWhite s.
Proof.
  induction s as [|c s IH]; simpl; [done|].
  rewrite allWhite_app, IH. simpl. rewrite andb_true_r. apply andb_comm.
Qed.

Lemma trim_nil s : trim s = [] <-> allWhite s = true.
Proof.
  unfold trim, trimEnd. split.
  - intros H. apply (f_equal (@rev N)) in H. rewrite rev_involutive in H.
    simpl in H. apply trimStart_nil in H. rewrite allWhite_rev in H.
    destruct (trimStart s) as [|c t] eqn:E; [by apply trimStart_nil|].
    pose proof (trimStart_head s) as Hh. rewrite E in Hh.
    simpl in H. by rewrite Hh in H.
  - intros H. apply trimStart_nil in H. by rewrite H.
Qed.

(** A trimmed text is [c :: _] and [_ ++ [d]] with [c], [d] not white. *)
Lemma trim_shape s :
  trim s = [] \/
  exists c d u v, trim s = c :: u /\ trim s = v ++ [d]
                  /\ isWhiteSpace c = false /\ isWhiteSpace d = false.
Proof.
  unfold trim, trimEnd.
  pose proof (trimStart_head s) as Hh.
  destruct (trimStart s) as [|c t] eqn:E; [by left|right].
  change (rev (c :: t)) with (rev t ++ [c]).
  destruct (trimStart_snoc (rev t) c Hh) as [u Hu].
  pose proof (trimStart_head (rev t ++ [c])) as Hd.
  rewrite Hu in *. rewrite rev_app_distr. simpl.
  destruct u as [|d w]; simpl in *.
  - exists c, c, [], []. by repeat split.
  - exists c, d, (rev w ++ [d]), (c :: rev w). by repeat split.
Qed.

Lemma trim_clean s : startsOrEndsWithWhiteSpace (trim s) = false.
Proof.
  destruct (trim_shape s) as [->|(c & d & u & v & H1 & H2 & Hc & Hd)]; [done|].
  assert (List.last (c :: u) c = d) as Hl.
  { rewrite <- H1, H2. apply last_last. }
  rewrite H1. unfold startsOrEndsWithWhiteSpace. by rewrite Hl, Hc, Hd.
Qed.

Lemma trim_not_white s : trim s <> [] -> allWhite (trim s) = false.
Proof.
  intros Hne.
  destruct (trim_shape s) as [H|(c & d & u & v & H1 & _ & Hc & _)]; [done|].
  rewrite H1. simpl. by rewrite Hc.
Qed.

Lemma trim_length s : (length (trim s) <= length s)%nat.
Proof.
  unfold trim, trimEnd. rewrite length_rev.
  etrans; [apply trimStart_length|]. rewrite length_rev. apply trimStart_length.
Qed.

Lemma trim_head_kept c s :
  isWhiteSpace c = false -> exists u, trim (c :: s) = c :: u.
Proof.
  intros Hc. unfold trim, trimEnd. simpl. rewrite Hc. simpl.
  destruct (trimStart_snoc (rev s) c Hc) as [u ->].
  rewrite rev_app_distr. simpl. by exists (rev u).
Qed.

Lemma len_nil_iff (s : jsstring) : len s = 0 <-> s = [].
Proof. unfold len. destruct s; simpl; split; (done || lia). Qed.

Lemma isEmpty_true (s : jsstring) : isEmpty s = true <-> s = [].
Proof. by destruct s. Qed.

End TrimFacts.

(** ** splitTextIntoChunks: the short cases *)

(** C5: empty or white-space-only text gives no chunk; any other text whose
    trimmed length is at most [maxLength] gives the trimmed text as its
    only chunk. *)
Theorem splitTextIntoChunks_short (fuel : nat) (text : jsstring) (maxLength : Z) :
  (allWhite text = true ->
     splitTextIntoChunks fuel text maxLength = Some [])
  /\ (allWhite text = false -> len (trim text) <= maxLength ->
     splitTextIntoChunks fuel text maxLength = Some [trim text]).
Proof.
  unfold splitTextIntoChunks. split.
  - intros Hw. apply trim_nil in Hw. rewrite Hw. simpl.
    by rewrite orb_true_r.
  - intros Hw Hle.
    assert (trim text <> []) as Hne.
    { intros H. apply trim_nil in H. congruence. }
    assert (isEmpty text = false) as ->.
    { destruct text; [done|done]. }
    assert ((len (trim text) =? 0) = false) as ->.
    { apply Z.eqb_neq. by rewrite len_nil_iff. }
    simpl. by apply Z.leb_le in Hle as ->.
Qed.

Lemma splitTextIntoChunks_short_witness :
  splitTextIntoChunks 0 (js "  ") 400 = Some []
  /\ splitTextIntoChunks 0 (js " Hello there ") 400 = Some [js "Hello there"].
Proof.
  split.
  - apply (proj1 (splitTextIntoChunks_short 0 (js "  ") 400)). reflexivity.
  - apply (proj2 (splitTextIntoChunks_short 0 (js " Hello there ") 400)).
    + reflexivity.
    + vm_compute. discriminate.
Defined.

(** ** Facts about the matcher *)

Section RegexFacts.

Lemma star_all_none p k b a :
  forallb p a = true ->
  (forall b' a', match a' with [] => True | c :: _ => p c = true end ->
                 k b' a' = None) ->
  star p k b a = None.
Proof.
  revert b. induction a as [|c a IH]; intros b Ha Hk; simpl.
  - by apply Hk.
  - simpl in Ha. apply andb_prop in Ha as [Hc Ha]. rewrite Hc.
    rewrite IH by done. simpl. apply Hk. exact Hc.
Qed.

Lemma star_all_some p k b a x :
  forallb p a = true ->
  k (rev a ++ b) [] = Some x ->
  star p k b a = Some x.
Proof.
  revert b. induction a as [|c a IH]; intros b Ha Hk; simpl.
  - exact Hk.
  - simpl in Ha. apply andb_prop in Ha as [Hc Ha]. rewrite Hc.
    rewrite (IH (c :: b)); [done|done|].
    simpl in Hk. by rewrite <- app_assoc in Hk.
Qed.

Lemma matchAt_sentence_whole b c s :
  forallb notSentenceEnd (c :: s) = true ->
  matchAt sentenceRegex b (c :: s) = Some (rev s ++ c :: b, []).
Proof.
  intros H. pose proof H as H'. simpl in H'. apply andb_prop in H' as [Hc Hs].
  unfold matchAt, sentenceRegex.
  cbn [rmatch]. rewrite Hc.
  rewrite star_all_none; [|done|].
  - simpl. by apply star_all_some.
  - intros b' [|x a'] Hx; [done|].
    unfold notSentenceEnd in Hx. apply negb_true_iff in Hx. by rewrite Hx.
Qed.

Lemma matchAt_sentence_end b : matchAt sentenceRegex b [] = None.
Proof. reflexivity. Qed.

(** A text without [. ? !] is one sentence. *)
Lemma sentences_no_punctuation s :
  s <> [] -> forallb notSentenceEnd s = true ->
  matchAll sentenceRegex s = [s].
Proof.
  intros Hne H. destruct s as [|c s]; [done|].
  unfold matchAll. cbn [matchAllFrom search].
  rewrite matchAt_sentence_whole by done.
  assert (matched [] (rev s ++ [c]) = c :: s) as ->.
  { unfold matched. rewrite Nat.sub_0_r, firstn_all.
    rewrite rev_app_distr. simpl. by rewrite rev_involutive. }
  assert ((length (rev s ++ [c]) =? length (@nil N))%nat = false) as ->.
  { apply Nat.eqb_neq. rewrite length_app. simpl. lia. }
  cbn [length matchAllFrom search]. by rewrite matchAt_sentence_end.
Qed.

End RegexFacts.

(** ** splitTextIntoChunks: what the chunks look like *)

Section SplitterFacts.

Definition notBlank (c : jsstring) : Prop := allWhite c = false.

(** Neither blank nor with white space at either end. *)
Definition tidy (c : jsstring) : Prop :=
  allWhite c = false /\ startsOrEndsWithWhiteSpace c = false.

Lemma trim_tidy s : trim s <> [] -> tidy (trim s).
Proof. intros H. split; [by apply trim_not_white | apply trim_clean]. Qed.

Lemma notBlank_trim s : notBlank s -> trim s <> [].
Proof. unfold notBlank. intros H E. apply trim_nil in E. congruence. Qed.

Lemma sentenceStep_inv maxLength chunks cur sentence :
  Forall tidy chunks -> cur = [] \/ notBlank cur ->
  Forall tidy (sentenceStep maxLength (chunks, cur) sentence).1
  /\ ((sentenceStep maxLength (chunks, cur) sentence).2 = []
      \/ notBlank (sentenceStep maxLength (chunks, cur) sentence).2).
Proof.
  intros Hch Hcur. unfold sentenceStep.
  destruct (len (trim sentence) =? 0) eqn:E; [done|].
  apply Z.eqb_neq in E. rewrite len_nil_iff in E.
  assert (forall x, notBlank (x ++ trim sentence ++ [SPACE])) as Hnew.
  { intros x. unfold notBlank. rewrite !allWhite_app.
    rewrite (trim_not_white _ E). simpl. apply andb_false_r. }
  destruct ((len cur >? 0) && (len cur + len (trim sentence) >? maxLength))
    eqn:F; simpl.
  - split; [|right; apply (Hnew [])].
    apply Forall_app. split; [done|]. apply Forall_singleton.
    apply trim_tidy, notBlank_trim.
    destruct Hcur as [->|H]; [|done].
    apply andb_prop in F as [F _]. done.
  - split; [done|]. right. apply Hnew.
Qed.

Lemma sentenceFold_inv maxLength sentences chunks cur :
  Forall tidy chunks -> cur = [] \/ notBlank cur ->
  Forall tidy (fold_left (sentenceStep maxLength) sentences (chunks, cur)).1.
Proof.
  revert chunks cur.
  induction sentences as [|s ss IH]; intros chunks cur Hch Hcur; [done|].
  cbn [fold_left].
  destruct (sentenceStep_inv maxLength chunks cur s Hch Hcur) as [H1 H2].
  destruct (sentenceStep maxLength (chunks, cur) s) as [chunks' cur'].
  by apply IH.
Qed.

Lemma sentenceChunks_tidy maxLength sentences :
  Forall tidy (sentenceChunks maxLength sentences).
Proof.
  unfold sentenceChunks.
  pose proof (sentenceFold_inv maxLength sentences [] []) as H.
  destruct (fold_left _ _ _) as [chunks cur]. simpl in H.
  assert (Forall tidy chunks) as Hch by (apply H; [done | by left]).
  destruct (len (trim cur) >? 0) eqn:E; [|done].
  apply Forall_app. split; [done|]. apply Forall_singleton, trim_tidy.
  intros Hn. rewrite Hn in E. done.
Qed.

(** A property of every chunk the loop cuts carries over to its result. *)
Lemma fallbackLoop_Forall (P : jsstring -> Prop) (Inv : Z -> Prop) s m :
  (forall start, Inv start -> start < len s ->
     ((fallbackStep s m start).1 <> [] -> P (fallbackStep s m start).1)
     /\ Inv (fallbackStep s m start).2) ->
  forall fuel start chunks res,
    Inv start -> Forall P chunks ->
    fallbackLoop fuel s m start chunks = Some res -> Forall P res.
Proof.
  intros Hstep fuel.
  induction fuel as [|fuel IH]; intros start chunks res Hi Hch;
    cbn [fallbackLoop].
  - destruct (start <? len s); [done|]. by intros [= <-].
  - destruct (start <? len s) eqn:E; [|by intros [= <-]].
    apply Z.ltb_lt in E. destruct (Hstep start Hi E) as [HP Hn].
    destruct (fallbackStep s m start) as [chunk next]. cbn [fst snd] in *.
    apply IH; [done|].
    destruct chunk as [|c chunk]; [done|]. cbn [isEmpty].
    apply Forall_app. split; [done|]. apply Forall_singleton. by apply HP.
Qed.

Lemma fallbackLoop_tidy fuel s m start chunks res :
  Forall tidy chunks ->
  fallbackLoop fuel s m start chunks = Some res -> Forall tidy res.
Proof.
  apply (fallbackLoop_Forall tidy (fun _ => True)); [|done].
  intros st _ _. split; [|done]. unfold fallbackStep. cbn [fst]. apply trim_tidy.
Qed.

End SplitterFacts.

(** ** The fallback loop: indices *)

Section FallbackFacts.

Lemma lastIndexFrom_beyond c s i limit acc :
  limit < i -> lastIndexFrom c s i limit acc = acc.
Proof.
  revert i acc. induction s as [|x s IH]; intros i acc H; simpl; [done|].
  rewrite IH by lia. assert ((i <=? limit) = false) as -> by lia. done.
Qed.

Lemma lastIndexFrom_range c s i limit acc :
  lastIndexFrom c s i limit acc = acc
  \/ (i <= lastIndexFrom c s i limit acc <= limit
      /\ lastIndexFrom c s i limit acc < i + len s).
Proof.
  revert i acc. induction s as [|x s IH]; intros i acc; simpl; [by left|].
  unfold len in *. simpl length. rewrite Nat2Z.inj_succ.
  destruct (IH (i + 1) (if (i <=? limit) && (x =? c)%N then i else acc))
    as [E|E].
  - rewrite E. destruct ((i <=? limit) && (x =? c)%N) eqn:F; [|by left].
    right. apply andb_prop in F as [F _]. lia.
  - right. lia.
Qed.

Lemma lastIndexFrom_absent c s i limit acc :
  includes s c = false -> lastIndexFrom c s i limit acc = acc.
Proof.
  revert i acc. induction s as [|x s IH]; intros i acc H; simpl; [done|].
  simpl in H. apply orb_false_elim in H as [Hx Hs].
  rewrite IH by done. rewrite N.eqb_sym, Hx. by rewrite andb_false_r.
Qed.

Lemma lastIndexOf_range s c from :
  lastIndexOf s c from = -1
  \/ (0 <= lastIndexOf s c from <= Z.max from 0
      /\ lastIndexOf s c from < len s).
Proof.
  unfold lastIndexOf.
  destruct (lastIndexFrom_range c s 0 (Z.max from 0) (-1)) as [E|E];
    [by left | right; lia].
Qed.

Lemma lastIndexOf_absent s c from :
  includes s c = false -> lastIndexOf s c from = -1.
Proof. apply lastIndexFrom_absent. Qed.

Lemma substring_length s a b :
  0 <= a <= b -> len (substring s a b) <= b - a.
Proof.
  intros H. unfold substring, clampIndex, len.
  rewrite length_take, length_drop. lia.
Qed.

Lemma substring_prefix s b :
  0 <= b -> substring s 0 b = take (Z.to_nat b) s.
Proof.
  intros H. unfold substring, clampIndex, len. simpl drop.
  replace (Z.min (Z.max 0 (Z.min 0 (Z.of_nat (length s))))
                 (Z.max 0 (Z.min b (Z.of_nat (length s))))) with 0 by lia.
  change (Z.to_nat 0) with 0%nat. rewrite drop_0.
  destruct (Z.le_gt_cases b (Z.of_nat (length s))).
  - f_equal. lia.
  - rewrite !take_ge; [done| |]; lia.
Qed.

(** The end index an iteration settles on. *)
Definition fallbackEnd (s : jsstring) (m start : Z) : Z :=
  if start + m <? len s then
    if lastIndexOf s SPACE (start + m) >? start
    then lastIndexOf s SPACE (start + m) else start + m
  else len s.

Lemma fallbackStep_end s m start :
  fallbackStep s m start
  = (trim (substring s start (fallbackEnd s m start)),
     fallbackEnd s m start + 1).
Proof. reflexivity. Qed.

Lemma fallbackEnd_range s m start :
  0 <= m -> 0 <= start -> start < len s ->
  start <= fallbackEnd s m start <= len s
  /\ fallbackEnd s m start <= start + m.
Proof.
  intros Hm Hs Hl. unfold fallbackEnd.
  destruct (start + m <? len s) eqn:E; [|lia].
  destruct (lastIndexOf_range s SPACE (start + m)) as [R|R];
    destruct (lastIndexOf s SPACE (start + m) >? start) eqn:F; lia.
Qed.

Lemma fallbackStep_bound s m start :
  0 <= m -> 0 <= start -> start < len s ->
  len (fallbackStep s m start).1 <= m
  /\ len (fallbackStep s m start).1 + start + 1 <= (fallbackStep s m start).2
  /\ start < (fallbackStep s m start).2 <= len s + 1.
Proof.
  intros Hm Hs Hl. rewrite fallbackStep_end. cbn [fst snd].
  destruct (fallbackEnd_range s m start Hm Hs Hl) as [H1 H2].
  pose proof (trim_length (substring s start (fallbackEnd s m start))) as Ht.
  pose proof (substring_length s start (fallbackEnd s m start)) as Hsub.
  unfold len in *. lia.
Qed.

(** With a non-negative [maxLength] the loop ends within [length - start]
    iterations. *)
Lemma fallbackLoop_terminates s m :
  0 <= m ->
  forall fuel start chunks,
    0 <= start -> len s - start <= Z.of_nat fuel ->
    exists res, fallbackLoop fuel s m start chunks = Some res.
Proof.
  intros Hm fuel.
  induction fuel as [|fuel IH]; intros start chunks Hs Hf; cbn [fallbackLoop].
  - assert ((start <? len s) = false) as -> by lia. by eexists.
  - destruct (start <? len s) eqn:E; [|by eexists].
    apply Z.ltb_lt in E.
    destruct (fallbackStep_bound s m start Hm Hs E) as (_ & _ & Hn).
    destruct (fallbackStep s m start) as [chunk next]. cbn [fst snd] in *.
    apply IH; lia.
Qed.

(** With a negative [maxLength] the start index never gets past 0 (the
    first code unit of a trimmed text is no space), so the loop does not
    end. *)
Lemma fallbackLoop_negative c s m :
  m < 0 -> c <> SPACE ->
  forall fuel start chunks,
    start <= 0 -> fallbackLoop fuel (c :: s) m start chunks = None.
Proof.
  intros Hm Hc fuel.
  assert (0 < len (c :: s)) as Hlen.
  { unfold len. simpl length. lia. }
  induction fuel as [|fuel IH]; intros start chunks Hs; cbn [fallbackLoop].
  - by assert ((start <? len (c :: s)) = true) as -> by lia.
  - assert ((start <? len (c :: s)) = true) as -> by lia.
    rewrite fallbackStep_end. apply IH.
    unfold fallbackEnd.
    assert ((start + m <? len (c :: s)) = true) as -> by lia.
    assert (lastIndexOf (c :: s) SPACE (start + m) = -1) as ->.
    { unfold lastIndexOf. replace (Z.max (start + m) 0) with 0 by lia.
      simpl. rewrite lastIndexFrom_beyond by lia.
      assert ((c =? SPACE)%N = false) as -> by by apply N.eqb_neq.
      done. }
    destruct (-1 >? start); lia.
Qed.

Lemma fallbackLoop_extends fuel s m start chunks res :
  fallbackLoop fuel s m start chunks = Some res ->
  exists more, res = chunks ++ more.
Proof.
  revert start chunks.
  induction fuel as [|fuel IH]; intros start chunks; cbn [fallbackLoop].
  - destruct (start <? len s); [done|]. intros [= <-]. exists [].
    by rewrite app_nil_r.
  - destruct (start <? len s); [|intros [= <-]; exists []; by rewrite app_nil_r].
    destruct (fallbackStep s m start) as [chunk next].
    intros H. apply IH in H as [more ->].
    destruct (isEmpty chunk); [by exists more|].
    exists (chunk :: more). by rewrite <- app_assoc.
Qed.

(** Once the loop has ended, a larger bound gives the same chunks. *)
Lemma fallbackLoop_more_fuel s m fuel fuel' start chunks res :
  (fuel <= fuel')%nat ->
  fallbackLoop fuel s m start chunks = Some res ->
  fallbackLoop fuel' s m start chunks = Some res.
Proof.
  revert fuel' start chunks.
  induction fuel as [|fuel IH]; intros fuel' start chunks Hle;
    cbn [fallbackLoop].
  - destruct (start <? len s) eqn:E; [done|]. intros [= <-].
    destruct fuel'; cbn [fallbackLoop]; by rewrite E.
  - destruct fuel' as [|fuel']; [lia|]. cbn [fallbackLoop].
    destruct (start <? len s); [|done].
    destruct (fallbackStep s m start) as [chunk next].
    apply IH. lia.
Qed.

End FallbackFacts.

Section SplitterTheorems.

Lemma forallb_trimStart p s :
  forallb p s = true -> forallb p (trimStart s) = true.
Proof.
  intros H. destruct (trimStart_suffix s) as [w E]. rewrite E in H.
  rewrite forallb_app in H. by apply andb_prop in H as [_ H].
Qed.

Lemma forallb_rev p (s : jsstring) : forallb p (rev s) = forallb p s.
Proof.
  induction s as [|c s IH]; simpl; [done|].
  rewrite forallb_app, IH. simpl. rewrite andb_true_r. apply andb_comm.
Qed.

Lemma forallb_trim p s : forallb p s = true -> forallb p (trim s) = true.
Proof.
  intros H. unfold trim, trimEnd. rewrite forallb_rev.
  apply forallb_trimStart. rewrite forallb_rev. by apply forallb_trimStart.
Qed.

Lemma trim_head s :
  trim s <> [] ->
  exists c u, trim s = c :: u /\ isWhiteSpace c = false /\ c <> SPACE.
Proof.
  intros Hne.
  destruct (trim_shape s) as [H|(c & d & u & v & H1 & _ & Hc & _)]; [done|].
  exists c, u. repeat split; [done|done|]. by intros ->.
Qed.

Lemma fallbackLoop_nonempty fuel c s m res :
  1 <= m -> isWhiteSpace c = false ->
  fallbackLoop fuel (c :: s) m 0 [] = Some res -> res <> [].
Proof.
  intros Hm Hc.
  assert (0 < len (c :: s)) as Hlen by (unfold len; simpl length; lia).
  destruct fuel as [|fuel]; cbn [fallbackLoop].
  - by assert ((0 <? len (c :: s)) = true) as -> by lia.
  - assert ((0 <? len (c :: s)) = true) as -> by lia.
    rewrite fallbackStep_end.
    assert (1 <= fallbackEnd (c :: s) m 0) as He.
    { unfold fallbackEnd. destruct (0 + m <? len (c :: s)); [|lia].
      destruct (lastIndexOf (c :: s) SPACE (0 + m) >? 0) eqn:F; lia. }
    rewrite substring_prefix by lia.
    destruct (Z.to_nat (fallbackEnd (c :: s) m 0)) as [|n] eqn:En; [lia|].
    cbn [take firstn]. destruct (trim_head_kept c (take n s) Hc) as [u ->].
    cbn [isEmpty app]. intros H.
    apply fallbackLoop_extends in H as [more ->]. done.
Qed.

(** C6: whatever [splitTextIntoChunks] returns, no chunk is empty or made
    of white space only, and none starts or ends with white space.  For a
    text without [. ? !] whose trimmed length exceeds [maxLength], the
    chunks cut by the fallback loop all have length at most [maxLength];
    they are what the function returns, unless the loop cut none, in which
    case the whole trimmed text is returned.  With a non-negative
    [maxLength] the function does return. *)
Theorem splitTextIntoChunks_chunks (text : jsstring) (maxLength : Z) :
  (forall fuel chunks,
     splitTextIntoChunks fuel text maxLength = Some chunks ->
     Forall (fun c => allWhite c = false
                      /\ startsOrEndsWithWhiteSpace c = false) chunks)
  /\ (forallb notSentenceEnd text = true -> maxLength < len (trim text) ->
      forall fuel chunks,
        splitTextIntoChunks fuel text maxLength = Some chunks ->
        exists produced,
          fallbackLoop fuel (trim text) maxLength 0 [] = Some produced
          /\ Forall (fun c => len c <= maxLength
                              /\ startsOrEndsWithWhiteSpace c = false) produced
          /\ chunks = (if allWhite text then []
                       else if (length produced =? 0)%nat then [trim text]
                       else produced)
          /\ (1 <= maxLength -> chunks = produced))
  /\ (0 <= maxLength ->
      exists chunks,
        splitTextIntoChunks (length text) text maxLength = Some chunks).
Proof.
  split; [|split].
  - (* every path pushes non-empty trimmed texts only *)
    intros fuel chunks. unfold splitTextIntoChunks.
    destruct (isEmpty text || (len (trim text) =? 0)) eqn:E;
      [by intros [= <-]|].
    apply orb_false_elim in E as [_ E]. apply Z.eqb_neq in E.
    rewrite len_nil_iff in E.
    pose proof (trim_tidy text E) as Hwhole.
    destruct (len (trim text) <=? maxLength);
      [intros [= <-]; by apply Forall_singleton|].
    destruct (1 <? length (matchAll sentenceRegex (trim text)))%nat.
    + pose proof (sentenceChunks_tidy maxLength
                    (matchAll sentenceRegex (trim text))) as Ht.
      destruct (_ && _); intros [= <-]; [by apply Forall_singleton|done].
    + destruct (fallbackLoop fuel (trim text) maxLength 0 []) as [res|] eqn:F;
        [|done].
      apply fallbackLoop_tidy in F; [|done].
      destruct (_ && _); intros [= <-]; [by apply Forall_singleton|done].
  - intros Hp Hlen fuel chunks. unfold splitTextIntoChunks.
    destruct (allWhite text) eqn:Hw.
    { apply trim_nil in Hw. rewrite Hw. cbn [len length Z.of_nat Z.eqb].
      rewrite orb_true_r. intros [= <-]. exists [].
      rewrite Hw in Hlen. cbn in Hlen.
      destruct fuel; cbn; repeat split; try done; lia. }
    assert (trim text <> []) as Hne.
    { intros H. apply trim_nil in H. congruence. }
    assert (isEmpty text = false) as -> by (by destruct text).
    assert ((len (trim text) =? 0) = false) as ->.
    { apply Z.eqb_neq. by rewrite len_nil_iff. }
    assert ((len (trim text) <=? maxLength) = false) as -> by lia.
    cbn [orb].
    rewrite sentences_no_punctuation; [|done|by apply forallb_trim].
    cbn [length Nat.ltb Nat.leb].
    destruct (fallbackLoop fuel (trim text) maxLength 0 []) as [res|] eqn:F;
      [|done].
    destruct (trim_head text Hne) as (c & u & Ecu & Hc & Hsp).
    assert ((len (trim text) >? 0) = true) as ->.
    { apply Z.gtb_lt. rewrite Ecu. unfold len. simpl length. lia. }
    rewrite andb_true_r.
    intros H. exists res. split; [done|]. split; [|split].
    + destruct (Z.lt_ge_cases maxLength 0) as [Hneg|Hpos].
      * rewrite Ecu in F. by rewrite fallbackLoop_negative in F.
      * revert F. apply (fallbackLoop_Forall _ (fun start => 0 <= start));
          [|lia|done].
        intros start Hs Hl.
        destruct (fallbackStep_bound (trim text) maxLength start Hpos Hs Hl)
          as (B1 & B2 & B3).
        split; [|lia]. intros _. split; [done|].
        rewrite fallbackStep_end. apply trim_clean.
    + destruct (length res =? 0)%nat; by injection H as <-.
    + intros Hm. rewrite Ecu in F.
      apply fallbackLoop_nonempty in F; [|done|done].
      destruct res; [done|]. by injection H as <-.
  - intros Hm. unfold splitTextIntoChunks.
    destruct (isEmpty text || (len (trim text) =? 0)); [by eexists|].
    destruct (len (trim text) <=? maxLength); [by eexists|].
    destruct (1 <? length (matchAll sentenceRegex (trim text)))%nat.
    + destruct (_ && _); by eexists.
    + destruct (fallbackLoop_terminates (trim text) maxLength Hm
                  (length text) 0 []) as [res ->]; [lia| |].
      * pose proof (trim_length text). unfold len. lia.
      * destruct (_ && _); by eexists.
Qed.

Lemma splitTextIntoChunks_chunks_witness :
  exists produced,
    fallbackLoop 10 (trim (js " ab cdef gh ")) 3 0 [] = Some produced
    /\ Forall (fun c => len c <= 3
                        /\ startsOrEndsWithWhiteSpace c = false) produced
    /\ [js "ab"; js "cde"; js "gh"]
       = (if allWhite (js " ab cdef gh ") then []
          else if (length produced =? 0)%nat then [trim (js " ab cdef gh ")]
          else produced)
    /\ (1 <= 3 -> [js "ab"; js "cde"; js "gh"] = produced).
Proof.
  apply (proj1 (proj2 (splitTextIntoChunks_chunks (js " ab cdef gh ") 3))).
  - reflexivity.
  - vm_compute. reflexivity.
  - reflexivity.
Defined.

(** The function on a text without [. ? !] that is longer than
    [maxLength]: the fallback loop, then the safety net. *)
Lemma splitTextIntoChunks_fallback fuel text maxLength :
  forallb notSentenceEnd text = true ->
  trim text <> [] -> maxLength < len (trim text) ->
  splitTextIntoChunks fuel text maxLength
  = match fallbackLoop fuel (trim text) maxLength 0 [] with
    | None => None
    | Some res => if (length res =? 0)%nat then Some [trim text] else Some res
    end.
Proof.
  intros Hp Hne Hlen. unfold splitTextIntoChunks.
  assert (isEmpty text = false) as ->.
  { destruct text; [|done]. by destruct Hne. }
  assert ((len (trim text) =? 0) = false) as ->.
  { apply Z.eqb_neq. by rewrite len_nil_iff. }
  assert ((len (trim text) <=? maxLength) = false) as -> by lia.
  cbn [orb].
  rewrite sentences_no_punctuation; [|done|by apply forallb_trim].
  cbn [length Nat.ltb Nat.leb].
  destruct (fallbackLoop fuel (trim text) maxLength 0 []) as [res|]; [|done].
  assert ((len (trim text) >? 0) = true) as ->.
  { apply Z.gtb_lt. rewrite <- len_nil_iff in Hne. unfold len in *. lia. }
  by rewrite andb_true_r.
Qed.

Lemma len_concat_snoc (chunks : list jsstring) c :
  len (concat (chunks ++ [c])) = len (concat chunks) + len c.
Proof.
  unfold len. rewrite concat_app, length_app. simpl.
  rewrite app_nil_r. lia.
Qed.

(** Every iteration moves the start index one past the end of its chunk:
    the chunks together stay shorter than the text. *)
Lemma fallbackLoop_shorter s m :
  0 <= m ->
  forall fuel start chunks res,
    0 <= start -> start <= len s + 1 ->
    len (concat chunks) + 1 <= start -> len (concat chunks) < len s ->
    fallbackLoop fuel s m start chunks = Some res ->
    len (concat res) < len s.
Proof.
  intros Hm fuel.
  induction fuel as [|fuel IH]; intros start chunks res H0 H1 H2 H3;
    cbn [fallbackLoop].
  - destruct (start <? len s); [done|]. by intros [= <-].
  - destruct (start <? len s) eqn:E; [|by intros [= <-]].
    apply Z.ltb_lt in E.
    destruct (fallbackStep_bound s m start Hm H0 E) as (B1 & B2 & B3).
    destruct (fallbackStep s m start) as [chunk next]. cbn [fst snd] in *.
    apply IH; try lia.
    + destruct (isEmpty chunk); [lia|]. rewrite len_concat_snoc. lia.
    + destruct (isEmpty chunk); [lia|]. rewrite len_concat_snoc. lia.
Qed.

Lemma fallbackLoop_first_shorter s m fuel res :
  0 <= m -> m < len s ->
  fallbackLoop fuel s m 0 [] = Some res -> len (concat res) < len s.
Proof.
  intros Hm Hlen. destruct fuel as [|fuel]; cbn [fallbackLoop].
  - by assert ((0 <? len s) = true) as -> by lia.
  - assert ((0 <? len s) = true) as -> by lia.
    assert (0 <= 0) as H0 by lia. assert (0 < len s) as Hl by lia.
    destruct (fallbackStep_bound s m 0 Hm H0 Hl) as (B1 & B2 & B3).
    pose proof (fallbackEnd_range s m 0 Hm H0 Hl) as [R1 R2].
    rewrite fallbackStep_end in *. cbn [fst snd] in *.
    apply (fallbackLoop_shorter s m Hm); try lia.
    + destruct (isEmpty _); [simpl; unfold len; simpl; lia|].
      rewrite len_concat_snoc. simpl. unfold len in *. simpl in *. lia.
    + destruct (isEmpty _); [simpl; unfold len in *; simpl; lia|].
      rewrite len_concat_snoc. simpl. unfold len in *. simpl in *. lia.
Qed.

(** C10, as amended: for a [maxLength] of at least 1 and a text without
    [. ? !] whose trimmed form is longer than [maxLength] and holds no
    space, every full window is cut at [startIndex + maxLength] and the
    next one starts one unit later, so the unit at the boundary is in no
    chunk; the function returns, and the chunks it returns are together
    strictly shorter than the trimmed text and do not rebuild it. *)
Theorem splitTextIntoChunks_drops_boundary (text : jsstring) (maxLength : Z) :
  1 <= maxLength ->
  forallb notSentenceEnd text = true ->
  includes (trim text) SPACE = false ->
  maxLength < len (trim text) ->
  (forall startIndex,
     0 <= startIndex -> startIndex + maxLength < len (trim text) ->
     fallbackStep (trim text) maxLength startIndex
     = (trim (substring (trim text) startIndex (startIndex + maxLength)),
        startIndex + maxLength + 1))
  /\ (exists chunks,
        splitTextIntoChunks (length text) text maxLength = Some chunks)
  /\ (forall fuel chunks,
        splitTextIntoChunks fuel text maxLength = Some chunks ->
        len (concat chunks) < len (trim text)
        /\ concat chunks <> trim text).
Proof.
  intros Hm Hp Hsp Hlen.
  assert (trim text <> []) as Hne.
  { intros H. apply len_nil_iff in H. lia. }
  split; [|split].
  - intros start Hs Hw. rewrite fallbackStep_end. unfold fallbackEnd.
    assert ((start + maxLength <? len (trim text)) = true) as -> by lia.
    rewrite lastIndexOf_absent by done.
    by assert ((-1 >? start) = false) as -> by lia.
  - rewrite splitTextIntoChunks_fallback by done.
    destruct (fallbackLoop_terminates (trim text) maxLength ltac:(lia)
                (length text) 0 []) as [res ->]; [lia| |].
    + pose proof (trim_length text). unfold len. lia.
    + destruct (length res =? 0)%nat; by eexists.
  - intros fuel chunks. rewrite splitTextIntoChunks_fallback by done.
    destruct (fallbackLoop fuel (trim text) maxLength 0 []) as [res|] eqn:F;
      [|done].
    assert (len (concat res) < len (trim text)) as Hshort.
    { eapply fallbackLoop_first_shorter; [| |exact F]; lia. }
    destruct (trim_head text Hne) as (c & u & Ecu & Hc & _).
    assert (res <> []) as Hres.
    { rewrite Ecu in F. eapply fallbackLoop_nonempty; [| |exact F]; done. }
    destruct res as [|r res]; [done|]. cbn [length Nat.eqb].
    intros [= <-]. split; [done|].
    intros E. rewrite E in Hshort. lia.
Qed.

Lemma splitTextIntoChunks_drops_boundary_witness :
  splitTextIntoChunks 6 (js "abcdef") 3 = Some [js "abc"; js "ef"]
  /\ len (concat [js "abc"; js "ef"]) < len (trim (js "abcdef"))
  /\ concat [js "abc"; js "ef"] <> trim (js "abcdef").
Proof.
  split; [reflexivity|].
  apply (proj2 (proj2 (splitTextIntoChunks_drops_boundary (js "abcdef") 3
           ltac:(lia) eq_refl eq_refl eq_refl)) 6%nat).
  reflexivity.
Defined.

(** C10 as stated fails for [maxLength = 0]: every window is empty, the
    loop cuts no chunk, and the safety net returns the whole trimmed text. *)
Lemma splitTextIntoChunks_drops_counterexample :
  ~ (forall (text : jsstring) (maxLength : Z) (fuel : nat) chunks,
       forallb notSentenceEnd text = true ->
       includes (trim text) SPACE = false ->
       maxLength < len (trim text) ->
       splitTextIntoChunks fuel text maxLength = Some chunks ->
       len (concat chunks) < len (trim text) /\ concat chunks <> trim text).
Proof.
  intros H.
  destruct (H (js "ab") 0 2%nat [js "ab"]) as [_ Hne];
    [reflexivity | reflexivity | reflexivity | reflexivity |].
  by apply Hne.
Qed.

End SplitterTheorems.

(** ** The sanitizer of the TTS client *)

Section SanitizeFacts.
Context `{UnicodeTables}.

(** The characters of a text as the [u] flag sees them: a surrogate pair
    is one character, any other code unit is one by itself. *)
Inductive character :=
| Single (c : N)
| Surrogates (hi lo : N).

Definition codePointOf (ch : character) : N :=
  match ch with Single c => c | Surrogates hi lo => codePoint hi lo end.

Definition unitsOf (ch : character) : jsstring :=
  match ch with Single c => [c] | Surrogates hi lo => [hi; lo] end.

Fixpoint characters (s : jsstring) : list character :=
  match s with
  | [] => []
  | c :: rest =>
      match rest with
      | d :: rest' =>
          if isHighSurrogate c && isLowSurrogate d
          then Surrogates c d :: characters rest'
          else Single c :: characters rest
      | [] => [Single c]
      end
  end.

(** The punctuation the specification lists: [. , ! ? :] and the
    ellipsis U+2026. *)
Definition punctuationSet : list N := [46; 44; 33; 63; 58; 0x2026]%N.

(** In the words of the specification, for a given reading of its
    digits: a letter, a digit, white space or one of the listed
    punctuation marks. *)
Definition keptAsStated (isDigit : N -> bool) (cp : N) : bool :=
  isLetter cp || isDigit cp || isWhiteSpace cp
  || bool_decide (cp ∈ punctuationSet).

(** In the words of the specification: a character outside the class
    becomes one space, any other character stays. *)
Definition spaceOut (isDigit : N -> bool) (ch : character) : jsstring :=
  if keptAsStated isDigit (codePointOf ch) then unitsOf ch else [SPACE].

(** In the words of the specification: every run of white space becomes
    one space.  [inRun] tells that the unit before was white space. *)
Fixpoint collapseFrom (inRun : bool) (s : jsstring) : jsstring :=
  match s with
  | [] => []
  | c :: s' =>
      if isWhiteSpace c then
        if inRun then collapseFrom true s' else SPACE :: collapseFrom true s'
      else c :: collapseFrom false s'
  end.

Definition collapseRuns (s : jsstring) : jsstring := collapseFrom false s.

Lemma two_step_ind (P : jsstring -> Prop) :
  P [] -> (forall c, P [c]) ->
  (forall c d s, P s -> P (d :: s) -> P (c :: d :: s)) ->
  forall s, P s.
Proof.
  intros H0 H1 H2 s.
  assert (P s /\ forall c, P (c :: s)) as [Hs _]; [|exact Hs].
  induction s as [|d s [IH1 IH2]]; [by split|].
  split; [apply IH2|]. intros c. by apply H2.
Qed.

Lemma characters_cons2 c d s :
  characters (c :: d :: s)
  = if isHighSurrogate c && isLowSurrogate d
    then Surrogates c d :: characters s
    else Single c :: characters (d :: s).
Proof. reflexivity. Qed.

Lemma replaceUnwanted_cons2 c d s :
  replaceUnwanted (c :: d :: s)
  = if isHighSurrogate c && isLowSurrogate d
    then (if isKept (codePoint c d) then [c; d] else [SPACE])
           ++ replaceUnwanted s
    else (if isKept c then c else SPACE) :: replaceUnwanted (d :: s).
Proof. reflexivity. Qed.

(** A pair is a high surrogate followed by a low one. *)
Definition properPair (ch : character) : Prop :=
  match ch with
  | Single _ => True
  | Surrogates hi lo => isHighSurrogate hi = true /\ isLowSurrogate lo = true
  end.

Lemma characters_pairs s : Forall properPair (characters s).
Proof.
  induction s as [| c | c d s IH1 IH2] using two_step_ind;
    [constructor|by repeat constructor|].
  rewrite characters_cons2.
  destruct (isHighSurrogate c && isLowSurrogate d) eqn:E.
  - apply andb_prop in E. by constructor.
  - by constructor.
Qed.

Lemma characters_units s : flat_map unitsOf (characters s) = s.
Proof.
  induction s as [| c | c d s IH1 IH2] using two_step_ind; [done|done|].
  rewrite characters_cons2. destruct (isHighSurrogate c && isLowSurrogate d).
  - cbn [flat_map unitsOf app]. by rewrite IH1.
  - cbn [flat_map unitsOf app]. by rewrite IH2.
Qed.

(** The class of the pattern is the class of the specification, read
    with the numbers of [\p{N}] for its digits. *)
Lemma isKept_asStated cp : isKept cp = keptAsStated isNumber cp.
Proof.
  unfold isKept, keptAsStated, punctuationSet. f_equal.
  destruct (bool_decide_reflect (cp ∈ [46; 44; 33; 63; 58; 8230]%N))
    as [Hin|Hout].
  - repeat (apply elem_of_cons in Hin as [->|Hin]; [done|]).
    by apply elem_of_nil in Hin.
  - repeat (apply not_elem_of_cons in Hout as [Hne%N.eqb_neq Hout];
            rewrite Hne; clear Hne).
    done.
Qed.

Lemma spaceOut_isKept ch :
  spaceOut isNumber ch
  = if isKept (codePointOf ch) then unitsOf ch else [SPACE].
Proof. unfold spaceOut. by rewrite isKept_asStated. Qed.

Lemma replaceUnwanted_characters s :
  replaceUnwanted s = flat_map (spaceOut isNumber) (characters s).
Proof.
  induction s as [| c | c d s IH1 IH2] using two_step_ind.
  - done.
  - cbn [characters flat_map replaceUnwanted]. rewrite spaceOut_isKept.
    cbn [codePointOf unitsOf]. by destruct (isKept c).
  - rewrite replaceUnwanted_cons2, characters_cons2.
    destruct (isHighSurrogate c && isLowSurrogate d).
    + cbn [flat_map]. by rewrite IH1, (spaceOut_isKept (Surrogates c d)).
    + cbn [flat_map]. rewrite IH2, (spaceOut_isKept (Single c)).
      cbn [codePointOf unitsOf]. by destruct (isKept c).
Qed.

Definition notWhite (c : N) : bool := negb (isWhiteSpace c).

Lemma star_white_done b a :
  exists run, star isWhiteSpace done b a = Some (rev run ++ b, trimStart a).
Proof.
  revert b. induction a as [|c a IH]; intros b; [by exists []|].
  simpl. destruct (isWhiteSpace c); [|by exists []].
  destruct (IH (c :: b)) as [run ->]. exists (c :: run).
  simpl. by rewrite <- app_assoc.
Qed.

Lemma search_white_none b a :
  forallb notWhite a = true -> search (Plus isWhiteSpace) b a = None.
Proof.
  revert b. induction a as [|c a IH]; intros b Ha; [done|].
  simpl in Ha. apply andb_prop in Ha as [Hc Ha].
  apply negb_true_iff in Hc. cbn [search]. unfold matchAt. cbn [rmatch].
  rewrite Hc. by apply IH.
Qed.

Lemma search_white_some b ns w rest :
  forallb notWhite ns = true -> isWhiteSpace w = true ->
  exists run,
    search (Plus isWhiteSpace) b (ns ++ w :: rest)
    = Some (rev ns ++ b, (rev run ++ w :: rev ns ++ b, trimStart rest)).
Proof.
  revert b. induction ns as [|c ns IH]; intros b Hns Hw.
  - cbn [app search rev]. unfold matchAt. cbn [rmatch]. rewrite Hw.
    destruct (star_white_done (w :: b) rest) as [run ->]. by exists run.
  - simpl in Hns. apply andb_prop in Hns as [Hc Hns].
    apply negb_true_iff in Hc. cbn [app search]. unfold matchAt.
    cbn [rmatch]. rewrite Hc.
    destruct (IH (c :: b) Hns Hw) as [run ->]. exists run.
    simpl. by rewrite <- !app_assoc.
Qed.

Lemma white_split a :
  forallb notWhite a = true
  \/ exists ns w rest, a = ns ++ w :: rest
       /\ forallb notWhite ns = true /\ isWhiteSpace w = true.
Proof.
  induction a as [|c a IH]; [by left|].
  destruct (isWhiteSpace c) eqn:Hc.
  - right. by exists [], c, a.
  - destruct IH as [IH|(ns & w & rest & -> & Hns & Hw)].
    + left. simpl. unfold notWhite at 1. by rewrite Hc.
    + right. exists (c :: ns), w, rest. repeat split; [|done].
      simpl. unfold notWhite at 1. by rewrite Hc.
Qed.

Lemma collapseFrom_notWhite inRun ns t :
  forallb notWhite ns = true ->
  collapseFrom inRun (ns ++ t)
  = match ns with [] => collapseFrom inRun t | _ => ns ++ collapseFrom false t end.
Proof.
  revert inRun. induction ns as [|c ns IH]; intros inRun Hns; [done|].
  simpl in Hns. apply andb_prop in Hns as [Hc Hns].
  apply negb_true_iff in Hc. simpl. rewrite Hc. rewrite IH by done.
  by destruct ns.
Qed.

Lemma collapseFrom_run s : collapseFrom true s = collapseFrom false (trimStart s).
Proof.
  induction s as [|c s IH]; [done|]. simpl.
  destruct (isWhiteSpace c) eqn:Hc; [done|]. simpl. by rewrite Hc.
Qed.

Lemma matched_skipped (b ns : jsstring) : matched b (rev ns ++ b) = ns.
Proof.
  unfold matched. rewrite length_app, length_rev.
  replace (length ns + length b - length b)%nat with (length (rev ns))
    by (rewrite length_rev; lia).
  by rewrite take_app_length, rev_involutive.
Qed.

Lemma replaceAll_white fuel b a :
  (length a < fuel)%nat ->
  replaceAllFrom fuel (Plus isWhiteSpace) (fun _ => [SPACE]) b a
  = collapseRuns a.
Proof.
  unfold collapseRuns. revert b a.
  induction fuel as [|fuel IH]; intros b a Hf; [lia|].
  cbn [replaceAllFrom].
  destruct (white_split a) as [Ha|(ns & w & rest & -> & Hns & Hw)].
  - rewrite search_white_none by done.
    rewrite <- (app_nil_r a) at 2. rewrite collapseFrom_notWhite by done.
    destruct a; [done|]. by rewrite app_nil_r.
  - destruct (search_white_some b ns w rest Hns Hw) as [run ->].
    rewrite matched_skipped.
    assert ((length (rev run ++ w :: rev ns ++ b) =? length (rev ns ++ b))%nat
            = false) as ->.
    { apply Nat.eqb_neq. rewrite !length_app. simpl. rewrite length_app. lia. }
    rewrite IH.
    + rewrite collapseFrom_notWhite by done.
      cbn [collapseFrom]. rewrite Hw, collapseFrom_run. by destruct ns.
    + pose proof (trimStart_length rest). rewrite length_app in Hf.
      simpl in Hf. lia.
Qed.

End SanitizeFacts.

(** C7, as amended: seen as characters (a surrogate pair is one
    character), the text keeps every character that is a letter, a number
    of [\p{N}], white space or one of [. , ! ? : ...], and has one space
    for every other character; then every run of white space becomes one
    space and the result is trimmed; when nothing is left,
    [fetchSpeechFromLocalServer] rejects with a [TtsError] and issues no
    request. *)
Theorem sanitize_then_reject_empty `{UnicodeTables} (text : jsstring) :
  flat_map unitsOf (characters text) = text
  /\ Forall properPair (characters text)
  /\ replaceUnwanted text
     = flat_map (fun ch =>
                   if isLetter (codePointOf ch) || isNumber (codePointOf ch)
                      || isWhiteSpace (codePointOf ch)
                      || bool_decide (codePointOf ch ∈ punctuationSet)
                   then unitsOf ch else [SPACE])
                (characters text)
  /\ sanitize text = trim (collapseRuns (replaceUnwanted text))
  /\ (sanitize text = [] ->
      forall serverUrl net, exists message,
        fetchSpeechFromLocalServer serverUrl net text
        = ([], SpeechRejected (TtsError message))).
Proof.
  split; [apply characters_units|]. split; [apply characters_pairs|].
  split; [apply replaceUnwanted_characters|]. split.
  - unfold sanitize, replaceAll, replaceAllWith.
    rewrite replaceAll_white; [done|lia].
  - intros He serverUrl net. unfold fetchSpeechFromLocalServer.
    destruct (isEmpty text || (len (trim text) =? 0)); [by eexists|].
    destruct (isEmpty serverUrl); [by eexists|].
    rewrite He. by eexists.
Qed.

(** A text with letters, numbers and punctuation of the list, and with
    characters outside the class, one of them a surrogate pair (U+1F600):
    [Caf\u00E9 \uD83D\uDE00(n\u00B01): \u00BD #2!]. *)
Definition mixedText : jsstring :=
  js "Caf" ++ [233%N] ++ js " " ++ [0xD83D%N; 0xDE00%N] ++ js "(n"
  ++ [176%N] ++ js "1): " ++ [189%N] ++ js " #2!".

Lemma sanitize_then_reject_empty_witness :
  @replaceUnwanted latin1Tables mixedText
  = js "Caf" ++ [233%N] ++ js "   n 1 : " ++ [189%N] ++ js "  2!"
  /\ @sanitize latin1Tables mixedText
     = js "Caf" ++ [233%N] ++ js " n 1 : " ++ [189%N] ++ js " 2!"
  /\ exists message,
       @fetchSpeechFromLocalServer latin1Tables (js "https://localhost:3000")
         (fun _ => ResponseOk []) (js "(*) -- #")
       = ([], SpeechRejected (TtsError message)).
Proof.
  destruct (@sanitize_then_reject_empty latin1Tables mixedText)
    as (_ & _ & Hreplace & Hsanitize & _).
  split; [rewrite Hreplace; vm_compute; reflexivity|].
  split; [rewrite Hsanitize, Hreplace; vm_compute; reflexivity|].
  apply (proj2 (proj2 (proj2 (proj2 (@sanitize_then_reject_empty latin1Tables
                                       (js "(*) -- #")))))).
  vm_compute. reflexivity.
Defined.

(** C7 as stated fails: the fraction one half (U+00BD) is a number of
    [\p{N}] and no digit; the pattern keeps it, where the claim has a
    space for it. *)
Lemma sanitize_digits_counterexample :
  ~ (forall text,
       @replaceUnwanted latin1Tables text
       = flat_map (@spaceOut latin1Tables latin1Digit)
                  (characters text)).
Proof.
  intros Hc. specialize (Hc [189%N]). vm_compute in Hc. discriminate Hc.
Qed.

(** ** The prefix cleanup of the book settings *)

Section PatternFacts.
Context `{UnicodeTables}.




Lemma first_hit (p : N -> bool) a :
  forallb (fun c => negb (p c)) a = true
  \/ exists ns w rest, a = ns ++ w :: rest
       /\ forallb (fun c => negb (p c)) ns = true /\ p w = true.
Proof.
  induction a as [|c a IH]; [by left|].
  destruct (p c) eqn:Hc.
  - right. by exists [], c, a.
  - destruct IH as [IH|(ns & w & rest & -> & Hns & Hw)].
    + left. simpl. by rewrite Hc.
    + right. exists (c :: ns), w, rest. repeat split; [|done].
      simpl. by rewrite Hc.
Qed.


























End PatternFacts.

Section PrefixCleanup.
Context `{UnicodeTables}.

Lemma substringFrom_drop s a :
  0 <= a <= len s -> substringFrom s a = drop (Z.to_nat a) s.
Proof.
  intros Ha. unfold substringFrom, substring, clampIndex.
  replace (Z.min (Z.max 0 (Z.min a (len s))) (Z.max 0 (Z.min (len s) (len s))))
    with a by lia.
  replace (Z.max (Z.max 0 (Z.min a (len s))) (Z.max 0 (Z.min (len s) (len s))))
    with (len s) by lia.
  apply take_ge. rewrite length_drop. unfold len. lia.
Qed.

Lemma search_hit r b a e :
  matchAt r b a = Some e -> search r b a = Some (b, e).
Proof. destruct a; simpl; by intros ->. Qed.






End PrefixCleanup.


(** ** The book store: a failed write *)

Section BookStoreFacts.
Import BookStore.

(** The four mutating operations of the store. *)
Inductive mutation :=
| Add (newBook : Book)
| Delete (bookId : jsstring)
| Update (updatedBook : Book)
| UpdatePosition (bookId : jsstring) (lastPosition' : Position).

Definition run (io : storage) (m : mutation) (st : state) : state :=
  match m with
  | Add newBook => addBook io newBook st
  | Delete bookId => deleteBook io bookId st
  | Update updatedBook => updateBook io updatedBook st
  | UpdatePosition bookId p => updateBookPosition io bookId p st
  end.

(** The write an operation awaits. *)
Definition durableWrite (io : storage) (m : mutation) (t : gmap key Book)
  : option (gmap key Book) :=
  match m with
  | Add newBook => writeAdd io t newBook
  | Delete bookId => writeDelete io t bookId
  | Update updatedBook => writePut io t updatedBook
  | UpdatePosition bookId p => writePosition io t bookId p
  end.

(** The change an operation makes to the list in memory. *)
Definition inMemory (m : mutation) : list Book -> list Book :=
  match m with
  | Add newBook => appended newBook
  | Delete bookId => removed bookId
  | Update updatedBook => replaced updatedBook
  | UpdatePosition bookId p => repositioned bookId p
  end.

Lemma run_attempt io m st :
  exists text,
    run io m st = attempt (durableWrite io m (table st)) (inMemory m) text st.
Proof. destruct m; by eexists. Qed.

(** C2, as amended: when the durable write of an operation fails, the
    list in memory and the table are left as they were and the failure is
    logged; the list in memory is changed only after the write went
    through. *)
Theorem store_update_follows_write (io : storage) (m : mutation) (st : state) :
  (durableWrite io m (table st) = None ->
     books (run io m st) = books st
     /\ table (run io m st) = table st
     /\ exists text, logged (run io m st) = logged st ++ [text])
  /\ (forall t', durableWrite io m (table st) = Some t' ->
        books (run io m st) = inMemory m (books st)
        /\ table (run io m st) = t'
        /\ logged (run io m st) = logged st).
Proof.
  destruct (run_attempt io m st) as [text ->]. split.
  - intros ->. simpl. repeat split. by exists text.
  - intros t' ->. by simpl.
Qed.

Definition sampleBook : Book :=
  {| id := js "b1"; title := js "A book"; author := None; coverImage := None;
     chapters := [{| chapterId := js "c1"; chapterTitle := js "Full Text";
                     content := js "Once upon a time" |}];
     lastPosition := None |}.

Definition emptyStore : state :=
  {| books := []; table := ∅; logged := [] |}.

Lemma store_update_follows_write_witness :
  books (run Faulty (Add sampleBook) emptyStore) = books emptyStore
  /\ table (run Faulty (Add sampleBook) emptyStore) = table emptyStore
  /\ exists text,
       logged (run Faulty (Add sampleBook) emptyStore)
       = logged emptyStore ++ [text].
Proof.
  apply (proj1 (store_update_follows_write Faulty (Add sampleBook) emptyStore)).
  reflexivity.
Defined.

(** C2 as stated fails: with the storage refusing the write, [addBook]
    leaves the list in memory empty instead of appending the book. *)
Lemma store_optimistic_counterexample :
  ~ (forall io m st,
       durableWrite io m (table st) = None ->
       books (run io m st) = inMemory m (books st)).
Proof.
  intros H. specialize (H Faulty (Add sampleBook) emptyStore eq_refl).
  discriminate H.
Qed.

(** The same happens without any fault of the storage: adding a book
    whose [id] is already stored is rejected by the table. *)
Lemma addBook_duplicate_id :
  let st := run Healthy (Add sampleBook) emptyStore in
  durableWrite Healthy (Add sampleBook) (table st) = None
  /\ books (run Healthy (Add sampleBook) st) = [sampleBook].
Proof. split; reflexivity. Qed.

End BookStoreFacts.

(** ** Restoring a backup *)

#[local] Set Warnings "-clear-no-such-hyp".

Section RestoreFacts.
Import RestoreFlows.

Lemma add_Some {V} (keyOf : V -> option key) io t v t' :
  add keyOf io t v = Some t' ->
  io = Healthy /\ exists k, keyOf v = Some k /\ t !! k = None /\ t' = <[k:=v]> t.
Proof.
  unfold add. destruct io; [|done].
  destruct (keyOf v) as [k|]; [|done].
  destruct (t !! k) eqn:E; [done|]. intros [= <-]. eauto.
Qed.

(** The table after a [bulkAdd] that went through. *)
Lemma bulkAdd_Some {V} (keyOf : V -> option key) io vs :
  forall t t',
    bulkAdd keyOf io t vs = Some t' ->
    io = Healthy
    /\ t ⊆ t'
    /\ dom t' = dom t ∪ list_to_set (omap keyOf vs)
    /\ Forall (fun v => exists k, keyOf v = Some k /\ t' !! k = Some v) vs.
Proof.
  induction vs as [|v vs IH]; intros t t'; cbn [bulkAdd].
  - destruct io; [|done]. intros [= <-]. repeat split; [done|set_solver|done].
  - destruct (add keyOf io t v) as [t1|] eqn:E; [|done].
    apply add_Some in E as (Hio & k & Hk & Hfree & ->).
    intros Hb. destruct (IH _ _ Hb) as (_ & Hsub & Hdom & Hall).
    split; [done|]. split; [|split].
    + etrans; [|exact Hsub]. by apply insert_subseteq.
    + rewrite Hdom, dom_insert_L. cbn [omap list_omap]. rewrite Hk.
      set_solver.
    + constructor; [|done]. exists k. split; [done|].
      eapply lookup_weaken; [|exact Hsub]. apply lookup_insert_eq.
Qed.

(** The table holds the records of [items], each under its own key, and
    nothing else. *)
Definition holdsExactly (items : list json) (t : gmap key json) : Prop :=
  dom t = list_to_set (omap recordKey items)
  /\ Forall (fun v => exists k, recordKey v = Some k /\ t !! k = Some v) items.

Lemma replaceBooks_array bulkAddUntyped io items t t' :
  replaceBooks bulkAddUntyped io (JArray items) t = Some t' ->
  holdsExactly items t'.
Proof.
  unfold replaceBooks, transaction, clear. destruct io; [|done].
  intros Hb. apply bulkAdd_Some in Hb as (_ & _ & Hdom & Hall).
  split; [|done]. rewrite Hdom. set_solver.
Qed.

Lemma restoreWith_success accepts bulkAddUntyped io ls fetched st :
  error (restoreWith bulkAddUntyped accepts io ls fetched st) = None ->
  exists data books settings t',
    fetched = Resolves data
    /\ property data (js "books") = Some books
    /\ property data (js "settings") = Some settings
    /\ accepts books settings = true
    /\ replaceBooks bulkAddUntyped io books (table st) = Some t'
    /\ after (restoreWith bulkAddUntyped accepts io ls fetched st)
       = {| table := t';
            settingsItem := saveSettings ls settings (settingsItem st) |}.
Proof.
  unfold restoreWith.
  destruct fetched as [m|data]; [done|].
  destruct (property data (js "books")) as [books|] eqn:Hb; [|done].
  destruct (property data (js "settings")) as [settings|] eqn:Hs; [|done].
  destruct (accepts books settings) eqn:Ha; [|done].
  unfold replaceAll.
  destruct (replaceBooks bulkAddUntyped io books (table st)) as [t'|] eqn:Hr;
    [|done].
  intros _. by exists data, books, settings, t'.
Qed.

(** C3: when a restore of either flow ends in success on a payload whose
    [books] is a list, the table holds the records of that list, each
    under its [id], and no other key: the persisted ids are the ids of the
    payload and no book of the collection before is left.  In the Settings
    view a restore that ends in success always had such a list. *)
Theorem restore_replaces_collection
    (restoreBackup : jsstring -> jsstring -> fetchResult)
    (bulkAddUntyped : json -> gmap key json -> option (gmap key json))
    (io ls : storage) (backupId : jsstring) (st : persisted) :
  (forall ttsServerUrl,
     error (settingsPage_handleRestore restoreBackup bulkAddUntyped io ls
              ttsServerUrl backupId st) = None ->
     exists data items,
       restoreBackup ttsServerUrl backupId = Resolves data
       /\ property data (js "books") = Some (JArray items)
       /\ holdsExactly items
            (table (after (settingsPage_handleRestore restoreBackup
                             bulkAddUntyped io ls ttsServerUrl backupId st))))
  /\ (forall data items,
        restoreBackup (getServerUrl (settingsItem st)) backupId = Resolves data ->
        property data (js "books") = Some (JArray items) ->
        error (userSwitcher_handleRestore restoreBackup bulkAddUntyped io ls
                 backupId st) = None ->
        holdsExactly items
          (table (after (userSwitcher_handleRestore restoreBackup
                           bulkAddUntyped io ls backupId st))))
  /\ (forall items t k,
        holdsExactly items t ->
        k ∈ dom (table st) -> k ∉ omap recordKey items -> t !! k = None).
Proof.
  split; [|split].
  - intros url Hok. unfold settingsPage_handleRestore in *.
    apply restoreWith_success in Hok
      as (data & books & settings & t' & Hf & Hb & Hs & Ha & Hr & ->).
    unfold settingsPageAccepts in Ha. apply andb_prop in Ha as [Ha _].
    destruct books; try done. exists data, items.
    split; [done|]. split; [done|].
    by apply (replaceBooks_array bulkAddUntyped io _ (table st)).
  - intros data items Hf Hb Hok. unfold userSwitcher_handleRestore in *.
    apply restoreWith_success in Hok
      as (data' & books & settings & t' & Hf' & Hb' & Hs & Ha & Hr & ->).
    rewrite Hf in Hf'. injection Hf' as <-. rewrite Hb in Hb'.
    injection Hb' as <-.
    by apply (replaceBooks_array bulkAddUntyped io _ (table st)).
  - intros items t k [Hdom _] _ Hk. apply not_elem_of_dom. rewrite Hdom.
    by rewrite elem_of_list_to_set.
Qed.

Definition bookRecord (bookId : string) (bookTitle : string) : json :=
  JObject [(js "id", JString (js bookId)); (js "title", JString (js bookTitle));
           (js "chapters", JArray [])].

Definition samplePayload : json :=
  JObject [(js "books", JArray [bookRecord "b2" "Second"; bookRecord "b3" "Third"]);
           (js "settings", JObject [(js "ttsServerUrl", JString (js "https://tts"));
                                    (js "username", JString (js "ann"))])].

Definition samplePersisted : persisted :=
  {| table := {[ KString (js "b1") := bookRecord "b1" "First" ]};
     settingsItem := None |}.

Lemma restore_replaces_collection_witness :
  holdsExactly [bookRecord "b2" "Second"; bookRecord "b3" "Third"]
    (table (after (userSwitcher_handleRestore (fun _ _ => Resolves samplePayload)
                     (fun _ _ => None) Healthy Healthy (js "backup-1")
                     samplePersisted))).
Proof.
  apply (proj1 (proj2 (restore_replaces_collection
                         (fun _ _ => Resolves samplePayload) (fun _ _ => None)
                         Healthy Healthy (js "backup-1") samplePersisted))
           samplePayload).
  - reflexivity.
  - reflexivity.
  - reflexivity.
Defined.

(** The test of the Settings view is the stricter one. *)
Lemma settingsPageAccepts_userSwitcherAccepts books settings :
  settingsPageAccepts books settings = true ->
  userSwitcherAccepts books settings = true.
Proof.
  unfold settingsPageAccepts, userSwitcherAccepts.
  by destruct books, settings.
Qed.

(** A payload with a [books] list whose [settings] is a text. *)
Definition textSettingsPayload : json :=
  JObject [(js "books", JArray []); (js "settings", JString (js "x"))].

(** C4 fails on the code: the profile switcher tests truthiness only.  On
    a payload whose [settings] is a text the Settings view stops with the
    format error and leaves everything as it was, while the profile
    switcher goes on, empties the table and stores the text as the
    settings. *)
Theorem restore_validation_differs
    (bulkAddUntyped : json -> gmap key json -> option (gmap key json))
    (ttsServerUrl backupId : jsstring) :
  let restoreBackup := fun _ _ : jsstring => Resolves textSettingsPayload in
  settingsPage_handleRestore restoreBackup bulkAddUntyped Healthy Healthy
    ttsServerUrl backupId samplePersisted
  = {| after := samplePersisted; error := Some InvalidFormat;
       reloadScheduled := false |}
  /\ userSwitcher_handleRestore restoreBackup bulkAddUntyped Healthy Healthy
       backupId samplePersisted
     = {| after := {| table := ∅; settingsItem := Some (JString (js "x")) |};
          error := None; reloadScheduled := true |}.
Proof. split; reflexivity. Qed.

End RestoreFacts.

(** ** The import parser *)

Section ParserFacts.
Context `{UnicodeTables}.
Variable generateId : nat -> jsstring.

(** The title the EPUB path works with. *)
Definition epubTitle (file : File) (c : Container) : jsstring :=
  orText (metadataTitle c) (withoutExtension (name file)).

Lemma length_zero_iff {A} (l : list A) : (length l =? 0)%nat = true <-> l = [].
Proof. destruct l; simpl; split; done. Qed.

Lemma length_pos_iff {A} (l : list A) : (0 <? length l)%nat = true <-> l <> [].
Proof. destruct l; simpl; split; done. Qed.

Lemma parseEpub_loaded file c :
  epub file = EpubLoaded c ->
  parseEpub generateId file
  = if (0 <? length (spineItems c))%nat
       && (length (epubChapters generateId (epubTitle file c) (spineItems c))
           =? 0)%nat
    then Rejected NoContent
    else Resolved
           {| id := generateId (length (spineItems c));
              title := epubTitle file c; author := metadataCreator c;
              coverImage := cover c;
              chapters := epubChapters generateId (epubTitle file c)
                            (spineItems c);
              lastPosition := None |}.
Proof. intros E. unfold parseEpub. by rewrite E. Qed.

(** Where the chapters of an EPUB come from. *)
Lemma epubChapters_origin bookTitle items ch :
  ch ∈ epubChapters generateId bookTitle items ->
  content ch <> []
  /\ exists index item raw,
       items !! index = Some item
       /\ chapterPromise generateId index item = Some raw
       /\ content raw <> []
       /\ ch = epubChapter bookTitle
                 (repeatingHeaderOf (epubRawChapters generateId items)) raw.
Proof.
  unfold epubChapters. intros Hin.
  apply list_elem_of_In, filter_In in Hin as [Hin Hne].
  apply in_map_iff in Hin as (raw & <- & Hraw).
  split; [by destruct (content _)|].
  apply list_elem_of_In in Hraw. unfold epubRawChapters in Hraw.
  apply list_elem_of_omap in Hraw as (result & Hres & Hsome).
  apply elem_of_lookup_imap in Hres as (index & item & -> & Hitem).
  destruct (chapterPromise generateId index item) as [value|] eqn:Hp; [|done].
  destruct (isEmpty (content value)) eqn:He; [done|].
  injection Hsome as ->. exists index, item, raw.
  repeat split; try done. by destruct (content raw).
Qed.

(** C8: an EPUB import is rejected with the no-content error exactly when
    the container was loaded, its spine has an item and no chapter is left
    after the cleanup.  In every other case of a loaded container the
    import resolves, with the chapters left after the cleanup; each of
    them has a non-empty content and comes from a spine item whose load
    was fulfilled with a non-empty text, so the items that failed or were
    empty are dropped. *)
Theorem parseEpub_no_content (file : File) :
  (parseEpub generateId file = Rejected NoContent
   <-> exists c,
         epub file = EpubLoaded c
         /\ spineItems c <> []
         /\ epubChapters generateId (epubTitle file c) (spineItems c) = [])
  /\ (forall c,
        epub file = EpubLoaded c ->
        ~ (spineItems c <> []
           /\ epubChapters generateId (epubTitle file c) (spineItems c) = []) ->
        exists book,
          parseEpub generateId file = Resolved book
          /\ chapters book
             = epubChapters generateId (epubTitle file c) (spineItems c))
  /\ (forall c ch,
        ch ∈ epubChapters generateId (epubTitle file c) (spineItems c) ->
        content ch <> []
        /\ exists index item raw,
             spineItems c !! index = Some item
             /\ chapterPromise generateId index item = Some raw
             /\ content raw <> []
             /\ ch = epubChapter (epubTitle file c)
                       (repeatingHeaderOf
                          (epubRawChapters generateId (spineItems c))) raw).
Proof.
  split; [|split].
  - split.
    + destruct (epub file) as [| | |c] eqn:E;
        try (unfold parseEpub; rewrite E; discriminate).
      rewrite (parseEpub_loaded file c E).
      destruct (_ && _) eqn:F; [|discriminate].
      intros _. apply andb_prop in F as [F1 F2].
      exists c. split; [done|].
      split; [by apply length_pos_iff | by apply length_zero_iff].
    + intros (c & E & Hs & Hc). rewrite (parseEpub_loaded file c E).
      apply length_pos_iff in Hs. rewrite Hs, Hc. done.
  - intros c E Hn. rewrite (parseEpub_loaded file c E).
    destruct (_ && _) eqn:F.
    + apply andb_prop in F as [F1 F2]. destruct Hn.
      split; [by apply length_pos_iff | by apply length_zero_iff].
    + by eexists.
  - intros c ch. apply epubChapters_origin.
Qed.

End ParserFacts.

Definition brokenItem : SpineItem :=
  {| itemId := Some (js "i1"); tocLabel := None; loaded := LoadRejects |}.

Definition blankItem : SpineItem :=
  {| itemId := Some (js "i2"); tocLabel := Some (js "Two");
     loaded := LoadString (js "   ") |}.

Definition goodItem : SpineItem :=
  {| itemId := Some (js "i3"); tocLabel := Some (js "Three");
     loaded := LoadString (js "Some text") |}.

Definition epubFile (items : list SpineItem) : File :=
  {| name := js "book.epub"; text := None;
     epub := EpubLoaded {| metadataTitle := Some (js "Book");
                           metadataCreator := None;
                           spineItems := items; cover := None |} |}.

Lemma parseEpub_no_content_witness :
  exists book,
    parseEpub (H := asciiTables) (fun _ => js "id")
      (epubFile [brokenItem; blankItem; goodItem]) = Resolved book
    /\ List.map content (chapters book) = [js "Some text"].
Proof.
  destruct (proj1 (proj2 (parseEpub_no_content (H := asciiTables)
                            (fun _ => js "id")
                            (epubFile [brokenItem; blankItem; goodItem])))
              _ eq_refl) as (book & Hb & Hc).
  - intros [_ Hnone]. discriminate Hnone.
  - exists book. split; [exact Hb|]. rewrite Hc. reflexivity.
Defined.

Section ImportFacts.
Context `{UnicodeTables}.
Variable generateId : nat -> jsstring.

Lemma shiftIf_Forall (P : jsstring -> Prop) test lines :
  Forall P lines -> Forall P (shiftIf test lines).
Proof.
  intros Hl. destruct lines as [|l rest]; [done|]. simpl.
  destruct (test l); [by inversion Hl|done].
Qed.

Lemma contentLines_nonempty content :
  Forall (fun l => l <> []) (contentLines content).
Proof.
  apply Forall_forall. intros l Hl. apply list_elem_of_In in Hl.
  unfold contentLines in Hl.
  apply filter_In in Hl as [_ Hl]. by destruct l.
Qed.

Lemma joinWith_nonempty sep l lines : l <> [] -> joinWith sep (l :: lines) <> [].
Proof. intros Hl. destruct lines; simpl; [done|]. by destruct l. Qed.

Lemma txtChapter_content bookTitle header index chapter ch :
  txtChapter bookTitle header index chapter = Some ch -> content ch <> [].
Proof.
  unfold txtChapter.
  set (lines := shiftIf _ (removeHeader header (contentLines (content chapter)))).
  assert (Forall (fun l => l <> []) lines) as Hall.
  { apply shiftIf_Forall. unfold removeHeader.
    destruct header; [apply shiftIf_Forall|]; apply contentLines_nonempty. }
  destruct lines as [|l rest]; [done|]. simpl. intros [= <-]. simpl.
  apply joinWith_nonempty. by inversion Hall.
Qed.

End ImportFacts.

Definition newline : string := String (ascii_of_nat 10) EmptyString.

Definition txtFile (fileName fileText : string) : File :=
  {| name := js fileName; text := Some (js fileText); epub := BufferEmpty |}.

(** Two chapter headings and nothing else. *)
Definition headingsOnly : File :=
  txtFile "book.txt" ("Chapter 1" ++ newline ++ "Chapter 2" ++ newline).

(** No part of it keeps content, and [parseTxt], which does not look at
    what is left, resolves to a book without chapters. *)
Lemma parseFile_headingsOnly :
  parseFile (H := asciiTables) (fun _ => js "id") headingsOnly
  = Resolved {| id := js "id"; title := js "book"; author := None;
                coverImage := None; chapters := []; lastPosition := None |}.
Proof. vm_compute. reflexivity. Qed.

(** An EPUB with an empty spine: the rejection asks for a spine with an
    item, so the import resolves, to a book without chapters. *)
Lemma parseFile_empty_spine :
  parseFile (H := asciiTables) (fun _ => js "id") (epubFile [])
  = Resolved {| id := js "id"; title := js "Book"; author := None;
                coverImage := None; chapters := []; lastPosition := None |}.
Proof. vm_compute. reflexivity. Qed.

(** ** The matcher: a match is a piece of the input *)

Section MatcherFacts.

Lemma orElse_Some {A} (x y : option A) res :
  orElse x y = Some res -> x = Some res \/ y = Some res.
Proof. destruct x; simpl; auto. Qed.

Lemma star_splits p k b a res :
  star p k b a = Some res ->
  exists m a', a = m ++ a' /\ forallb p m = true
               /\ k (rev m ++ b) a' = Some res.
Proof.
  revert b. induction a as [|c a IH]; intros b; simpl.
  - intros Hk. by exists [], [].
  - destruct (p c) eqn:Hc.
    + intros [Hs|Hk]%orElse_Some.
      * destruct (IH _ Hs) as (m & a' & -> & Hm & Hk).
        exists (c :: m), a'. simpl. rewrite Hc, Hm, <- app_assoc. done.
      * by exists [], (c :: a).
    + intros Hk. by exists [], (c :: a).
Qed.

(** Whatever the expression, the continuation is entered at a position
    further on in the same input. *)
Lemma rmatch_splits r :
  forall b a k res,
    rmatch r b a k = Some res ->
    exists m a', a = m ++ a' /\ k (rev m ++ b) a' = Some res.
Proof.
  induction r as [|p|r1 IH1 r2 IH2|r1 IH1 r2 IH2|r IH|p|p|ml|ml|r IH];
    intros b a k res; cbn [rmatch].
  - intros Hk. by exists [], a.
  - destruct a as [|c a]; [done|]. destruct (p c); [|done].
    intros Hk. by exists [c], a.
  - intros H1. destruct (IH1 _ _ _ _ H1) as (m1 & a1 & -> & H2).
    destruct (IH2 _ _ _ _ H2) as (m2 & a2 & -> & Hk).
    exists (m1 ++ m2), a2. split; [by rewrite app_assoc|].
    by rewrite rev_app_distr, <- app_assoc.
  - intros [H|H]%orElse_Some; [by apply IH1 | by apply IH2].
  - intros [H|H]%orElse_Some.
    + destruct (IH _ _ _ _ H) as (m & a' & -> & Hk).
      destruct (_ =? _)%nat; [done|]. by exists m, a'.
    + by exists [], a.
  - intros H. destruct (star_splits _ _ _ _ _ H) as (m & a' & ? & _ & ?).
    by exists m, a'.
  - destruct a as [|c a]; [done|]. destruct (p c); [|done].
    intros H. destruct (star_splits _ _ _ _ _ H) as (m & a' & -> & _ & Hk).
    exists (c :: m), a'. split; [done|]. simpl. by rewrite <- app_assoc.
  - destruct (atLineStart ml b); [|done]. intros Hk. by exists [], a.
  - destruct (atLineEnd ml a); [|done]. intros Hk. by exists [], a.
  - destruct (rmatch r b a done); [|done]. intros Hk. by exists [], a.
Qed.

Lemma matchAt_splits r b a b' a' :
  matchAt r b a = Some (b', a') -> exists m, a = m ++ a' /\ b' = rev m ++ b.
Proof.
  unfold matchAt. intros H.
  destruct (rmatch_splits _ _ _ _ _ H) as (m & a'' & -> & [= <- <-]).
  by exists m.
Qed.

(** The first match: what is skipped, what is matched, what is left. *)
Lemma search_splits r b a b0 b' a' :
  search r b a = Some (b0, (b', a')) ->
  exists skipped m,
    a = skipped ++ m ++ a' /\ b0 = rev skipped ++ b /\ b' = rev m ++ b0
    /\ matchAt r b0 (m ++ a') = Some (b', a').
Proof.
  revert b. induction a as [|c a IH]; intros b; cbn [search].
  - destruct (matchAt r b []) as [[e1 e2]|] eqn:E; [|done].
    intros [= <- <- <-]. destruct (matchAt_splits _ _ _ _ _ E) as (m & Hm & ->).
    exists [], m. by rewrite <- Hm.
  - destruct (matchAt r b (c :: a)) as [[e1 e2]|] eqn:E.
    + intros [= <- <- <-].
      destruct (matchAt_splits _ _ _ _ _ E) as (m & Hm & ->).
      exists [], m. by rewrite <- Hm.
    + intros Hs. destruct (IH _ Hs) as (sk & m & -> & -> & -> & Hm).
      exists (c :: sk), m. simpl. by rewrite <- !app_assoc.
Qed.

(** An expression anchored at the start matches at the start or nowhere. *)
Lemma search_anchored r b a b0 e :
  search (Seq (Bol false) r) b a = Some (b0, e) -> b0 = b.
Proof.
  destruct a as [|c a]; cbn [search].
  - destruct (matchAt _ b []); [by intros [= <- _]|done].
  - destruct (matchAt _ b (c :: a)); [by intros [= <- _]|].
    assert (forall a' b', search (Seq (Bol false) r) (c :: b') a' = None) as Hn.
    { clear. intros a'. revert c.
      induction a' as [|d a' IH]; intros c b'; cbn [search];
        unfold matchAt; cbn [rmatch atLineStart andb]; [done|apply IH]. }
    by rewrite Hn.
Qed.

End MatcherFacts.

(** ** splitTextIntoChunks: the sentence path *)

Section SentenceFacts.

(** Neither white space nor one of [. ? !]. *)
Definition solid (c : N) : bool := notWhite c && notSentenceEnd c.

Lemma trimStart_split s :
  exists w, s = w ++ trimStart s /\ allWhite w = true.
Proof.
  induction s as [|c s (w & IH & Hw)]; simpl; [by exists []|].
  destruct (isWhiteSpace c) eqn:Hc.
  - exists (c :: w). simpl. rewrite Hc, Hw. by rewrite <- IH.
  - by exists [].
Qed.

Lemma trim_split s :
  exists w1 w2, s = w1 ++ trim s ++ w2
                /\ allWhite w1 = true /\ allWhite w2 = true.
Proof.
  destruct (trimStart_split s) as (w1 & E1 & H1).
  destruct (trimStart_split (rev (trimStart s))) as (w2 & E2 & H2).
  exists w1, (rev w2). rewrite allWhite_rev. split; [|done].
  unfold trim, trimEnd. rewrite <- rev_app_distr, <- E2, rev_involutive.
  exact E1.
Qed.

Lemma trimStart_app_white x y :
  allWhite x = true -> trimStart (x ++ y) = trimStart y.
Proof.
  induction x as [|c x IH]; simpl; [done|].
  intros [Hc Hx]%andb_prop. rewrite Hc. by apply IH.
Qed.

Lemma trimStart_app_solid x y :
  allWhite x = false -> trimStart (x ++ y) = trimStart x ++ y.
Proof.
  induction x as [|c x IH]; simpl; [done|].
  destruct (isWhiteSpace c); simpl; [exact IH|done].
Qed.

Lemma trim_snoc_white x c :
  isWhiteSpace c = true -> trim (x ++ [c]) = trim x.
Proof.
  intros Hc. unfold trim, trimEnd. destruct (allWhite x) eqn:Hx.
  - rewrite trimStart_app_white by done. simpl. rewrite Hc. simpl.
    apply trimStart_nil in Hx. by rewrite Hx.
  - rewrite trimStart_app_solid by done.
    rewrite rev_app_distr. simpl. by rewrite Hc.
Qed.

Lemma trim_idem s : trim (trim s) = trim s.
Proof.
  destruct (trim_shape s) as [->|(c & d & u & v & H1 & H2 & Hc & Hd)]; [done|].
  unfold trim at 1. unfold trimEnd.
  rewrite H1. cbn [trimStart]. rewrite Hc. rewrite <- H1, H2.
  rewrite rev_app_distr. cbn [rev app trimStart]. rewrite Hd.
  change (d :: rev v) with (rev [d] ++ rev v).
  by rewrite <- rev_app_distr, rev_involutive.
Qed.

Lemma filter_white w p :
  allWhite w = true -> (forall c, p c = true -> isWhiteSpace c = false) ->
  List.filter p w = [].
Proof.
  intros Hw Hp. induction w as [|c w IH]; [done|].
  simpl in Hw. apply andb_prop in Hw as [Hc Hw]. simpl.
  destruct (p c) eqn:E; [|by apply IH].
  apply Hp in E. congruence.
Qed.

Lemma filter_trim p s :
  (forall c, p c = true -> isWhiteSpace c = false) ->
  List.filter p (trim s) = List.filter p s.
Proof.
  intros Hp. destruct (trim_split s) as (w1 & w2 & E & H1 & H2).
  rewrite E at 2. rewrite !List.filter_app.
  rewrite (filter_white w1), (filter_white w2) by done.
  by rewrite app_nil_r.
Qed.

Lemma filter_twice (p q : N -> bool) l :
  List.filter (fun c => p c && q c) l = List.filter q (List.filter p l).
Proof.
  induction l as [|c l IH]; [done|]. simpl.
  destruct (p c); simpl; [|exact IH]. destruct (q c); by rewrite IH.
Qed.

Lemma filter_swap (p q : N -> bool) l :
  List.filter p (List.filter q l) = List.filter q (List.filter p l).
Proof.
  rewrite <- !filter_twice. apply List.filter_ext. intros c. apply andb_comm.
Qed.

(** *** The matches of the sentence pattern *)

Lemma star_total p k b a :
  (forall b' a', is_Some (k b' a')) -> is_Some (star p k b a).
Proof.
  intros Hk. revert b. induction a as [|c a IH]; intros b; simpl; [done|].
  destruct (p c); [|done].
  destruct (IH (c :: b)) as [x ->]. by exists x.
Qed.

(** Greedy: when the continuation accepts the end of the longest run, that
    is the answer. *)
Lemma star_run p k b run rest x :
  forallb p run = true ->
  match rest with [] => True | d :: _ => p d = false end ->
  k (rev run ++ b) rest = Some x ->
  star p k b (run ++ rest) = Some x.
Proof.
  revert b. induction run as [|c run IH]; intros b Hrun Hrest Hk.
  - destruct rest as [|d rest]; simpl in *; [done|]. by rewrite Hrest.
  - simpl in Hrun. apply andb_prop in Hrun as [Hc Hrun].
    cbn [app star]. rewrite Hc.
    rewrite (IH (c :: b)); [done|done|done|].
    simpl in Hk. by rewrite <- app_assoc in Hk.
Qed.

Lemma plus_splits p r b a k res :
  rmatch (Seq (Plus p) r) b a k = Some res ->
  exists c m a1, a = c :: m ++ a1 /\ p c = true /\ forallb p m = true
                 /\ rmatch r (rev m ++ c :: b) a1 k = Some res.
Proof.
  cbn [rmatch]. destruct a as [|c a]; [done|].
  destruct (p c) eqn:Hc; [|done].
  intros (m & a1 & -> & Hm & Hk)%star_splits. by exists c, m, a1.
Qed.

(** At a unit other than [. ? !] the sentence pattern matches. *)
Lemma matchAt_sentence_some b c a :
  notSentenceEnd c = true -> is_Some (matchAt sentenceRegex b (c :: a)).
Proof.
  intros Hc.
  destruct (first_hit isSentenceEnd a) as [Ha|(ns & w & rest & -> & Hns & Hw)].
  - rewrite matchAt_sentence_whole; [done|].
    simpl. rewrite Hc. exact Ha.
  - unfold matchAt, sentenceRegex. cbn [rmatch]. rewrite Hc.
    match goal with |- is_Some (orElse (star _ ?k _ _) _) =>
      destruct (k (rev ns ++ c :: b) (w :: rest)) as [x|] eqn:Hk
    end.
    + rewrite (star_run _ _ _ ns (w :: rest) x); [done|exact Hns| |exact Hk].
      unfold notSentenceEnd. by rewrite Hw.
    + exfalso. rewrite Hw in Hk.
      match type of Hk with star _ ?k2 _ _ = None =>
        destruct (star_total isSentenceEnd k2 (w :: rev ns ++ c :: b) rest)
          as [y Hy]
      end; [|congruence].
      intros b' a'. cbn [rmatch].
      destruct (star_total isWhiteSpace done b' a') as [z Hz]; [done|].
      rewrite Hz.
      match goal with |- is_Some (orElse ?o _) => by destruct o end.
Qed.

(** A sentence is not empty, and it holds one of [. ? !] or runs to the
    end of the text. *)
Lemma matchAt_sentence_shape b a b' a' :
  matchAt sentenceRegex b a = Some (b', a') ->
  exists m, a = m ++ a' /\ b' = rev m ++ b /\ m <> []
            /\ (existsb isSentenceEnd m = true \/ a' = []).
Proof.
  intros H. destruct (matchAt_splits _ _ _ _ _ H) as (m & Ha & Hb).
  exists m. split; [done|]. split; [done|].
  unfold matchAt, sentenceRegex in H. cbn [rmatch] in H.
  apply orElse_Some in H as [H|H].
  - change (rmatch (Seq (Plus notSentenceEnd)
              (Seq (Plus isSentenceEnd)
                 (Seq (Opt (Chr isDoubleQuote)) (Star isWhiteSpace))))
              b a done = Some (b', a')) in H.
    apply plus_splits in H as (c & m1 & a1 & E1 & _ & _ & H).
    apply plus_splits in H as (d & m2 & a2 & -> & Hd & _ & H).
    apply rmatch_splits in H as (m3 & a3 & -> & [= _ <-]).
    rewrite E1 in Ha.
    assert (m = c :: m1 ++ d :: m2 ++ m3) as ->.
    { apply (app_inv_tail a3). rewrite <- Ha. simpl.
      by repeat (rewrite <- app_assoc; simpl). }
    split; [done|]. left. simpl. rewrite existsb_app. simpl. rewrite Hd.
    by rewrite orb_true_r, orb_true_r.
  - change (rmatch (Seq (Plus notSentenceEnd) (Eol false)) b a done
            = Some (b', a')) in H.
    apply plus_splits in H as (c & m1 & a1 & E1 & _ & _ & H).
    cbn [rmatch] in H. destruct a1 as [|x a1]; [|done].
    injection H as _ <-. split; [|by right].
    intros ->. rewrite E1 in Ha. done.
Qed.

Lemma search_sentence b a :
  match search sentenceRegex b a with
  | Some (b0, (b', a')) =>
      exists skipped m,
        a = skipped ++ m ++ a' /\ forallb isSentenceEnd skipped = true
        /\ b0 = rev skipped ++ b /\ b' = rev m ++ b0 /\ m <> []
        /\ (existsb isSentenceEnd m = true \/ a' = [])
  | None => forallb isSentenceEnd a = true
  end.
Proof.
  revert b. induction a as [|c a IH]; intros b; [done|].
  cbn [search]. destruct (matchAt sentenceRegex b (c :: a)) as [[b' a']|] eqn:E.
  - destruct (matchAt_sentence_shape _ _ _ _ E) as (m & Ha & Hb & Hm & Hs).
    by exists [], m.
  - assert (isSentenceEnd c = true) as Hc.
    { destruct (isSentenceEnd c) eqn:Hc; [done|].
      destruct (matchAt_sentence_some b c a) as [x Hx]; [|congruence].
      unfold notSentenceEnd. by rewrite Hc. }
    specialize (IH (c :: b)).
    destruct (search sentenceRegex (c :: b) a) as [[b0 [b' a']]|].
    + destruct IH as (sk & m & -> & Hsk & -> & -> & Hm & Hs).
      exists (c :: sk), m. simpl. rewrite Hc, Hsk, <- !app_assoc. done.
    + simpl. by rewrite Hc, IH.
Qed.

Lemma filter_sentenceEnd sk :
  forallb isSentenceEnd sk = true -> List.filter notSentenceEnd sk = [].
Proof.
  induction sk as [|c sk IH]; [done|]. simpl.
  intros [Hc Hsk]%andb_prop. unfold notSentenceEnd at 1. rewrite Hc. simpl.
  by apply IH.
Qed.

(** The sentences are pieces of the text, in order; what lies between them
    is made of [. ? !] only. *)
Lemma matchAllFrom_sentences fuel b a :
  (length a < fuel)%nat ->
  List.filter notSentenceEnd (concat (matchAllFrom fuel sentenceRegex b a))
  = List.filter notSentenceEnd a
  /\ Forall (fun m => m <> [] /\ (existsb isSentenceEnd m = true
                                 \/ m `suffix_of` a))
            (matchAllFrom fuel sentenceRegex b a).
Proof.
  revert b a. induction fuel as [|fuel IH]; intros b a Hf; [lia|].
  cbn [matchAllFrom]. pose proof (search_sentence b a) as Hs.
  destruct (search sentenceRegex b a) as [[b0 [b' a']]|].
  - destruct Hs as (sk & m & -> & Hsk & -> & -> & Hm & Hend).
    rewrite matched_skipped.
    assert ((length (rev m ++ rev sk ++ b) =? length (rev sk ++ b))%nat = false)
      as ->.
    { apply Nat.eqb_neq. rewrite length_app, length_rev.
      destruct m; [done|]. simpl. lia. }
    destruct (IH (rev m ++ rev sk ++ b) a') as [IH1 IH2].
    { rewrite !length_app in Hf. destruct m; [done|]. simpl in Hf. lia. }
    split.
    + simpl. rewrite !List.filter_app, IH1, (filter_sentenceEnd sk) by done.
      done.
    + constructor.
      * split; [done|]. destruct Hend as [He| ->]; [by left|right].
        exists sk. by rewrite app_nil_r.
      * eapply Forall_impl; [exact IH2|]. intros x [Hx [Hy|[pre ->]]].
        -- split; [done|by left].
        -- split; [done|right]. exists (sk ++ m ++ pre).
           by rewrite <- !app_assoc.
  - split; [|done]. simpl. by rewrite filter_sentenceEnd.
Qed.

(** *** The loop over the sentences *)

Lemma notWhite_spec c : notWhite c = true -> isWhiteSpace c = false.
Proof. unfold notWhite. by intros ?%negb_true_iff. Qed.

Lemma sentenceStep_content L chunks cur s :
  List.filter notWhite
    (concat (sentenceStep L (chunks, cur) s).1
       ++ (sentenceStep L (chunks, cur) s).2)
  = List.filter notWhite (concat chunks ++ cur) ++ List.filter notWhite s.
Proof.
  unfold sentenceStep.
  rewrite <- (filter_trim notWhite s) by apply notWhite_spec.
  destruct (len (trim s) =? 0) eqn:E.
  - apply Z.eqb_eq, len_nil_iff in E. rewrite E. simpl.
    by rewrite app_nil_r.
  - destruct ((len cur >? 0) && (len cur + len (trim s) >? L)); cbn [fst snd].
    + rewrite concat_app. simpl. rewrite !List.filter_app.
      rewrite (filter_trim notWhite cur) by apply notWhite_spec.
      simpl. by rewrite !app_nil_r, <- app_assoc.
    + rewrite !List.filter_app. simpl. by rewrite !app_nil_r, <- app_assoc.
Qed.

Lemma sentenceFold_content L ss chunks cur :
  List.filter notWhite
    (concat (fold_left (sentenceStep L) ss (chunks, cur)).1
       ++ (fold_left (sentenceStep L) ss (chunks, cur)).2)
  = List.filter notWhite (concat chunks ++ cur)
      ++ List.filter notWhite (concat ss).
Proof.
  revert chunks cur. induction ss as [|s ss IH]; intros chunks cur.
  - simpl. by rewrite app_nil_r.
  - cbn [fold_left concat].
    pose proof (sentenceStep_content L chunks cur s) as Hs.
    destruct (sentenceStep L (chunks, cur) s) as [chunks' cur'].
    rewrite IH. cbn [fst snd] in Hs. rewrite Hs.
    by rewrite (List.filter_app _ s), <- app_assoc.
Qed.

(** The chunks hold the sentences' units in order; only white space
    differs. *)
Lemma sentenceChunks_content L ss :
  List.filter notWhite (concat (sentenceChunks L ss))
  = List.filter notWhite (concat ss).
Proof.
  unfold sentenceChunks.
  pose proof (sentenceFold_content L ss [] []) as H.
  destruct (fold_left _ _ _) as [chunks cur]. cbn [fst snd] in H.
  simpl in H. rewrite <- H.
  rewrite List.filter_app, <- (filter_trim notWhite cur) by apply notWhite_spec.
  destruct (len (trim cur) >? 0) eqn:E.
  - rewrite concat_app, List.filter_app. simpl. by rewrite app_nil_r.
  - assert (trim cur = []) as ->.
    { apply len_nil_iff. pose proof (Zgt_cases (len (trim cur)) 0) as Hc.
      rewrite E in Hc. unfold len in *. lia. }
    simpl. by rewrite app_nil_r.
Qed.

Section Bound.
Variable L : Z.
Variable P : jsstring -> Prop.

(** Within the bound, or one of the distinguished texts. *)
Definition fits (c : jsstring) : Prop := len c <= L \/ P c.

Lemma sentenceStep_bound chunks cur s :
  (trim s <> [] -> P (trim s)) ->
  Forall fits chunks -> (cur = [] \/ fits (trim cur)) ->
  Forall fits (sentenceStep L (chunks, cur) s).1
  /\ ((sentenceStep L (chunks, cur) s).2 = []
      \/ fits (trim (sentenceStep L (chunks, cur) s).2)).
Proof.
  intros Hs Hch Hcur. unfold sentenceStep.
  destruct (len (trim s) =? 0) eqn:E; [done|].
  apply Z.eqb_neq in E. rewrite len_nil_iff in E.
  assert (fits (trim (trim s ++ [SPACE]))) as Hone.
  { rewrite trim_snoc_white by done. rewrite trim_idem. right. by apply Hs. }
  destruct ((len cur >? 0) && (len cur + len (trim s) >? L)) eqn:F;
    cbn [fst snd].
  - split; [|by right].
    apply Forall_app. split; [done|]. apply Forall_singleton.
    destruct Hcur as [->|H]; [|done].
    by apply andb_prop in F as [F _].
  - split; [done|]. right. destruct cur as [|x cur]; [exact Hone|].
    left. rewrite app_assoc, trim_snoc_white by done.
    apply andb_false_iff in F as [F|F].
    + pose proof (Zgt_cases (len (x :: cur)) 0) as Hc. rewrite F in Hc.
      unfold len in Hc. simpl in Hc. lia.
    + pose proof (Zgt_cases (len (x :: cur) + len (trim s)) L) as Hc.
      rewrite F in Hc. pose proof (trim_length ((x :: cur) ++ trim s)) as Hl.
      rewrite length_app in Hl. unfold len in *. lia.
Qed.

Lemma sentenceFold_bound ss chunks cur :
  Forall (fun s => trim s <> [] -> P (trim s)) ss ->
  Forall fits chunks -> (cur = [] \/ fits (trim cur)) ->
  Forall fits (fold_left (sentenceStep L) ss (chunks, cur)).1
  /\ ((fold_left (sentenceStep L) ss (chunks, cur)).2 = []
      \/ fits (trim (fold_left (sentenceStep L) ss (chunks, cur)).2)).
Proof.
  revert chunks cur.
  induction ss as [|s ss IH]; intros chunks cur Hss Hch Hcur; [done|].
  apply Forall_cons in Hss as [Hs Hss]. cbn [fold_left].
  destruct (sentenceStep_bound chunks cur s Hs Hch Hcur) as [H1 H2].
  destruct (sentenceStep L (chunks, cur) s) as [chunks' cur'].
  by apply IH.
Qed.

Lemma sentenceChunks_bound ss :
  Forall (fun s => trim s <> [] -> P (trim s)) ss ->
  Forall fits (sentenceChunks L ss).
Proof.
  intros Hss. unfold sentenceChunks.
  destruct (sentenceFold_bound ss [] [] Hss) as [H1 H2]; [done|by left|].
  destruct (fold_left _ _ _) as [chunks cur]. cbn [fst snd] in *.
  destruct (len (trim cur) >? 0) eqn:E; [|done].
  apply Forall_app. split; [done|]. apply Forall_singleton.
  destruct H2 as [->|H2]; [done|done].
Qed.

End Bound.

Lemma sentenceStep_notBlank L chunks cur s :
  notBlank cur \/ notBlank s -> notBlank (sentenceStep L (chunks, cur) s).2.
Proof.
  intros Hn. unfold sentenceStep, notBlank in *.
  destruct (len (trim s) =? 0) eqn:E.
  - apply Z.eqb_eq, len_nil_iff, trim_nil in E. cbn [snd].
    destruct Hn as [Hn|Hn]; [done|congruence].
  - apply Z.eqb_neq in E. rewrite len_nil_iff in E.
    destruct ((len cur >? 0) && _); cbn [snd];
      rewrite !allWhite_app, (trim_not_white _ E); simpl;
      by rewrite ?andb_false_r.
Qed.

Lemma sentenceFold_notBlank L ss chunks cur :
  notBlank cur \/ Exists notBlank ss ->
  notBlank (fold_left (sentenceStep L) ss (chunks, cur)).2.
Proof.
  revert chunks cur. induction ss as [|s ss IH]; intros chunks cur Hn.
  - destruct Hn as [Hn|Hn]; [done|by apply Exists_nil in Hn].
  - cbn [fold_left].
    pose proof (sentenceStep_notBlank L chunks cur s) as Hs.
    destruct (sentenceStep L (chunks, cur) s) as [chunks' cur'].
    apply IH. destruct Hn as [Hn|[Hn|Hn]%Exists_cons]; auto.
Qed.

Lemma sentenceChunks_nonempty L ss :
  Exists notBlank ss -> sentenceChunks L ss <> [].
Proof.
  intros Hss. unfold sentenceChunks.
  pose proof (sentenceFold_notBlank L ss [] [] (or_intror Hss)) as Hn.
  destruct (fold_left _ _ _) as [chunks cur]. cbn [snd] in Hn.
  apply notBlank_trim in Hn.
  destruct (len (trim cur) >? 0) eqn:E; [by destruct chunks|].
  pose proof (Zgt_cases (len (trim cur)) 0) as Hc. rewrite E in Hc.
  destruct (trim cur); [done|]. unfold len in Hc. simpl in Hc. lia.
Qed.

Lemma sentenceEnd_notWhite c : isSentenceEnd c = true -> isWhiteSpace c = false.
Proof.
  unfold isSentenceEnd. rewrite !orb_true_iff, !N.eqb_eq.
  by intros [[->| ->]| ->].
Qed.

Lemma existsb_notBlank (p : N -> bool) m :
  (forall c, p c = true -> isWhiteSpace c = false) ->
  existsb p m = true -> notBlank m.
Proof.
  intros Hp. unfold notBlank. induction m as [|c m IH]; [done|]. simpl.
  destruct (p c) eqn:E; simpl.
  - intros _. by rewrite (Hp c E).
  - intros Hm. rewrite (IH Hm). apply andb_false_r.
Qed.

(** No sentence of a trimmed text is blank. *)
Lemma sentences_notBlank text :
  Forall notBlank (matchAll sentenceRegex (trim text)).
Proof.
  unfold matchAll.
  destruct (matchAllFrom_sentences (S (length (trim text))) [] (trim text))
    as [_ H]; [lia|].
  eapply Forall_impl; [exact H|]. intros m [Hm [Hs|[pre Hpre]]].
  - apply (existsb_notBlank isSentenceEnd); [apply sentenceEnd_notWhite|done].
  - destruct (trim_shape text) as [E|(c & d & u & v & _ & E & _ & Hd)].
    { rewrite E in Hpre. by destruct pre, m. }
    destruct (exists_last Hm) as (m' & d' & ->).
    rewrite E, app_assoc in Hpre. apply app_inj_tail in Hpre as [_ <-].
    unfold notBlank. rewrite allWhite_app. simpl. rewrite Hd.
    apply andb_false_r.
Qed.

(** With two sentences or more the result is the short answer or the
    chunks of the sentence loop: the fallback loop is not entered and the
    final check changes nothing. *)
Lemma splitTextIntoChunks_sentencePath fuel text L :
  (1 < length (matchAll sentenceRegex (trim text)))%nat ->
  splitTextIntoChunks fuel text L
  = Some (if len (trim text) <=? L then [trim text]
          else sentenceChunks L (matchAll sentenceRegex (trim text))).
Proof.
  intros Hss. unfold splitTextIntoChunks.
  assert (trim text <> []) as Hne.
  { intros E. rewrite E in Hss. vm_compute in Hss. lia. }
  assert (isEmpty text = false) as ->.
  { destruct text; [by vm_compute in Hne|done]. }
  assert ((len (trim text) =? 0) = false) as ->.
  { apply Z.eqb_neq. by rewrite len_nil_iff. }
  cbn [orb]. destruct (len (trim text) <=? L); [done|].
  apply Nat.ltb_lt in Hss as Hlt. rewrite Hlt.
  assert (sentenceChunks L (matchAll sentenceRegex (trim text)) <> []) as Hc.
  { apply sentenceChunks_nonempty. pose proof (sentences_notBlank text) as Hn.
    destruct (matchAll sentenceRegex (trim text)) as [|s ss]; [simpl in Hss; lia|].
    apply Exists_cons. left. by apply Forall_cons in Hn as [Hn _]. }
  by destruct (sentenceChunks L (matchAll sentenceRegex (trim text))).
Qed.

End SentenceFacts.

(** X1: when the trimmed text has two sentences or more, the chunks are
    those of the sentence loop, there is at least one, and a chunk is longer
    than [maxLength] only when it is one whole sentence, trimmed. *)
Theorem splitTextIntoChunks_sentence_bound
    (fuel : nat) (text : jsstring) (maxLength : Z) :
  (1 < length (matchAll sentenceRegex (trim text)))%nat ->
  exists chunks,
    splitTextIntoChunks fuel text maxLength = Some chunks /\ chunks <> []
    /\ Forall (fun c => len c <= maxLength
                 \/ exists s, s ∈ matchAll sentenceRegex (trim text)
                              /\ c = trim s) chunks.
Proof.
  intros Hss. eexists. split; [by apply splitTextIntoChunks_sentencePath|].
  destruct (len (trim text) <=? maxLength) eqn:E.
  - apply Z.leb_le in E. split; [done|]. apply Forall_singleton. by left.
  - split.
    + apply sentenceChunks_nonempty. pose proof (sentences_notBlank text) as Hn.
      destruct (matchAll sentenceRegex (trim text)) as [|s ss];
        [simpl in Hss; lia|].
      apply Exists_cons. left. by apply Forall_cons in Hn as [Hn _].
    + apply (sentenceChunks_bound maxLength
               (fun c => exists s, s ∈ matchAll sentenceRegex (trim text)
                                   /\ c = trim s)).
      apply Forall_forall. intros s Hs _. by exists s.
Qed.

Lemma splitTextIntoChunks_sentence_bound_witness :
  exists chunks,
    splitTextIntoChunks 0 (js "One two. Three four five! Six?") 10 = Some chunks
    /\ chunks <> []
    /\ Forall (fun c => len c <= 10
                 \/ exists s,
                      s ∈ matchAll sentenceRegex
                            (trim (js "One two. Three four five! Six?"))
                      /\ c = trim s) chunks.
Proof.
  apply (splitTextIntoChunks_sentence_bound 0
           (js "One two. Three four five! Six?") 10).
  vm_compute. lia.
Defined.

(** X2: when the trimmed text has two sentences or more, every code unit of
    the text that is neither white space nor one of [. ? !] is in the
    chunks, in the order of the text, and the chunks hold no other such
    unit. *)
Theorem splitTextIntoChunks_sentence_content
    (fuel : nat) (text : jsstring) (maxLength : Z) :
  (1 < length (matchAll sentenceRegex (trim text)))%nat ->
  exists chunks,
    splitTextIntoChunks fuel text maxLength = Some chunks
    /\ List.filter solid (concat chunks) = List.filter solid text.
Proof.
  intros Hss. eexists. split; [by apply splitTextIntoChunks_sentencePath|].
  assert (forall c, solid c = true -> isWhiteSpace c = false) as Hsolid.
  { intros c [Hc _]%andb_prop. by apply notWhite_spec. }
  rewrite <- (filter_trim solid text) by done.
  destruct (len (trim text) <=? maxLength).
  - simpl. by rewrite app_nil_r.
  - unfold solid. rewrite !filter_twice, sentenceChunks_content.
    rewrite filter_swap, (filter_swap _ _ (trim text)). f_equal.
    unfold matchAll.
    by destruct (matchAllFrom_sentences (S (length (trim text))) []
                   (trim text)) as [-> _]; [lia|].
Qed.

Lemma splitTextIntoChunks_sentence_content_witness :
  exists chunks,
    splitTextIntoChunks 0 (js "One two. ..Three four five! Six?") 10
    = Some chunks
    /\ List.filter solid (concat chunks)
       = List.filter solid (js "One two. ..Three four five! Six?").
Proof.
  apply (splitTextIntoChunks_sentence_content 0
           (js "One two. ..Three four five! Six?") 10).
  vm_compute. lia.
Defined.

(** ** The prefix cleanup: what is removed *)

Section CleanupFacts.
Context `{UnicodeTables}.

(** The pattern of the cleanup is anchored at the start of the text. *)
Lemma removalRegex_anchored trimmedPrefix r :
  removalRegex trimmedPrefix = Some r -> exists r', r = Seq (Bol false) r'.
Proof.
  unfold removalRegex. destruct (includes trimmedPrefix HASH); [|done].
  unfold newRegExp_i, parseTerms, prefixPattern.
  match goal with |- context [tokens true None (94%N :: ?x)] =>
    change (tokens true None (94%N :: x))
      with (option_map (cons TBol) (tokens true None x));
    destruct (tokens true None x) as [ts|]; [|done]
  end.
  cbn [option_map].
  assert (forall rs, terms (TBol :: ts) = Some rs ->
                     exists rs', rs = Bol false :: rs') as Hb.
  { intros rs. cbn [terms]. destruct ts as [|[p|q| |] ts]; try done;
      match goal with |- context [option_map _ ?t] => destruct t end;
      cbn [option_map]; try done; intros [= <-]; by eexists. }
  destruct (terms (TBol :: ts)) as [rs|]; [|done].
  destruct (Hb rs eq_refl) as [rs' ->]. cbn. intros [= <-]. by eexists.
Qed.

(** A match of an anchored expression is a prefix of the text. *)
Lemma matchFirst_anchored r s m :
  matchFirst (Seq (Bol false) r) s = Some m -> exists rest, s = m ++ rest.
Proof.
  unfold matchFirst.
  destruct (search _ [] s) as [[b0 [b' a']]|] eqn:E; [|done].
  intros [= <-]. pose proof (search_anchored _ _ _ _ _ E) as ->.
  destruct (search_splits _ _ _ _ _ _ E) as (sk & m & -> & Hsk & -> & _).
  exists a'. rewrite app_nil_r in Hsk. apply (f_equal (@rev N)) in Hsk.
  rewrite rev_involutive in Hsk. subst sk.
  simpl. by rewrite matched_skipped.
Qed.

Lemma substringFrom_from s a :
  0 <= a -> substringFrom s a = drop (Z.to_nat a) s.
Proof.
  intros Ha. destruct (Z.le_gt_cases a (len s)).
  - by apply substringFrom_drop.
  - unfold substringFrom, substring, clampIndex.
    replace (Z.max (Z.max 0 (Z.min a (len s))) (Z.max 0 (Z.min (len s) (len s)))
             - Z.min (Z.max 0 (Z.min a (len s)))
                     (Z.max 0 (Z.min (len s) (len s)))) with 0 by lia.
    rewrite (drop_ge s (Z.to_nat a)); [done|]. unfold len in *. lia.
Qed.

Lemma leadingWhitespace_spec (ws t : jsstring) :
  substring (ws ++ t) 0 (len (ws ++ t) - len t) = ws.
Proof.
  unfold len. rewrite length_app.
  replace (Z.of_nat (length ws + length t) - Z.of_nat (length t))
    with (Z.of_nat (length ws)) by lia.
  rewrite substring_prefix by lia. rewrite Nat2Z.id. apply take_app_length.
Qed.

End CleanupFacts.

Lemma drop_length_take {A} (n : nat) (t : list A) :
  drop (length (take n t)) t = drop n t.
Proof.
  rewrite length_take. destruct (Nat.le_gt_cases n (length t)).
  - by rewrite Nat.min_l.
  - rewrite Nat.min_r by lia. rewrite !drop_ge; [done|lia|lia].
Qed.

(** X3: the cleanup of a chapter cuts one piece out of its content: the
    piece stands right after the leading white space, which is kept, and
    the text after the piece is kept as it is.  The live preview shows a
    change for the chapter exactly when the piece is not empty, and then
    shows that piece and that remaining text. *)
Theorem cleanChapter_removes_prefix `{UnicodeTables}
    (trimmedPrefix : jsstring) (chapter : Chapter) :
  exists ws removed rest,
    content chapter = ws ++ removed ++ rest
    /\ allWhite ws = true
    /\ trimStart (content chapter) = removed ++ rest
    /\ cleanChapter trimmedPrefix chapter
       = {| chapterId := chapterId chapter;
            chapterTitle := chapterTitle chapter;
            content := ws ++ rest |}
    /\ match previewChange trimmedPrefix chapter with
       | Some change =>
           removed <> [] /\ toRemove change = removed
           /\ result change = rest
           /\ previewChapterId change = chapterId chapter
       | None => removed = []
       end.
Proof.
  destruct (trimStart_split (content chapter)) as (ws & E & Hws).
  pose proof (leadingWhitespace_spec ws (trimStart (content chapter))) as Hl.
  rewrite <- E in Hl.
  unfold cleanChapter, previewChange, nonEmptyMatch. cbv zeta. rewrite Hl.
  destruct (removalRegex trimmedPrefix) as [r|] eqn:Hr.
  - destruct (removalRegex_anchored _ _ Hr) as [r' ->].
    destruct (matchFirst _ (trimStart (content chapter))) as [m|] eqn:Hm.
    + destruct (matchFirst_anchored _ _ _ Hm) as [rest Hrest].
      destruct m as [|c m]; cbn [isEmpty].
      * exists ws, [], (trimStart (content chapter)).
        by rewrite <- E.
      * assert (substringFrom (trimStart (content chapter)) (len (c :: m))
                = rest) as ->.
        { rewrite substringFrom_from by (unfold len; lia).
          unfold len. rewrite Nat2Z.id. rewrite Hrest at 1.
          apply drop_app_length. }
        exists ws, (c :: m), rest. cbn [toRemove result previewChapterId].
        rewrite <- Hrest. by rewrite <- E.
    + exists ws, [], (trimStart (content chapter)). by rewrite <- E.
  - destruct (startsWith _ _).
    + rewrite substring_prefix by (unfold len; lia).
      rewrite substringFrom_from by (unfold len; lia).
      set (n := Z.to_nat (len trimmedPrefix)).
      exists ws, (take n (trimStart (content chapter))),
             (drop n (trimStart (content chapter))).
      rewrite take_drop. split; [done|]. split; [done|]. split; [done|].
      split; [done|].
      destruct (take n (trimStart (content chapter))) as [|c m] eqn:Ht;
        cbn [isEmpty]; [done|].
      cbn [toRemove result previewChapterId].
      split; [done|]. split; [done|]. split; [|done].
      rewrite substringFrom_from by (unfold len; lia).
      unfold len. rewrite Nat2Z.id, <- Ht. apply drop_length_take.
    + exists ws, [], (trimStart (content chapter)). by rewrite <- E.
Qed.

(** ** The book settings: deleting chapters and saving *)

(** One use of the dialog: it opens on the book (the edited chapters are
    the book's), the user deletes chapters one after the other, and saves
    with a prefix to remove. *)
Definition savedBook `{UnicodeTables} (book : Book) (deleted : list jsstring)
    (prefixToRemove : jsstring) : Book :=
  handleSaveChanges book
    (fold_left handleDeleteChapter deleted (chapters book)) prefixToRemove.

Section ModalFacts.

Lemma filter_sublist {A} (p : A -> bool) l : List.filter p l `sublist_of` l.
Proof.
  induction l as [|x l IH]; simpl; [done|].
  destruct (p x); by constructor.
Qed.

Lemma handleDeleteChapter_sublist chs cid :
  handleDeleteChapter chs cid `sublist_of` chs.
Proof.
  unfold handleDeleteChapter. destruct (_ <=? _)%nat; [done|].
  apply filter_sublist.
Qed.

Lemma handleDeleteChapter_gone chs cid :
  (1 < length chs)%nat -> cid ∉ chapterId <$> handleDeleteChapter chs cid.
Proof.
  intros Hl. unfold handleDeleteChapter.
  apply Nat.leb_gt in Hl as ->.
  intros (ch & -> & Hch)%list_elem_of_fmap.
  apply list_elem_of_In, List.filter_In in Hch as [_ Hch].
  unfold eqs in Hch. by rewrite bool_decide_eq_true_2 in Hch.
Qed.

Lemma handleDeleteChapter_nonempty chs cid :
  NoDup (chapterId <$> chs) -> chs <> [] -> handleDeleteChapter chs cid <> [].
Proof.
  intros Hnd Hne. unfold handleDeleteChapter.
  destruct chs as [|c1 [|c2 chs]]; [done|done|].
  cbn [length Nat.leb List.filter].
  destruct (eqs (chapterId c1) cid) eqn:E1; [|done].
  destruct (eqs (chapterId c2) cid) eqn:E2; [|done].
  apply bool_decide_eq_true_1 in E1, E2. cbn [fmap list_fmap] in Hnd.
  apply NoDup_cons in Hnd as [Hnd _]. exfalso. apply Hnd.
  rewrite E1, <- E2. left.
Qed.

Lemma deletions_spec deleted chs :
  NoDup (chapterId <$> chs) -> chs <> [] ->
  fold_left handleDeleteChapter deleted chs <> []
  /\ fold_left handleDeleteChapter deleted chs `sublist_of` chs
  /\ (forall cid, cid ∈ deleted ->
        cid ∈ chapterId <$> fold_left handleDeleteChapter deleted chs ->
        length (fold_left handleDeleteChapter deleted chs) = 1%nat).
Proof.
  revert chs. induction deleted as [|d deleted IH]; intros chs Hnd Hne.
  { split; [done|]. split; [done|]. by intros cid ?%elem_of_nil. }
  cbn [fold_left].
  pose proof (handleDeleteChapter_sublist chs d) as Hsub.
  destruct (IH (handleDeleteChapter chs d)) as (H1 & H2 & H3).
  { eapply sublist_NoDup; [exact Hnd|]. by apply fmap_sublist. }
  { by apply handleDeleteChapter_nonempty. }
  split; [done|]. split; [by etrans|].
  intros cid [->|Hin]%elem_of_cons Hcid; [|by apply (H3 cid)].
  destruct (Nat.le_gt_cases (length chs) 1) as [Hle|Hgt].
  - apply sublist_length in H2, Hsub.
    destruct (fold_left _ _ _); [done|]. simpl in *. lia.
  - exfalso. apply (handleDeleteChapter_gone chs d Hgt).
    eapply elem_of_sublist; [exact Hcid|]. by apply fmap_sublist.
Qed.

End ModalFacts.

(** X4: when the book has a chapter and its chapter ids are pairwise
    distinct, whatever chapters the user deletes in the dialog and whatever
    prefix is removed, the book handed to [onSave] has a chapter; its
    chapters are chapters of the book, in the book's order; and a chapter
    the user deleted is still there only when it is the one chapter left. *)
Theorem savedBook_keeps_a_chapter `{UnicodeTables}
    (book : Book) (deleted : list jsstring) (prefixToRemove : jsstring) :
  chapters book <> [] -> NoDup (chapterId <$> chapters book) ->
  chapters (savedBook book deleted prefixToRemove) <> []
  /\ (chapterId <$> chapters (savedBook book deleted prefixToRemove))
       `sublist_of` (chapterId <$> chapters book)
  /\ (chapterTitle <$> chapters (savedBook book deleted prefixToRemove))
       `sublist_of` (chapterTitle <$> chapters book)
  /\ (forall cid,
        cid ∈ deleted ->
        cid ∈ chapterId <$> chapters (savedBook book deleted prefixToRemove) ->
        length (chapters (savedBook book deleted prefixToRemove)) = 1%nat).
Proof.
  intros Hne Hnd.
  destruct (deletions_spec deleted (chapters book) Hnd Hne) as (H1 & H2 & H3).
  unfold savedBook, handleSaveChanges. cbn [chapters].
  assert (forall (f : Chapter -> jsstring) p l,
            (forall ch, f (cleanChapter p ch) = f ch) ->
            f <$> List.map (cleanChapter p) l = f <$> l) as Hmap.
  { intros f p l Hf. induction l as [|ch l IH]; [done|].
    cbn [List.map fmap list_fmap]. by rewrite Hf, <- IH. }
  set (edited := fold_left handleDeleteChapter deleted (chapters book)) in *.
  destruct (isEmpty (trim prefixToRemove)).
  - split; [done|]. split; [by apply fmap_sublist|].
    split; [by apply fmap_sublist|done].
  - rewrite !Hmap by done. rewrite length_map.
    split; [by destruct edited|]. split; [by apply fmap_sublist|].
    split; [by apply fmap_sublist|done].
Qed.

Definition twoChapters : Book :=
  {| id := js "b1"; title := js "Tales"; author := None; coverImage := None;
     chapters := [ {| chapterId := js "a"; chapterTitle := js "One";
                      content := js "Chapter 1 Once" |};
                   {| chapterId := js "b"; chapterTitle := js "Two";
                      content := js "Chapter 2 Twice" |} ];
     lastPosition := None |}.

Lemma savedBook_keeps_a_chapter_witness :
  chapters (savedBook (H := asciiTables) twoChapters [js "a"; js "b"]
              (js "Chapter #")) <> []
  /\ (chapterId <$> chapters (savedBook (H := asciiTables) twoChapters
                                [js "a"; js "b"] (js "Chapter #")))
       `sublist_of` (chapterId <$> chapters twoChapters)
  /\ (chapterTitle <$> chapters (savedBook (H := asciiTables) twoChapters
                                   [js "a"; js "b"] (js "Chapter #")))
       `sublist_of` (chapterTitle <$> chapters twoChapters)
  /\ (forall cid,
        cid ∈ [js "a"; js "b"] ->
        cid ∈ chapterId <$> chapters (savedBook (H := asciiTables) twoChapters
                                        [js "a"; js "b"] (js "Chapter #")) ->
        length (chapters (savedBook (H := asciiTables) twoChapters
                            [js "a"; js "b"] (js "Chapter #"))) = 1%nat).
Proof.
  apply (savedBook_keeps_a_chapter (H := asciiTables) twoChapters
           [js "a"; js "b"] (js "Chapter #")).
  - discriminate.
  - apply (bool_decide_unpack _). vm_compute. reflexivity.
Defined.

(** ** The import parser: titles and lines *)

Section FileNameFacts.
Context `{UnicodeTables}.

(** Neither [/] nor [.]. *)
Definition extensionUnit (c : N) : bool := negb ((c =? 47) || (c =? 46))%N.

Lemma extension_no_match b s :
  existsb (N.eqb 46) s = true ->
  rmatch (Seq (Plus extensionUnit) (Eol false)) b s done = None.
Proof.
  intros Hs.
  destruct (rmatch _ b s done) as [res|] eqn:E; [exfalso|done].
  apply plus_splits in E as (c & m & a1 & -> & Hc & Hm & E).
  cbn [rmatch] in E. destruct a1 as [|x a1]; [|done].
  rewrite app_nil_r in Hs.
  assert (forallb extensionUnit (c :: m) = true) as Hall.
  { simpl. by rewrite Hc, Hm. }
  clear -Hs Hall. induction (c :: m) as [|x l IH]; [done|].
  cbn [existsb forallb] in *. apply andb_prop in Hall as [Hx Hl].
  apply orb_prop in Hs as [Hs|Hs]; [|by apply IH].
  apply N.eqb_eq in Hs as <-. done.
Qed.

Lemma search_extension b base ext :
  ext <> [] -> forallb extensionUnit ext = true ->
  search extensionRegex b (base ++ 46%N :: ext)
  = Some (rev base ++ b, (rev ext ++ 46%N :: rev base ++ b, [])).
Proof.
  intros Hne Hext. revert b. induction base as [|c base IH]; intros b.
  - apply search_hit. unfold matchAt, extensionRegex. cbn [rmatch app].
    change ((46 =? 46)%N) with true. cbn match.
    destruct ext as [|e ext]; [done|]. simpl in Hext.
    apply andb_prop in Hext as [He Hext].
    change (fun c0 : N => negb ((c0 =? 47) || (c0 =? 46))%N) with extensionUnit.
    change (negb ((e =? 47) || (e =? 46))%N) with (extensionUnit e).
    rewrite He. rewrite (star_all_some _ _ _ _ (rev ext ++ e :: 46%N :: b, []));
      [|done|done].
    cbn [rev app]. by rewrite <- app_assoc.
  - cbn [app search].
    assert (matchAt extensionRegex b (c :: base ++ 46%N :: ext) = None) as ->.
    { unfold matchAt, extensionRegex. cbn [rmatch].
      destruct (46 =? c)%N; [|done].
      apply extension_no_match. rewrite existsb_app. simpl.
      apply orb_true_r. }
    rewrite IH. cbn [rev]. by rewrite <- !app_assoc.
Qed.

(** The title taken from a file name is the name up to its last dot. *)
Lemma withoutExtension_spec base ext :
  ext <> [] -> forallb extensionUnit ext = true ->
  withoutExtension (base ++ 46%N :: ext) = base.
Proof.
  intros Hne Hext. unfold withoutExtension, replaceFirst.
  rewrite search_extension by done.
  by rewrite !app_nil_r, rev_involutive.
Qed.

Lemma splitOn_nonempty sep s : splitOn sep s <> [].
Proof.
  induction s as [|c s IH]; simpl; [done|].
  destruct (c =? sep)%N; [done|]. by destruct (splitOn sep s).
Qed.

Lemma splitOn_pieces sep base ext :
  existsb (N.eqb sep) ext = false ->
  exists piece pieces,
    splitOn sep (base ++ sep :: ext) = (piece :: pieces) ++ [ext].
Proof.
  intros Hext. induction base as [|c base (piece & pieces & IH)].
  - cbn [app splitOn]. rewrite N.eqb_refl. exists [], [].
    assert (splitOn sep ext = [ext]) as ->; [|done].
    clear -Hext. induction ext as [|e ext IH]; [done|].
    cbn [existsb splitOn] in *. apply orb_false_elim in Hext as [He Hext].
    rewrite N.eqb_sym, He, IH by done. done.
  - cbn [app splitOn]. rewrite IH. destruct (c =? sep)%N.
    + by exists [], (piece :: pieces).
    + by exists (c :: piece), pieces.
Qed.

Lemma splitOn_last sep base ext :
  existsb (N.eqb sep) ext = false ->
  List.last (splitOn sep (base ++ sep :: ext)) [] = ext.
Proof.
  intros Hext. destruct (splitOn_pieces sep base ext Hext) as (p & ps & ->).
  apply last_last.
Qed.

Lemma extensionOf_spec base ext :
  existsb (N.eqb 46) ext = false ->
  extensionOf (base ++ 46%N :: ext) = toLowerCase ext.
Proof. intros Hext. unfold extensionOf. by rewrite splitOn_last. Qed.

End FileNameFacts.

(** X5: for a file whose name ends in a dot and a non-empty extension free
    of [.] and [/], a book that [parseFile] resolves to is titled with the
    file name up to that last dot on the TXT path, and with the title of
    the EPUB metadata, or else that same part of the name, on the EPUB
    path; the path is chosen by the extension in lower case. *)
Theorem parseFile_title `{UnicodeTables} (generateId : nat -> jsstring)
    (file : File) (base ext : jsstring) (book : Book) :
  name file = base ++ 46%N :: ext ->
  ext <> [] -> forallb extensionUnit ext = true ->
  parseFile generateId file = Resolved book ->
  (toLowerCase ext = js "txt" /\ title book = base)
  \/ (toLowerCase ext = js "epub"
      /\ exists c, epub file = EpubLoaded c
           /\ title book = match metadataTitle c with
                           | Some t => if isEmpty t then base else t
                           | None => base
                           end).
Proof.
  intros Hname Hne Hext. unfold parseFile.
  assert (existsb (N.eqb 46) ext = false) as Hdot.
  { clear -Hext. induction ext as [|e ext IH]; [done|].
    cbn [existsb forallb] in *. apply andb_prop in Hext as [He Hext].
    rewrite IH by done. unfold extensionUnit in He.
    apply negb_true_iff, orb_false_elim in He as [_ He].
    by rewrite N.eqb_sym, He. }
  rewrite Hname, extensionOf_spec by done. unfold eqs.
  destruct (bool_decide (toLowerCase ext = js "txt")) eqn:Etxt.
  - apply bool_decide_eq_true_1 in Etxt. intros Hp. left. split; [done|].
    unfold parseTxt in Hp. destruct (text file) as [fileContent|]; [|done].
    destruct (isEmpty fileContent); [done|]. injection Hp as <-.
    cbn [title]. rewrite Hname. by apply withoutExtension_spec.
  - destruct (bool_decide (toLowerCase ext = js "epub")) eqn:Eepub.
    + apply bool_decide_eq_true_1 in Eepub. intros Hp. right. split; [done|].
      unfold parseEpub in Hp. destruct (epub file) as [| | |c]; try done.
      exists c. split; [done|].
      destruct (_ && _); [done|]. injection Hp as <-. cbn [title].
      rewrite Hname, withoutExtension_spec by done. done.
    + by destruct (bool_decide (toLowerCase ext = js "mobi")).
Qed.

Lemma parseFile_title_witness :
  (toLowerCase (UnicodeTables := asciiTables) (js "TXT") = js "txt"
   /\ js "My.Tale" = js "My.Tale")
  \/ (toLowerCase (UnicodeTables := asciiTables) (js "TXT") = js "epub"
      /\ exists c, BufferEmpty = EpubLoaded c
           /\ js "My.Tale" = match metadataTitle c with
                             | Some t => if isEmpty t then js "My.Tale" else t
                             | None => js "My.Tale"
                             end).
Proof.
  apply (parseFile_title (H := asciiTables) (fun _ => js "id")
           (txtFile "My.Tale.TXT" "Once upon a time.")
           (js "My.Tale") (js "TXT")
           {| id := js "id"; title := js "My.Tale"; author := None;
              coverImage := None;
              chapters := [{| chapterId := js "id";
                              chapterTitle := js "Full Text";
                              content := js "Once upon a time." |}];
              lastPosition := None |}).
  - reflexivity.
  - discriminate.
  - reflexivity.
  - vm_compute. reflexivity.
Defined.

Section LineFacts.

(** Free of the separator. *)
Definition noSep (sep : N) (l : jsstring) : Prop :=
  existsb (N.eqb sep) l = false.

Lemma splitOn_none sep l : noSep sep l -> splitOn sep l = [l].
Proof.
  unfold noSep. induction l as [|e l IH]; [done|].
  cbn [existsb splitOn]. intros [He Hl]%orb_false_elim.
  by rewrite N.eqb_sym, He, IH.
Qed.

Lemma splitOn_app sep l s :
  noSep sep l -> splitOn sep (l ++ sep :: s) = l :: splitOn sep s.
Proof.
  unfold noSep. induction l as [|e l IH].
  - intros _. cbn [app splitOn]. by rewrite N.eqb_refl.
  - cbn [existsb app splitOn]. intros [He Hl]%orb_false_elim.
    by rewrite N.eqb_sym, He, IH.
Qed.

Lemma splitOn_joinWith sep lines :
  lines <> [] -> Forall (noSep sep) lines ->
  splitOn sep (joinWith sep lines) = lines.
Proof.
  intros Hne Hall. induction Hall as [|l rest Hl Hrest IH]; [done|].
  destruct rest as [|l2 rest]; [by apply splitOn_none|].
  change (joinWith sep (l :: l2 :: rest))
    with (l ++ sep :: joinWith sep (l2 :: rest)).
  rewrite splitOn_app by done. by rewrite IH.
Qed.

Lemma splitOn_noSep sep s : Forall (noSep sep) (splitOn sep s).
Proof.
  induction s as [|c s IH]; [by repeat constructor|].
  cbn [splitOn]. destruct (c =? sep)%N eqn:E; [by constructor|].
  destruct (splitOn sep s) as [|l ls]; [repeat constructor|].
  - unfold noSep. cbn [existsb]. by rewrite N.eqb_sym, E.
  - apply Forall_cons in IH as [Hl Hls]. constructor; [|done].
    unfold noSep in *. cbn [existsb]. by rewrite N.eqb_sym, E.
Qed.

Lemma trim_noSep sep l : noSep sep l -> noSep sep (trim l).
Proof.
  unfold noSep. destruct (trim_split l) as (w1 & w2 & E & _ & _).
  rewrite E at 1. rewrite !existsb_app.
  by intros [_ [? _]%orb_false_elim]%orb_false_elim.
Qed.

(** The content lines of a text: trimmed, not blank, free of line feeds. *)
Lemma contentLines_tidy content :
  Forall (fun l => tidy l /\ noSep LF l) (contentLines content).
Proof.
  unfold contentLines. apply Forall_forall. intros l Hl.
  apply list_elem_of_In, filter_In in Hl as [Hl Hne].
  apply in_map_iff in Hl as (raw & <- & Hraw). split.
  - apply trim_tidy. by destruct (trim raw).
  - apply trim_noSep.
    pose proof (splitOn_noSep LF content) as Hall.
    rewrite Forall_forall in Hall. by apply Hall, list_elem_of_In.
Qed.

Lemma tidy_ends x :
  tidy x <-> exists c d u v, x = c :: u /\ x = v ++ [d]
                             /\ isWhiteSpace c = false
                             /\ isWhiteSpace d = false.
Proof.
  unfold tidy, startsOrEndsWithWhiteSpace. split.
  - intros [Hw Hends]. destruct x as [|c u]; [done|].
    apply orb_false_elim in Hends as [Hc Hd].
    destruct (exists_last (l := c :: u)) as (v & d & E); [done|].
    exists c, d, u, v. split; [done|]. split; [done|]. split; [done|].
    rewrite E in Hd. by rewrite last_last in Hd.
  - intros (c & d & u & v & E1 & E2 & Hc & Hd). subst x. split.
    + simpl. by rewrite Hc.
    + rewrite E2 at 1. by rewrite last_last, Hc, Hd.
Qed.

Lemma tidy_app a m b : tidy a -> tidy b -> tidy (a ++ m ++ b).
Proof.
  intros (c & _ & u & _ & -> & _ & Hc & _)%tidy_ends
         (_ & d & _ & v & _ & -> & _ & Hd)%tidy_ends.
  apply tidy_ends. exists c, d, (u ++ m ++ v ++ [d]), ((c :: u) ++ m ++ v).
  split; [done|]. split; [|done]. by rewrite <- !app_assoc.
Qed.

Lemma joinWith_tidy sep l lines :
  Forall tidy (l :: lines) -> tidy (joinWith sep (l :: lines)).
Proof.
  revert l. induction lines as [|l2 lines IH]; intros l Hall.
  - by apply Forall_cons in Hall as [Hl _].
  - apply Forall_cons in Hall as [Hl Hall].
    change (joinWith sep (l :: l2 :: lines))
      with (l ++ [sep] ++ joinWith sep (l2 :: lines)).
    apply tidy_app; [done|by apply IH].
Qed.

Lemma trim_fixed x : tidy x -> trim x = x.
Proof.
  intros (c & d & u & v & E1 & E2 & Hc & Hd)%tidy_ends.
  unfold trim, trimEnd. rewrite E1. cbn [trimStart]. rewrite Hc.
  rewrite <- E1, E2, rev_app_distr. cbn [rev app trimStart]. rewrite Hd.
  change (d :: rev v) with (rev [d] ++ rev v).
  by rewrite <- rev_app_distr, rev_involutive.
Qed.

(** Empty, or every line is trimmed and not blank. *)
Definition tidyLines (content : jsstring) : Prop :=
  content = [] \/ Forall tidy (splitOn LF content).

Lemma joinWith_tidyLines lines :
  Forall (fun l => tidy l /\ noSep LF l) lines ->
  tidyLines (joinWith LF lines)
  /\ trim (joinWith LF lines) = joinWith LF lines.
Proof.
  intros Hall. destruct lines as [|l lines]; [by split; [left|]|].
  assert (Forall tidy (l :: lines)) as Ht.
  { eapply Forall_impl; [exact Hall|]. by intros x [? _]. }
  split.
  - right. rewrite splitOn_joinWith; [done|done|].
    eapply Forall_impl; [exact Hall|]. by intros x [_ ?].
  - by apply trim_fixed, joinWith_tidy.
Qed.

End LineFacts.

Section ImportShape.
Context `{UnicodeTables}.
Variable generateId : nat -> jsstring.

(** What the import leaves of a chapter: a title, and a content that is
    empty or made of trimmed, non-blank lines. *)
Definition wellShaped (ch : Chapter) : Prop :=
  chapterTitle ch <> [] /\ tidyLines (content ch).

Lemma cleanTitle_nonempty title index : cleanTitle title index <> [].
Proof.
  unfold cleanTitle.
  by destruct (trim (replaceFirst JUNK_TITLE_REGEX [] title)).
Qed.

Lemma removeHeader_Forall (P : jsstring -> Prop) header lines :
  Forall P lines -> Forall P (removeHeader header lines).
Proof. destruct header; [apply shiftIf_Forall|done]. Qed.

Lemma txtChapter_shape bookTitle header index raw ch :
  txtChapter bookTitle header index raw = Some ch -> wellShaped ch.
Proof.
  unfold txtChapter. destruct (0 <? length _)%nat; [|done].
  intros [= <-]. split; [apply cleanTitle_nonempty|]. cbn [content].
  apply joinWith_tidyLines, shiftIf_Forall, removeHeader_Forall,
    contentLines_tidy.
Qed.

Lemma epubChapter_shape bookTitle header raw :
  chapterTitle raw <> [] -> wellShaped (epubChapter bookTitle header raw).
Proof.
  intros Ht. split; [done|]. cbn [content epubChapter].
  apply joinWith_tidyLines, shiftIf_Forall, shiftIf_Forall,
    removeHeader_Forall, contentLines_tidy.
Qed.

Lemma txtChapters_shape bookTitle fileContent :
  Forall wellShaped (txtChapters generateId bookTitle fileContent).
Proof.
  unfold txtChapters. destruct (length _ <=? 1)%nat.
  - apply Forall_singleton. split; [done|]. cbn [content].
    destruct (joinWith_tidyLines
                (shiftIf (fun l => sameIgnoringCase l bookTitle)
                         (contentLines fileContent))) as [H1 H2].
    { apply shiftIf_Forall, contentLines_tidy. }
    unfold contentLines in H1, H2. by rewrite H2.
  - apply Forall_forall. intros ch Hch.
    apply list_elem_of_omap in Hch as (o & Ho & Hch). simpl in Hch. subst o.
    apply elem_of_lookup_imap in Ho as (i & raw & Hraw & _).
    symmetry in Hraw. by apply txtChapter_shape in Hraw.
Qed.

Lemma epubChapters_shape bookTitle items :
  Forall wellShaped (epubChapters generateId bookTitle items).
Proof.
  apply Forall_forall. intros ch Hch.
  apply epubChapters_origin in Hch
    as (_ & index & item & raw & _ & Hraw & _ & ->).
  apply epubChapter_shape. unfold chapterPromise in Hraw.
  destruct (loaded item); try done; injection Hraw as <-;
    apply cleanTitle_nonempty.
Qed.

End ImportShape.

(** X6: every chapter of a book that [parseFile] resolves to has a title
    that is not empty, and a content that is empty or whose lines (the
    pieces between line feeds) all are non-blank and free of white space
    at both ends. *)
Theorem parseFile_chapter_shape `{UnicodeTables} (generateId : nat -> jsstring)
    (file : File) (book : Book) :
  parseFile generateId file = Resolved book ->
  Forall (fun ch => chapterTitle ch <> []
                    /\ (content ch = []
                        \/ Forall (fun l => allWhite l = false
                                     /\ startsOrEndsWithWhiteSpace l = false)
                             (splitOn LF (content ch))))
         (chapters book).
Proof.
  unfold parseFile.
  destruct (eqs (extensionOf (name file)) (js "txt")).
  - unfold parseTxt. destruct (text file) as [fileContent|]; [|done].
    destruct (isEmpty fileContent); [done|]. intros [= <-].
    apply txtChapters_shape.
  - destruct (eqs (extensionOf (name file)) (js "epub")).
    + unfold parseEpub. destruct (epub file) as [| | |c]; try done.
      destruct (_ && _); [done|]. intros [= <-]. apply epubChapters_shape.
    + by destruct (eqs (extensionOf (name file)) (js "mobi")).
Qed.

Definition talesFile : File :=
  txtFile "Tales.txt"
    ("Chapter 1" ++ newline ++ "  Once upon a time.  " ++ newline ++ newline
     ++ " The end." ++ newline ++ "Chapter 2" ++ newline ++ "Again.").

Definition talesBook : Book :=
  {| id := js "c2"; title := js "Tales"; author := None; coverImage := None;
     chapters :=
       [ {| chapterId := js "c0"; chapterTitle := js "Chapter 1";
            content := js ("Once upon a time." ++ newline ++ "The end.") |};
         {| chapterId := js "c1"; chapterTitle := js "Chapter 2";
            content := js "Again." |} ];
     lastPosition := None |}.

Lemma parseFile_chapter_shape_witness :
  Forall (fun ch => chapterTitle ch <> []
                    /\ (content ch = []
                        \/ Forall (fun l => allWhite l = false
                                     /\ startsOrEndsWithWhiteSpace l = false)
                             (splitOn LF (content ch))))
         (chapters talesBook).
Proof.
  apply (parseFile_chapter_shape (H := asciiTables)
           (fun n => js "c" ++ numberToString (N.of_nat n))
           talesFile talesBook).
  vm_compute. reflexivity.
Defined.

(** ** The import: which chapters are left *)

Section BodyLines.

Lemma trimStart_white w x :
  allWhite w = true -> trimStart (w ++ x) = trimStart x.
Proof.
  induction w as [|c w IH]; [done|]. cbn [allWhite forallb app trimStart].
  intros [Hc Hw]%andb_prop. rewrite Hc. by apply IH.
Qed.

Lemma trimStart_app_kept x w :
  trimStart x <> [] -> trimStart (x ++ w) = trimStart x ++ w.
Proof.
  induction x as [|c x IH]; [done|]. cbn [app trimStart].
  destruct (isWhiteSpace c); [apply IH|done].
Qed.

Lemma trim_white_prefix w x : allWhite w = true -> trim (w ++ x) = trim x.
Proof. intros Hw. unfold trim. by rewrite trimStart_white. Qed.

Lemma trim_white_suffix x w : allWhite w = true -> trim (x ++ w) = trim x.
Proof.
  intros Hw. unfold trim, trimEnd.
  destruct (trimStart x) as [|c t] eqn:E.
  - apply trimStart_nil in E.
    assert (trimStart (x ++ w) = []) as ->; [|done].
    apply trimStart_nil. by rewrite allWhite_app, E, Hw.
  - rewrite trimStart_app_kept by by rewrite E.
    rewrite E, rev_app_distr, trimStart_white; [done|].
    by rewrite allWhite_rev.
Qed.

(** The lines of [a ++ b]: those of [a], the last of them going on with
    the first line of [b], and the other lines of [b]. *)
Lemma splitOn_app_lines sep a b :
  exists init lst first rest,
    splitOn sep a = init ++ [lst]
    /\ splitOn sep b = first :: rest
    /\ splitOn sep (a ++ b) = init ++ (lst ++ first) :: rest.
Proof.
  induction a as [|c a (init & lst & first & rest & Ha & Hb & Hab)].
  - destruct (splitOn sep b) as [|first rest] eqn:E;
      [by apply splitOn_nonempty in E|].
    by exists [], [], first, rest.
  - cbn [app splitOn]. rewrite Ha, Hab. destruct (c =? sep)%N.
    + by exists ([] :: init), lst, first, rest.
    + destruct init as [|i init].
      * by exists [], (c :: lst), first, rest.
      * by exists ((c :: i) :: init), lst, first, rest.
Qed.

Lemma splitOn_white sep w :
  allWhite w = true -> Forall (fun l => allWhite l = true) (splitOn sep w).
Proof.
  induction w as [|c w IH]; [by repeat constructor|].
  cbn [allWhite forallb splitOn]. intros [Hc Hw]%andb_prop.
  specialize (IH Hw). destruct (c =? sep)%N; [by constructor|].
  destruct (splitOn sep w) as [|l ls]; [by repeat constructor; cbn; rewrite Hc|].
  apply Forall_cons in IH as [Hl Hls]. constructor; [|done].
  cbn [allWhite forallb]. by rewrite Hc.
Qed.

(** The lines that are not blank, each trimmed. *)
Definition nonBlankLines (lines : list jsstring) : list jsstring :=
  List.filter (fun l => negb (isEmpty l)) (List.map trim lines).

Lemma nonBlankLines_app l1 l2 :
  nonBlankLines (l1 ++ l2) = nonBlankLines l1 ++ nonBlankLines l2.
Proof. unfold nonBlankLines. by rewrite List.map_app, List.filter_app. Qed.

Lemma nonBlankLines_white lines :
  Forall (fun l => allWhite l = true) lines -> nonBlankLines lines = [].
Proof.
  induction 1 as [|l lines Hl _ IH]; [done|].
  unfold nonBlankLines in *. cbn [List.map List.filter].
  apply trim_nil in Hl. by rewrite Hl.
Qed.

Lemma nonBlankLines_cons l lines :
  nonBlankLines (l :: lines) = nonBlankLines [l] ++ nonBlankLines lines.
Proof. apply (nonBlankLines_app [l] lines). Qed.

Lemma nonBlankLines_one l l' :
  trim l = trim l' -> nonBlankLines [l] = nonBlankLines [l'].
Proof. unfold nonBlankLines. cbn [List.map]. by intros ->. Qed.

End BodyLines.

Section ImportChapters.
Context `{UnicodeTables}.
Variable generateId : nat -> jsstring.

Lemma contentLines_lines content :
  contentLines content = nonBlankLines (splitOn LF content).
Proof. reflexivity. Qed.

Lemma contentLines_white_prefix w s :
  allWhite w = true -> contentLines (w ++ s) = contentLines s.
Proof.
  intros Hw. rewrite !contentLines_lines.
  destruct (splitOn_app_lines LF w s)
    as (init & lst & first & rest & Ha & Hb & ->).
  pose proof (splitOn_white LF w Hw) as Hall. rewrite Ha in Hall.
  apply Forall_app in Hall as [Hinit [Hlst _]%Forall_cons].
  rewrite Hb, nonBlankLines_app, (nonBlankLines_white init) by done.
  rewrite (nonBlankLines_cons (lst ++ first) rest).
  rewrite (nonBlankLines_cons first rest). cbn [app].
  f_equal. apply nonBlankLines_one. by apply trim_white_prefix.
Qed.

Lemma contentLines_white_suffix s w :
  allWhite w = true -> contentLines (s ++ w) = contentLines s.
Proof.
  intros Hw. rewrite !contentLines_lines.
  destruct (splitOn_app_lines LF s w)
    as (init & lst & first & rest & -> & Hb & ->).
  pose proof (splitOn_white LF w Hw) as Hall. rewrite Hb in Hall.
  apply Forall_cons in Hall as [Hfirst Hrest].
  rewrite !nonBlankLines_app. f_equal.
  rewrite (nonBlankLines_cons (lst ++ first) rest).
  rewrite (nonBlankLines_white rest), app_nil_r by done.
  apply nonBlankLines_one. by apply trim_white_suffix.
Qed.

Lemma contentLines_trim s : contentLines (trim s) = contentLines s.
Proof.
  destruct (trim_split s) as (w1 & w2 & E & H1 & H2). rewrite E at 2.
  by rewrite contentLines_white_prefix, contentLines_white_suffix.
Qed.

(** In the words of the specification: the content lines of a part, that
    is what follows its first line (the provisional title), each line
    trimmed and the blank ones left out. *)
Definition bodyLines (part : jsstring) : list jsstring :=
  nonBlankLines (tail (splitOn LF part)).

(** In the words of the specification: the first content line of the
    first two parts, when both have one, the two are identical and it is
    longer than 5. *)
Definition runningHeader (parts : list jsstring) : option jsstring :=
  match parts with
  | first :: second :: _ =>
      match head (bodyLines first), head (bodyLines second) with
      | Some a, Some b =>
          if bool_decide (a = b /\ 5 < len a) then Some a else None
      | _, _ => None
      end
  | _ => None
  end.

(** Something is left of the content lines once the running header, if
    it comes first, and then the book title, if it comes first (case
    ignored), are taken away: there are three lines or more; or two, but
    not the header followed by the title; or one that is neither the
    header nor the title. *)
Definition keepsContent (bookTitle : jsstring) (header : option jsstring)
    (lines : list jsstring) : Prop :=
  match lines with
  | [] => False
  | [a] => header <> Some a /\ toLowerCase a <> toLowerCase bookTitle
  | [a; b] =>
      ~ (header = Some a /\ toLowerCase b = toLowerCase bookTitle)
  | _ :: _ :: _ :: _ => True
  end.

Lemma rawChapter_lines index part :
  contentLines (content (rawChapterOfPart generateId index part))
  = bodyLines part.
Proof.
  unfold rawChapterOfPart, bodyLines.
  pose proof (splitOn_noSep LF part) as Hall.
  destruct (splitOn LF part) as [|first lines] eqn:E;
    [by apply splitOn_nonempty in E|].
  cbn [content tail]. rewrite contentLines_trim, contentLines_lines.
  destruct lines as [|l lines]; [done|].
  rewrite splitOn_joinWith; [done|done|].
  by apply Forall_cons in Hall as [_ ?].
Qed.

Lemma getFirstContentLine_head content :
  getFirstContentLine content = head (contentLines content).
Proof.
  unfold getFirstContentLine, contentLines.
  induction (splitOn LF content) as [|l lines IH]; [done|].
  cbn [List.find List.map List.filter].
  by destruct (negb (isEmpty (trim l))).
Qed.

Lemma repeatingHeaderOf_parts parts :
  repeatingHeaderOf (imap (rawChapterOfPart generateId) parts)
  = runningHeader parts.
Proof.
  destruct parts as [|first [|second parts]]; [done|done|].
  cbn [imap repeatingHeaderOf runningHeader]. unfold compose.
  rewrite !getFirstContentLine_head, !rawChapter_lines.
  destruct (head (bodyLines first)) as [a|]; [|done].
  destruct (head (bodyLines second)) as [b|].
  - destruct (bool_decide_reflect (Some b = Some a)) as [[= ->]|Hne].
    + rewrite andb_true_r. destruct (len a >? 5) eqn:Hlen.
      * rewrite andb_true_r.
        rewrite bool_decide_eq_true_2 by (split; [done|lia]).
        destruct a; [done|done].
      * rewrite andb_false_r. rewrite bool_decide_eq_false_2; [done|].
        intros [_ ?]. lia.
    + rewrite andb_false_r. rewrite bool_decide_eq_false_2; [done|].
      intros [-> _]. done.
  - rewrite andb_false_r. done.
Qed.

Lemma txtChapter_kept bookTitle header index raw :
  keepsContent bookTitle header (contentLines (content raw)) ->
  exists ch,
    txtChapter bookTitle header index raw = Some ch
    /\ chapterId ch = chapterId raw.
Proof.
  unfold txtChapter, keepsContent, removeHeader, shiftIf, sameIgnoringCase,
    eqs.
  destruct (contentLines (content raw)) as [|a [|b [|c lines]]]; [done| | |].
  - intros [Hh Ht]. destruct header as [h|].
    + rewrite (bool_decide_eq_false_2 (h = a)) by congruence.
      rewrite bool_decide_eq_false_2 by done. by eexists.
    + rewrite bool_decide_eq_false_2 by done. by eexists.
  - intros Hn. destruct header as [h|].
    + destruct (bool_decide_reflect (h = a)) as [->|Hne].
      * rewrite bool_decide_eq_false_2; [by eexists|].
        intros Hb. by apply Hn.
      * destruct (bool_decide _); by eexists.
    + destruct (bool_decide _); by eexists.
  - intros _. destruct header as [h|].
    + destruct (bool_decide (h = a)); destruct (bool_decide _); by eexists.
    + destruct (bool_decide _); by eexists.
Qed.

(** The condition is the exact one: no other part is kept. *)
Lemma txtChapter_dropped bookTitle header index raw :
  ~ keepsContent bookTitle header (contentLines (content raw)) ->
  txtChapter bookTitle header index raw = None.
Proof.
  unfold txtChapter, keepsContent, removeHeader, shiftIf, sameIgnoringCase,
    eqs.
  destruct (contentLines (content raw)) as [|a [|b [|c lines]]].
  - by destruct header.
  - intros Hn. destruct header as [h|].
    + destruct (bool_decide_reflect (h = a)) as [->|Hne]; [done|].
      destruct (bool_decide_reflect (toLowerCase a = toLowerCase bookTitle))
        as [E|E]; [done|].
      destruct Hn. split; [congruence|done].
    + destruct (bool_decide_reflect (toLowerCase a = toLowerCase bookTitle))
        as [E|E]; [done|].
      by destruct Hn.
  - intros Hn. destruct header as [h|].
    + destruct (bool_decide_reflect (h = a)) as [->|Hne].
      * destruct (bool_decide_reflect
                    (toLowerCase b = toLowerCase bookTitle)) as [E|E]; [done|].
        destruct Hn. by intros [_ ?].
      * destruct Hn. intros [[= ?] _]. congruence.
    + destruct Hn. by intros [? _].
  - intros Hn. by destruct Hn.
Qed.

Lemma txtChapters_many bookTitle fileContent :
  (1 < length (partsOf fileContent))%nat ->
  txtChapters generateId bookTitle fileContent
  = omap (fun x => x)
      (imap (txtChapter bookTitle (runningHeader (partsOf fileContent)))
            (imap (rawChapterOfPart generateId) (partsOf fileContent))).
Proof.
  intros Hlt. unfold txtChapters. apply Nat.leb_gt in Hlt. rewrite Hlt.
  by rewrite repeatingHeaderOf_parts.
Qed.

(** A part that keeps content gives a chapter, with the identifier made
    for that part. *)
Lemma txtChapters_kept bookTitle fileContent index part :
  (1 < length (partsOf fileContent))%nat ->
  partsOf fileContent !! index = Some part ->
  keepsContent bookTitle (runningHeader (partsOf fileContent))
               (bodyLines part) ->
  exists ch,
    ch ∈ txtChapters generateId bookTitle fileContent
    /\ chapterId ch = generateId index.
Proof.
  intros Hlt Hpart Hkeep. rewrite txtChapters_many by done.
  rewrite <- (rawChapter_lines index part) in Hkeep.
  destruct (txtChapter_kept bookTitle (runningHeader (partsOf fileContent))
              index (rawChapterOfPart generateId index part) Hkeep)
    as (ch & Hch & Hid).
  exists ch. split.
  - apply list_elem_of_omap. exists (Some ch). split; [|done].
    apply list_elem_of_lookup. exists index.
    by rewrite !list_lookup_imap, Hpart; cbn; rewrite Hch.
  - rewrite Hid. unfold rawChapterOfPart.
    by destruct (splitOn LF part).
Qed.

Lemma omap_length_le {A B} (f : A -> option B) (l : list A) :
  (length (omap f l) <= length l)%nat.
Proof.
  induction l as [|x l IH]; [done|]. cbn [omap list_omap length].
  destruct (f x); cbn [length]; lia.
Qed.

Lemma txtChapters_length bookTitle fileContent :
  (1 < length (partsOf fileContent))%nat ->
  (length (txtChapters generateId bookTitle fileContent)
   <= length (partsOf fileContent))%nat.
Proof.
  intros Hlt. rewrite txtChapters_many by done.
  etrans; [apply omap_length_le|]. by rewrite !length_imap.
Qed.

(** C1, as amended: when [parseFile] resolves to a book, the file went
    down the TXT or the EPUB path.  On the EPUB path the book has a
    chapter whenever the spine has an item, and none when the spine is
    empty.  On the TXT path the book has exactly one chapter when the
    split at the chapter headings leaves at most one non-blank part.
    With more parts every chapter has a non-empty content, there are no
    more chapters than parts, and every part that keeps content after
    the cleanup gives a chapter, so the book has a chapter as soon as
    one part keeps content. *)
Theorem parseFile_chapters (file : File) (book : Book) :
  parseFile generateId file = Resolved book ->
  (eqs (extensionOf (name file)) (js "txt") = true
   /\ exists fileContent,
        text file = Some fileContent
        /\ chapters book
           = txtChapters generateId (withoutExtension (name file)) fileContent
        /\ ((length (partsOf fileContent) <= 1)%nat ->
            length (chapters book) = 1%nat)
        /\ ((1 < length (partsOf fileContent))%nat ->
            Forall (fun ch => content ch <> []) (chapters book)
            /\ (length (chapters book) <= length (partsOf fileContent))%nat
            /\ (forall index part,
                  partsOf fileContent !! index = Some part ->
                  keepsContent (title book)
                               (runningHeader (partsOf fileContent))
                               (bodyLines part) ->
                  chapters book <> []
                  /\ exists ch,
                       ch ∈ chapters book
                       /\ chapterId ch = generateId index)))
  \/ (eqs (extensionOf (name file)) (js "epub") = true
      /\ exists c,
           epub file = EpubLoaded c
           /\ chapters book
              = epubChapters generateId (epubTitle file c) (spineItems c)
           /\ (spineItems c <> [] -> chapters book <> [])
           /\ (spineItems c = [] -> chapters book = [])).
Proof.
  unfold parseFile.
  destruct (eqs (extensionOf (name file)) (js "txt")) eqn:Etxt.
  - intros Hp. left. split; [done|]. unfold parseTxt in Hp.
    destruct (text file) as [fileContent|]; [|done].
    destruct (isEmpty fileContent); [done|]. injection Hp as <-.
    exists fileContent. cbn [chapters title]. split; [done|]. split; [done|].
    split.
    + intros Hle. unfold txtChapters. apply Nat.leb_le in Hle.
      by rewrite Hle.
    + intros Hlt. split; [|split].
      * unfold txtChapters. apply Nat.leb_gt in Hlt. rewrite Hlt.
        apply Forall_forall. intros ch Hch.
        apply list_elem_of_omap in Hch as (x & Hx & ->).
        apply elem_of_lookup_imap in Hx as (index & raw & Hx & _).
        symmetry in Hx. by apply txtChapter_content in Hx.
      * by apply txtChapters_length.
      * intros index part Hpart Hkeep.
        destruct (txtChapters_kept (withoutExtension (name file))
                    fileContent index part Hlt Hpart Hkeep)
          as (ch & Hch & Hid).
        split; [|by exists ch]. intros Hnil. rewrite Hnil in Hch.
        by apply elem_of_nil in Hch.
  - destruct (eqs (extensionOf (name file)) (js "epub")) eqn:Eepub.
    + intros Hp. right. split; [done|].
      destruct (epub file) as [| | |c] eqn:E;
        try (unfold parseEpub in Hp; rewrite E in Hp; discriminate).
      rewrite (parseEpub_loaded generateId file c E) in Hp.
      destruct (_ && _) eqn:F; [done|]. injection Hp as <-.
      exists c. cbn [chapters]. split; [done|]. split; [done|]. split.
      * intros Hs Hc. apply length_pos_iff in Hs. by rewrite Hs, Hc in F.
      * intros Hs. rewrite Hs. reflexivity.
    + destruct (eqs (extensionOf (name file)) (js "mobi")); done.
Qed.

End ImportChapters.

(** The two chapters of [talesFile] both keep content: the book that
    [parseFile] resolves to has a chapter for the second part, with the
    identifier made for it. *)
Lemma parseFile_chapters_witness :
  chapters talesBook <> []
  /\ (length (chapters talesBook) <= 2)%nat
  /\ exists ch, ch ∈ chapters talesBook /\ chapterId ch = js "c1".
Proof.
  destruct (parseFile_chapters (H := asciiTables)
              (fun n => js "c" ++ numberToString (N.of_nat n))
              talesFile talesBook)
    as [(_ & fileContent & Htext & _ & _ & Hmany)|[Hepub _]].
  - vm_compute. reflexivity.
  - injection Htext as <-.
    destruct Hmany as (_ & Hlen & Hkept); [vm_compute; lia|].
    destruct (Hkept 1%nat (js ("Chapter 2" ++ newline ++ "Again.")))
      as [Hne Hch].
    + vm_compute. reflexivity.
    + vm_compute. split; discriminate.
    + split; [exact Hne|]. split; [|exact Hch].
      etrans; [exact Hlen|]. vm_compute. lia.
  - vm_compute in Hepub. discriminate Hepub.
Defined.

(** C1 as stated fails: an EPUB whose spine is empty passes the guard
    of the rejection, which asks for a spine with an item, and resolves
    to a book without chapters. *)
Lemma parseFile_chapters_counterexample :
  ~ (forall (H : UnicodeTables) (generateId : nat -> jsstring)
            (file : File) (book : Book),
       parseFile generateId file = Resolved book -> chapters book <> []).
Proof.
  intros Hc.
  by apply (Hc asciiTables (fun _ => js "id") (epubFile []) _
              parseFile_empty_spine).
Qed.

(** ** The book store: memory and table *)

Section StoreSync.
Import BookStore.

(** The list in memory shows what the table holds: no id twice, and a
    record is stored, under its id, exactly when it is in the list. *)
Definition inSync (st : state) : Prop :=
  NoDup (id <$> books st)
  /\ forall k b, table st !! k = Some b <-> k = KString (id b) /\ b ∈ books st.

Lemma ids_replaced b l : id <$> replaced b l = id <$> l.
Proof.
  unfold replaced. induction l as [|x l IH]; [done|].
  cbn [List.map fmap list_fmap]. cbn [fmap] in IH. rewrite IH. f_equal.
  unfold eqs. destruct (bool_decide_reflect (id x = id b)); congruence.
Qed.

Lemma ids_repositioned bookId p l : id <$> repositioned bookId p l = id <$> l.
Proof.
  unfold repositioned. induction l as [|x l IH]; [done|].
  cbn [List.map fmap list_fmap]. cbn [fmap] in IH. rewrite IH. f_equal.
  by destruct (eqs (id x) bookId).
Qed.

Lemma elem_of_map {A B} (f : A -> B) l y :
  y ∈ List.map f l <-> exists x, y = f x /\ x ∈ l.
Proof.
  rewrite list_elem_of_In, in_map_iff. split.
  - intros (x & <- & Hx). exists x. by rewrite list_elem_of_In.
  - intros (x & -> & Hx). exists x. by rewrite <- list_elem_of_In.
Qed.

Lemma elem_of_removed bookId l b :
  b ∈ removed bookId l <-> b ∈ l /\ id b <> bookId.
Proof.
  unfold removed. rewrite list_elem_of_In, filter_In, <- list_elem_of_In.
  unfold eqs. rewrite negb_true_iff, bool_decide_eq_false. done.
Qed.

Lemma inSync_id st b b' :
  inSync st -> b ∈ books st -> b' ∈ books st -> id b = id b' -> b = b'.
Proof.
  intros [_ Hs] Hb Hb' E.
  assert (table st !! KString (id b) = Some b) as H1 by by apply Hs.
  assert (table st !! KString (id b) = Some b') as H2.
  { rewrite E. by apply Hs. }
  congruence.
Qed.

Lemma inSync_add newBook st :
  inSync st -> inSync (addBook Healthy newBook st).
Proof.
  intros Hsync. pose proof Hsync as [Hnd Hs].
  unfold addBook, writeAdd, Dexie.add, bookKey, attempt.
  destruct (table st !! KString (id newBook)) as [old|] eqn:E; [done|].
  split; cbn [books table].
  - unfold appended. rewrite fmap_app. apply NoDup_app. split; [done|].
    split; [|apply NoDup_singleton].
    intros i (b & -> & Hb)%list_elem_of_fmap [= Hi]%list_elem_of_singleton.
    assert (table st !! KString (id b) = Some b) as Hl by by apply Hs.
    rewrite <- Hi in E. congruence.
  - intros k b. unfold appended. rewrite elem_of_app, list_elem_of_singleton.
    destruct (decide (k = KString (id newBook))) as [->|Hk].
    + rewrite lookup_insert_eq. split.
      * intros [= ->]. split; [done|by right].
      * intros [[= Hid] [Hb| ->]]; [|done].
        assert (table st !! KString (id b) = Some b) as Hl by by apply Hs.
        rewrite Hid in E. congruence.
    + rewrite lookup_insert_ne by done. rewrite Hs. split.
      * intros [-> Hb]. split; [done|by left].
      * intros [-> [Hb| ->]]; [done|done].
Qed.

Lemma inSync_delete bookId st :
  inSync st -> inSync (deleteBook Healthy bookId st).
Proof.
  intros [Hnd Hs]. unfold deleteBook, writeDelete, Dexie.delete, attempt.
  split; cbn [books table].
  - eapply sublist_NoDup; [exact Hnd|]. apply fmap_sublist, filter_sublist.
  - intros k b. rewrite elem_of_removed.
    destruct (decide (k = KString bookId)) as [->|Hk].
    + rewrite lookup_delete_eq. split; [done|]. by intros [[= ->] [_ ?]].
    + rewrite lookup_delete_ne by done. rewrite Hs. split.
      * intros [-> Hb]. split; [done|]. split; [done|]. congruence.
      * by intros [-> [Hb _]].
Qed.

Lemma inSync_position bookId p st :
  inSync st -> inSync (updateBookPosition Healthy bookId p st).
Proof.
  intros Hsync. pose proof Hsync as [Hnd Hs].
  unfold updateBookPosition, writePosition, Dexie.update, attempt.
  split; cbn [books table]; [by rewrite ids_repositioned|].
  intros k b. unfold repositioned. rewrite elem_of_map.
  destruct (decide (k = KString bookId)) as [->|Hk].
  - rewrite lookup_alter_eq. split.
    + destruct (table st !! KString bookId) as [old|] eqn:E; [|done].
      intros [= <-]. apply Hs in E as [[= ->] Hold]. split; [done|].
      exists old. split; [|done]. unfold eqs. by rewrite bool_decide_eq_true_2.
    + intros [[= Hid] (x & Hbx & Hx)]. unfold eqs in Hbx.
      destruct (bool_decide_reflect (id x = bookId)) as [Hx'|Hx']; subst b.
      * rewrite <- Hx'.
        assert (table st !! KString (id x) = Some x) as -> by by apply Hs.
        done.
      * done.
  - rewrite lookup_alter_ne by done. rewrite Hs. split.
    + intros [-> Hb]. split; [done|]. exists b. split; [|done].
      unfold eqs. rewrite bool_decide_eq_false_2; [done|congruence].
    + intros [-> (x & -> & Hx)]. unfold eqs in *.
      destruct (bool_decide_reflect (id x = bookId)) as [Hid|Hid]; [|done].
      cbn [id withPosition] in Hk. congruence.
Qed.

Lemma inSync_update updatedBook st :
  inSync st -> id updatedBook ∈ id <$> books st ->
  inSync (updateBook Healthy updatedBook st).
Proof.
  intros [Hnd Hs] (old & Hid & Hold)%list_elem_of_fmap.
  unfold updateBook, writePut, Dexie.put, bookKey, attempt.
  split; cbn [books table]; [by rewrite ids_replaced|].
  intros k b. unfold replaced. rewrite elem_of_map. unfold eqs.
  destruct (decide (k = KString (id updatedBook))) as [->|Hk].
  - rewrite lookup_insert_eq. split.
    + intros [= <-]. split; [done|]. exists old. split; [|done].
      by rewrite bool_decide_eq_true_2.
    + intros [[= Hb] (x & Hbx & Hx)].
      destruct (bool_decide_reflect (id x = id updatedBook)); subst b;
        [done|congruence].
  - rewrite lookup_insert_ne by done. rewrite Hs. split.
    + intros [-> Hb]. split; [done|]. exists b. split; [|done].
      rewrite bool_decide_eq_false_2; [done|congruence].
    + intros [-> (x & -> & Hx)].
      destruct (bool_decide_reflect (id x = id updatedBook)); done.
Qed.

Lemma update_absent updatedBook st :
  id updatedBook ∉ id <$> books st ->
  ~ inSync (updateBook Healthy updatedBook st).
Proof.
  intros Hid [_ Hs]. apply Hid.
  unfold updateBook, writePut, Dexie.put, bookKey, attempt in Hs.
  cbn [books table] in Hs.
  destruct (Hs (KString (id updatedBook)) updatedBook) as [Hin _].
  destruct Hin as [_ Hin]; [apply lookup_insert_eq|].
  unfold replaced in Hin. apply elem_of_map in Hin as (x & Hx & Hin).
  apply list_elem_of_fmap. exists x. split; [|done]. unfold eqs in Hx.
  destruct (bool_decide_reflect (id x = id updatedBook)); congruence.
Qed.

Lemma inSync_faulty m st : inSync st -> inSync (run Faulty m st).
Proof. by destruct m. Qed.

(** X7: starting from a list in memory that shows what the table holds,
    every operation of the store leaves it so, with one exception:
    [updateBook] for a book whose id is not in the list stores the book
    (the table's [put] adds it) while the list in memory is left without
    it. *)
Theorem store_stays_in_sync (io : storage) (m : mutation) (st : state) :
  inSync st ->
  (inSync (run io m st)
   <-> io = Faulty
       \/ forall updatedBook,
            m = Update updatedBook -> id updatedBook ∈ id <$> books st).
Proof.
  intros Hsync. split.
  - intros Hafter. destruct io; [right|by left].
    intros b ->. destruct (decide (id b ∈ id <$> books st)) as [|Hn]; [done|].
    by destruct (update_absent b st Hn).
  - intros [->|Hm]; [by apply inSync_faulty|].
    destruct io; [|by apply inSync_faulty]. destruct m as [b|i|b|i p].
    + by apply inSync_add.
    + by apply inSync_delete.
    + by apply inSync_update, Hm.
    + by apply inSync_position.
Qed.

Lemma store_stays_in_sync_witness :
  inSync (run Healthy (Add sampleBook) emptyStore)
  <-> Healthy = Faulty
      \/ forall updatedBook,
           Add sampleBook = Update updatedBook ->
           id updatedBook ∈ id <$> books emptyStore.
Proof.
  apply (store_stays_in_sync Healthy (Add sampleBook) emptyStore).
  split; [constructor|]. intros k b. cbn [table books emptyStore].
  rewrite lookup_empty.
  split; [done|]. intros [_ Hb]. by apply elem_of_nil in Hb.
Defined.

(** Every record is stored under its own id. *)
Definition keyed (t : gmap key Book) : Prop :=
  forall k b, t !! k = Some b -> k = KString (id b).

Lemma inSync_keyed st : inSync st -> keyed (table st).
Proof. intros [_ Hs] k b Hk. by apply Hs in Hk as [-> _]. Qed.

Lemma run_keyed io m st : keyed (table st) -> keyed (table (run io m st)).
Proof.
  intros Hk. destruct (run_attempt io m st) as [text ->].
  unfold attempt. destruct (durableWrite io m (table st)) as [t'|] eqn:E;
    [|done].
  cbn [table]. destruct io; [|by destruct m].
  destruct m as [b|i|b|i p]; cbn in E.
  - unfold writeAdd, Dexie.add, bookKey in E.
    destruct (table st !! KString (id b)); [done|]. injection E as <-.
    intros k x [[<- <-]|[_ Hx]]%lookup_insert_Some; [done|by apply Hk].
  - injection E as <-.
    intros k x [_ Hx]%lookup_delete_Some. by apply Hk.
  - injection E as <-.
    intros k x [[<- <-]|[_ Hx]]%lookup_insert_Some; [done|by apply Hk].
  - injection E as <-. intros k x Hx.
    destruct (decide (k = KString i)) as [->|Hne].
    + rewrite lookup_alter_eq in Hx.
      destruct (table st !! KString i) as [old|] eqn:Eo; [|done].
      injection Hx as <-. by apply Hk in Eo.
    + rewrite lookup_alter_ne in Hx by done. by apply Hk.
Qed.

Lemma loadBooks_keyed st :
  keyed (table st) -> inSync (loadBooks Healthy st).
Proof.
  intros Hk. unfold loadBooks, toArray, inSync. cbn [books table].
  set (R := fun p q : key * Book => Is_true (keyLeb p.1 q.1)).
  pose proof (merge_sort_Permutation R (map_to_list (table st))) as Hp.
  split.
  - rewrite <- list_fmap_compose, Hp.
    apply NoDup_fmap_2_strong; [|apply NoDup_map_to_list].
    intros [k1 b1] [k2 b2] H1%elem_of_map_to_list H2%elem_of_map_to_list.
    cbn. intros Hid. apply Hk in H1 as E1. apply Hk in H2 as E2. subst k1 k2.
    rewrite Hid in H1. f_equal; congruence.
  - intros k b. rewrite list_elem_of_fmap. split.
    + intros Hkb. split; [by apply Hk|]. exists (k, b). split; [done|].
      rewrite Hp. by apply elem_of_map_to_list.
    + intros [-> ([k' b'] & -> & Hin)]. rewrite Hp in Hin.
      apply elem_of_map_to_list in Hin. cbn. by apply Hk in Hin as E; subst.
Qed.

(** X8: starting from a list in memory that shows what the table holds,
    whatever operations of the store follow, with the storage working or
    not, a [loadBooks] that goes through brings the list back to what the
    table holds, and leaves the table as it is. *)
Theorem loadBooks_resyncs (ops : list (storage * mutation)) (st : state) :
  inSync st ->
  inSync (loadBooks Healthy (foldl (fun s op => run op.1 op.2 s) st ops))
  /\ table (loadBooks Healthy (foldl (fun s op => run op.1 op.2 s) st ops))
     = table (foldl (fun s op => run op.1 op.2 s) st ops).
Proof.
  intros Hsync. split; [|done]. apply loadBooks_keyed.
  apply inSync_keyed in Hsync. revert st Hsync.
  induction ops as [|[io m] ops IH]; intros st Hk; [done|].
  cbn [foldl]. by apply IH, run_keyed.
Qed.

Lemma loadBooks_resyncs_witness :
  inSync (loadBooks Healthy
            (foldl (fun s op => run op.1 op.2 s) emptyStore
                   [(Healthy, Add sampleBook); (Healthy, Update sampleBook);
                    (Faulty, Delete (js "b1"))]))
  /\ table (loadBooks Healthy
              (foldl (fun s op => run op.1 op.2 s) emptyStore
                     [(Healthy, Add sampleBook); (Healthy, Update sampleBook);
                      (Faulty, Delete (js "b1"))]))
     = table (foldl (fun s op => run op.1 op.2 s) emptyStore
                    [(Healthy, Add sampleBook); (Healthy, Update sampleBook);
                     (Faulty, Delete (js "b1"))]).
Proof.
  apply (loadBooks_resyncs
           [(Healthy, Add sampleBook); (Healthy, Update sampleBook);
            (Faulty, Delete (js "b1"))] emptyStore).
  split; [constructor|]. intros k b. cbn [table books emptyStore].
  rewrite lookup_empty.
  split; [done|]. intros [_ Hb]. by apply elem_of_nil in Hb.
Defined.

End StoreSync.

(** ** Restoring a backup: when it goes through *)

Section RestoreOutcome.
Import RestoreFlows.

(** [bulkAdd] on a working storage goes through exactly when every record
    has a key, no key comes twice and none is taken. *)
Lemma bulkAdd_is_Some {V} (keyOf : V -> option key) vs :
  forall t,
    is_Some (bulkAdd keyOf Healthy t vs)
    <-> Forall (fun v => is_Some (keyOf v)) vs
        /\ NoDup (omap keyOf vs)
        /\ (forall k, k ∈ omap keyOf vs -> t !! k = None).
Proof.
  induction vs as [|v vs IH]; intros t; cbn [bulkAdd omap list_omap].
  - split; [|done]. intros _. split; [done|]. split; [constructor|].
    by intros k ?%elem_of_nil.
  - unfold add. destruct (keyOf v) as [k|] eqn:Hk.
    + destruct (t !! k) eqn:Ht.
      * split; [by intros [? ?]|]. intros (_ & _ & Hfree).
        rewrite Hfree in Ht; [done|left].
      * rewrite IH. split.
        -- intros (Hall & Hnd & Hfree). split; [by constructor|].
           split.
           ++ constructor; [|done]. intros Hin. apply Hfree in Hin.
              by rewrite lookup_insert_eq in Hin.
           ++ intros k' [->|Hin]%elem_of_cons; [done|].
              apply Hfree in Hin. by apply lookup_insert_None in Hin as [? _].
        -- intros (Hall & Hnd & Hfree). apply Forall_cons in Hall as [_ Hall].
           apply NoDup_cons in Hnd as [Hnew Hnd]. split; [done|].
           split; [done|]. intros k' Hin. apply lookup_insert_None.
           split; [apply Hfree; by right|]. by intros ->.
    + split; [by intros [? ?]|]. intros (Hall & _).
      apply Forall_cons in Hall as [[? Hv] _]. congruence.
Qed.

Lemma replaceBooks_is_Some bulkAddUntyped io items t :
  is_Some (replaceBooks bulkAddUntyped io (JArray items) t)
  <-> io = Healthy
      /\ Forall (fun v => is_Some (recordKey v)) items
      /\ NoDup (omap recordKey items).
Proof.
  unfold replaceBooks, transaction, clear. destruct io.
  - rewrite bulkAdd_is_Some. split.
    + by intros (? & ? & _).
    + intros (_ & ? & ?). split; [done|]. split; [done|].
      intros k _. apply lookup_empty.
  - split; [by intros [? ?]|]. by intros [? _].
Qed.

(** In plain words, what can be a key: a text, a number, or an array
    whose items all can. *)
Fixpoint isKey (v : json) : bool :=
  match v with
  | JString _ | JNumber _ => true
  | JArray items => forallb isKey items
  | JUndefined | JNull | JBool _ | JObject _ => false
  end.

(** The [id] of a record; [undefined] where there is none to read. *)
Definition idOf (v : json) : json :=
  match v with
  | JObject fields => fieldOf (js "id") fields
  | _ => JUndefined
  end.

(** A key as the value it comes from. *)
Fixpoint valueOfKey (k : key) : json :=
  match k with
  | KNumber n => JNumber n
  | KString s => JString s
  | KArray items => JArray (List.map valueOfKey items)
  end.

Definition keysOfValues (vs : list json) : option (list key) :=
  (fix keysOf (vs : list json) : option (list key) :=
     match vs with
     | [] => Some []
     | v' :: vs' =>
         match keyOfValue v', keysOf vs' with
         | Some k, Some ks => Some (k :: ks)
         | _, _ => None
         end
     end) vs.

Lemma keyOfValue_array items :
  keyOfValue (JArray items) = option_map KArray (keysOfValues items).
Proof. reflexivity. Qed.

Lemma keysOfValues_cons v vs :
  keysOfValues (v :: vs)
  = match keyOfValue v, keysOfValues vs with
    | Some k, Some ks => Some (k :: ks)
    | _, _ => None
    end.
Proof. reflexivity. Qed.

Lemma keyOfValue_isKey : forall v, is_Some (keyOfValue v) <-> isKey v = true.
Proof.
  fix IH 1. intros [| |b|n|s|items|fields].
  1-3, 7: clear IH; split; [by intros [? ?]|done].
  1-2: clear IH; split; [done|by eexists].
  assert (Forall (fun v => is_Some (keyOfValue v) <-> isKey v = true) items)
    as Hitems.
  { induction items as [|v items IHitems]; constructor;
      [apply IH|exact IHitems]. }
  clear IH. rewrite keyOfValue_array. cbn [isKey].
  assert (is_Some (keysOfValues items) <-> forallb isKey items = true) as Hi.
  { induction Hitems as [|v items Hv _ IHitems]; [by split; [|eexists]|].
    rewrite keysOfValues_cons. cbn [forallb]. rewrite andb_true_iff.
    rewrite <- Hv, <- IHitems.
    destruct (keyOfValue v) as [k|], (keysOfValues items) as [ks|];
      split; try (by intros [? ?]); try (by intros [[? ?] [? ?]]). }
  rewrite <- Hi. by destruct (keysOfValues items); split; intros [? ?].
Qed.

Lemma keyOfValue_valueOfKey :
  forall v k, keyOfValue v = Some k -> valueOfKey k = v.
Proof.
  fix IH 1. intros [| |b|n|s|items|fields] k.
  1-3, 7: clear IH; done.
  1-2: clear IH; by intros [= <-].
  assert (Forall (fun v => forall k, keyOfValue v = Some k
                                     -> valueOfKey k = v) items) as Hitems.
  { induction items as [|v items IHitems]; constructor;
      [apply IH|exact IHitems]. }
  clear IH. rewrite keyOfValue_array.
  destruct (keysOfValues items) as [ks|] eqn:E; [|done].
  intros [= <-]. cbn [valueOfKey]. f_equal.
  revert ks E. induction Hitems as [|v items Hv _ IHitems]; intros ks.
  - by intros [= <-].
  - rewrite keysOfValues_cons.
    destruct (keyOfValue v) as [k|] eqn:Ev; [|done].
    destruct (keysOfValues items) as [ks'|]; [|done].
    intros [= <-]. cbn [List.map]. f_equal; [by apply Hv|by apply IHitems].
Qed.

Lemma valueOfKey_keyOfValue : forall k, keyOfValue (valueOfKey k) = Some k.
Proof.
  fix IH 1. intros [n|s|items]; [reflexivity|reflexivity|].
  assert (Forall (fun k => keyOfValue (valueOfKey k) = Some k) items)
    as Hitems.
  { induction items as [|k items IHitems]; constructor;
      [apply IH|exact IHitems]. }
  clear IH. cbn [valueOfKey]. rewrite keyOfValue_array.
  assert (keysOfValues (List.map valueOfKey items) = Some items) as ->;
    [|done].
  induction Hitems as [|k items Hk _ IHitems]; [done|].
  cbn [List.map]. by rewrite keysOfValues_cons, Hk, IHitems.
Qed.

#[local] Instance valueOfKey_inj : Inj (=) (=) valueOfKey.
Proof.
  intros k1 k2 E. apply (f_equal keyOfValue) in E.
  rewrite !valueOfKey_keyOfValue in E. by injection E.
Qed.

Lemma recordKey_idOf v : recordKey v = keyOfValue (idOf v).
Proof. by destruct v. Qed.

Lemma ids_of_keys items :
  Forall (fun v => is_Some (recordKey v)) items ->
  idOf <$> items = valueOfKey <$> omap recordKey items.
Proof.
  induction 1 as [|v items [k Hv] _ IH]; [done|].
  cbn [fmap list_fmap omap list_omap]. rewrite Hv. cbn [fmap list_fmap].
  cbn [fmap] in IH. rewrite <- IH. f_equal.
  rewrite recordKey_idOf in Hv. by apply keyOfValue_valueOfKey in Hv.
Qed.

(** The records all have a key and no key comes twice exactly when
    every [id] can be a key and no [id] comes twice. *)
Lemma recordKeys_ids items :
  Forall (fun v => is_Some (recordKey v)) items
  /\ NoDup (omap recordKey items)
  <-> Forall (fun v => isKey (idOf v) = true) items
      /\ NoDup (idOf <$> items).
Proof.
  assert (Forall (fun v => is_Some (recordKey v)) items
          <-> Forall (fun v => isKey (idOf v) = true) items) as Hall.
  { apply Forall_iff. intros v.
    by rewrite recordKey_idOf, keyOfValue_isKey. }
  rewrite <- Hall. split; intros [Hk Hnd]; (split; [done|]).
  - rewrite (ids_of_keys items Hk). by apply (NoDup_fmap valueOfKey).
  - rewrite (ids_of_keys items Hk) in Hnd.
    by apply (NoDup_fmap valueOfKey) in Hnd.
Qed.

(** X9: a restore in the Settings view ends in success exactly when the
    server answers with an object whose [books] is a list and whose
    [settings] is a non-null object, the storage takes writes, every
    record of the list is an object whose [id] is a key (a text, a
    number, or an array of keys), and no two records have the same [id].
    In every other case nothing is changed: the table and the settings
    are those from before, and no reload is scheduled. *)
Theorem settingsPage_restore_outcome
    (restoreBackup : jsstring -> jsstring -> fetchResult)
    (bulkAddUntyped : json -> gmap key json -> option (gmap key json))
    (io ls : storage) (ttsServerUrl backupId : jsstring) (st : persisted) :
  (error (settingsPage_handleRestore restoreBackup bulkAddUntyped io ls
            ttsServerUrl backupId st) = None
   <-> exists data items settings,
         restoreBackup ttsServerUrl backupId = Resolves data
         /\ property data (js "books") = Some (JArray items)
         /\ property data (js "settings") = Some settings
         /\ isNonNullObject settings = true
         /\ io = Healthy
         /\ Forall (fun v => isKey (idOf v) = true) items
         /\ NoDup (idOf <$> items))
  /\ (error (settingsPage_handleRestore restoreBackup bulkAddUntyped io ls
               ttsServerUrl backupId st) <> None ->
      after (settingsPage_handleRestore restoreBackup bulkAddUntyped io ls
               ttsServerUrl backupId st) = st
      /\ reloadScheduled (settingsPage_handleRestore restoreBackup
                            bulkAddUntyped io ls ttsServerUrl backupId st)
         = false).
Proof.
  unfold settingsPage_handleRestore, restoreWith.
  destruct (restoreBackup ttsServerUrl backupId) as [message|data].
  { split; [|done]. split; [done|]. by intros (? & ? & ? & ? & _). }
  destruct (property data (js "books")) as [books|] eqn:Eb.
  2:{ split; [|done]. split; [done|].
      intros (d & i & s & [= <-] & Hb & _). congruence. }
  destruct (property data (js "settings")) as [settings|] eqn:Es.
  2:{ split; [|done]. split; [done|].
      intros (d & i & s & [= <-] & _ & Hs & _). congruence. }
  unfold settingsPageAccepts.
  destruct (isArray books && isNonNullObject settings) eqn:Ha.
  - apply andb_prop in Ha as [Hb Hs]. destruct books; try done.
    unfold replaceAll.
    pose proof (replaceBooks_is_Some bulkAddUntyped io items (table st)) as Hr.
    destruct (replaceBooks bulkAddUntyped io (JArray items) (table st))
      as [t'|].
    + split; [|done]. split; [|done]. intros _.
      destruct Hr as [Hr _]. destruct Hr as (Hio & Hkeys); [done|].
      apply recordKeys_ids in Hkeys as [Hall Hnd].
      by exists data, items, settings.
    + split; [|done]. split; [done|].
      intros (d & i & s & [= <-] & Hb' & Hs' & _ & Hio & Hall & Hnd).
      rewrite Eb in Hb'. injection Hb' as <-.
      destruct Hr as [_ Hr]. destruct Hr; [|done].
      split; [done|]. by apply recordKeys_ids.
  - split; [|done]. split; [done|].
    intros (d & i & s & [= <-] & Hb' & Hs' & Hs & _).
    rewrite Eb in Hb'. injection Hb' as ->.
    rewrite Es in Hs'. injection Hs' as ->.
    by rewrite Hs in Ha.
Qed.

End RestoreOutcome.

(** A backup whose records have an array, a number and a text for
    [id], and one whose second record has [true] for it. *)
Definition mixedKeysPayload : json :=
  JObject [(js "books",
            JArray [JObject [(js "id", JArray [JNumber 1; JString (js "a")])];
                    JObject [(js "id", JNumber 7)];
                    bookRecord "b2" "Second"]);
           (js "settings", JObject [])].

Definition badKeyPayload : json :=
  JObject [(js "books",
            JArray [bookRecord "b2" "Second";
                    JObject [(js "id", JBool true)]]);
           (js "settings", JObject [])].

Lemma settingsPage_restore_outcome_witness :
  RestoreFlows.error
    (RestoreFlows.settingsPage_handleRestore
       (fun _ _ => RestoreFlows.Resolves mixedKeysPayload) (fun _ _ => None)
       Healthy Healthy (js "https://tts") (js "backup-1") samplePersisted)
  = None
  /\ RestoreFlows.after
       (RestoreFlows.settingsPage_handleRestore
          (fun _ _ => RestoreFlows.Resolves badKeyPayload) (fun _ _ => None)
          Healthy Healthy (js "https://tts") (js "backup-1") samplePersisted)
     = samplePersisted.
Proof.
  split.
  - apply (proj1 (settingsPage_restore_outcome
                    (fun _ _ => RestoreFlows.Resolves mixedKeysPayload)
                    (fun _ _ => None) Healthy Healthy (js "https://tts")
                    (js "backup-1") samplePersisted)).
    exists mixedKeysPayload,
      [JObject [(js "id", JArray [JNumber 1; JString (js "a")])];
       JObject [(js "id", JNumber 7)]; bookRecord "b2" "Second"],
      (JObject []).
    split; [reflexivity|]. split; [reflexivity|]. split; [reflexivity|].
    split; [reflexivity|]. split; [reflexivity|].
    split; [by repeat constructor|].
    vm_compute. repeat (constructor; [set_solver|]). constructor.
  - apply (proj2 (settingsPage_restore_outcome
                    (fun _ _ => RestoreFlows.Resolves badKeyPayload)
                    (fun _ _ => None) Healthy Healthy (js "https://tts")
                    (js "backup-1") samplePersisted)).
    vm_compute. discriminate.
Defined.

(** ** The TTS client: what is sent *)

Section RequestFacts.
Context `{UnicodeTables}.

(** The only white space is the space character, and no two stand side by
    side. *)
Fixpoint singleSpaced (s : jsstring) : bool :=
  match s with
  | [] => true
  | c :: t =>
      match t with
      | [] => negb (isWhiteSpace c) || (c =? SPACE)%N
      | d :: _ =>
          negb (isWhiteSpace c) || ((c =? SPACE)%N && negb (isWhiteSpace d))
      end && singleSpaced t
  end.

Lemma collapseFrom_shape inRun s :
  singleSpaced (collapseFrom inRun s) = true
  /\ (inRun = true ->
      match collapseFrom inRun s with
      | d :: _ => isWhiteSpace d = false
      | [] => True
      end).
Proof.
  revert inRun. induction s as [|c s IH]; intros inRun; [done|].
  cbn [collapseFrom]. destruct (isWhiteSpace c) eqn:Hc.
  - destruct (IH true) as [IH1 IH2]. specialize (IH2 eq_refl).
    destruct inRun; [done|]. split; [|done].
    cbn [singleSpaced]. rewrite IH1.
    destruct (collapseFrom true s) as [|d t]; [done|].
    by rewrite IH2.
  - destruct (IH false) as [IH1 _]. split; [|done].
    cbn [singleSpaced]. rewrite IH1, Hc.
    by destruct (collapseFrom false s).
Qed.

Lemma singleSpaced_suffix a b :
  singleSpaced (a ++ b) = true -> singleSpaced b = true.
Proof.
  induction a as [|c a IH]; [done|]. cbn [app singleSpaced].
  intros [_ Ht]%andb_prop. by apply IH.
Qed.

Lemma singleSpaced_prefix a b :
  singleSpaced (a ++ b) = true -> singleSpaced a = true.
Proof.
  induction a as [|c a IH]; [done|]. cbn [app singleSpaced].
  intros [Hc Ht]%andb_prop. rewrite (IH Ht), andb_true_r.
  destruct a as [|d a]; [|done]. cbn [app] in Hc.
  destruct b as [|d b]; [done|].
  apply orb_prop in Hc as [->|[-> _]%andb_prop]; [done|apply orb_true_r].
Qed.

Lemma sanitize_collapse text :
  sanitize text = trim (collapseRuns (replaceUnwanted text)).
Proof.
  unfold sanitize, replaceAll, replaceAllWith.
  rewrite replaceAll_white; [done|lia].
Qed.

Lemma sanitize_shape text :
  singleSpaced (sanitize text) = true
  /\ startsOrEndsWithWhiteSpace (sanitize text) = false.
Proof.
  rewrite sanitize_collapse. split; [|apply trim_clean].
  destruct (trim_split (collapseRuns (replaceUnwanted text)))
    as (w1 & w2 & E & _ & _).
  destruct (collapseFrom_shape false (replaceUnwanted text)) as [Hs _].
  unfold collapseRuns in *. rewrite E in Hs.
  by apply singleSpaced_suffix, singleSpaced_prefix in Hs.
Qed.

End RequestFacts.

(** X10: whatever the text, the server URL and the network do,
    [fetchSpeechFromLocalServer] issues at most one request; a request goes
    to [serverUrl/speak] with a server URL that is not empty, and its text
    is not empty, has no white space at either end, and holds no white
    space other than single space characters: no line break, no tab, no
    two spaces in a row. *)
Theorem fetchSpeech_request_shape `{UnicodeTables}
    (serverUrl : jsstring) (net : request -> fetchOutcome) (text : jsstring) :
  (length (fetchSpeechFromLocalServer serverUrl net text).1 <= 1)%nat
  /\ Forall (fun req =>
               url req = serverUrl ++ js "/speak" /\ serverUrl <> []
               /\ bodyText req = sanitize text
               /\ bodyText req <> []
               /\ singleSpaced (bodyText req) = true
               /\ startsOrEndsWithWhiteSpace (bodyText req) = false)
       (fetchSpeechFromLocalServer serverUrl net text).1.
Proof.
  unfold fetchSpeechFromLocalServer.
  destruct (isEmpty text || (len (trim text) =? 0));
    [cbn [fst length]; split; [lia|constructor]|].
  destruct serverUrl as [|u serverUrl];
    [cbn [fst length isEmpty]; split; [lia|constructor]|]. cbn [isEmpty].
  destruct (sanitize text) as [|c s] eqn:E;
    [cbn [fst length isEmpty]; split; [lia|constructor]|].
  cbn [isEmpty fst].
  split; [done|]. apply Forall_singleton. cbn [url bodyText].
  destruct (sanitize_shape text) as [H1 H2]. rewrite E in H1, H2.
  by repeat split.
Qed.

(** ** The reader: the audio queue *)

Section SchedulerFacts.
Import ReaderPage.

(** The indices of the queue. *)
Definition queued (p : page) : list nat := index <$> audioRequestQueue p.

Lemma existsb_index (i : nat) (q : list AudioRequest) :
  existsb (fun r => index r =? i)%nat q = true <-> i ∈ index <$> q.
Proof.
  rewrite existsb_exists, list_elem_of_fmap. split.
  - intros (r & Hr & E%Nat.eqb_eq). exists r.
    split; [done|by apply list_elem_of_In].
  - intros (r & -> & Hr). exists r. rewrite Nat.eqb_refl.
    split; [by apply list_elem_of_In|done].
Qed.

Lemma candidate_Some isFreshLoad chunks p i r :
  candidate isFreshLoad chunks p i = Some r
  <-> r = {| index := i; loaderId := audioLoaderId p;
             text := default [] (chunks !! i) |}
      /\ wanted isFreshLoad (audioInfoRef p !! i) = true
      /\ (i ∉ queued p) /\ activelyProcessingIndex p <> Some i.
Proof.
  unfold candidate, queued. rewrite <- existsb_index.
  destruct (wanted _ _); cbn [andb];
    [|split; [done|by intros (_ & ? & _)]].
  destruct (existsb _ _); cbn [andb negb];
    [split; [done|by intros (_ & _ & ? & _)]|].
  destruct (bool_decide_reflect (activelyProcessingIndex p = Some i));
    cbn [negb].
  - split; [done|by intros (_ & _ & _ & ?)].
  - split; [by intros [= <-]|by intros (-> & _)].
Qed.

Lemma candidates_sublist isFreshLoad chunks p l :
  index <$> omap (candidate isFreshLoad chunks p) l `sublist_of` l.
Proof.
  induction l as [|i l IH]; [done|]. cbn [omap list_omap].
  destruct (candidate isFreshLoad chunks p i) as [r|] eqn:E.
  - apply candidate_Some in E as [-> _]. cbn. by constructor.
  - by constructor.
Qed.

Lemma filter_keeps_all {A} (f : A -> bool) l :
  (forall x, x ∈ l -> f x = true) -> List.filter f l = l.
Proof.
  induction l as [|x l IH]; [done|]. intros Hall. cbn [List.filter].
  rewrite Hall by left. f_equal. apply IH. intros y Hy. apply Hall. by right.
Qed.

(** The requests the scheduler makes for a window. *)
Definition newRequestsOf (startIndex : nat) (chunks : list jsstring)
    (isFreshLoad : bool) (p : page) : list AudioRequest :=
  omap (candidate isFreshLoad chunks p)
       (seq startIndex
            (Nat.min (startIndex + AUDIO_PRELOAD_COUNT) (length chunks)
             - startIndex)).

Lemma newRequestsOf_spec startIndex chunks isFreshLoad p r :
  r ∈ newRequestsOf startIndex chunks isFreshLoad p
  <-> (startIndex <= index r < startIndex + AUDIO_PRELOAD_COUNT)%nat
      /\ chunks !! index r = Some (text r)
      /\ loaderId r = audioLoaderId p
      /\ wanted isFreshLoad (audioInfoRef p !! index r) = true
      /\ (index r ∉ queued p)
      /\ activelyProcessingIndex p <> Some (index r).
Proof.
  unfold newRequestsOf. rewrite list_elem_of_omap. split.
  - intros (i & Hi & (-> & Hw & Hq & Ha)%candidate_Some).
    apply elem_of_seq in Hi. cbn [index text loaderId].
    split; [lia|]. split; [|done].
    destruct (lookup_lt_is_Some_2 chunks i) as [c Hc]; [lia|].
    by rewrite Hc.
  - intros (Hi & Hc & Hl & Hw & Hq & Ha). exists (index r). split.
    + apply elem_of_seq. apply lookup_lt_Some in Hc. lia.
    + apply candidate_Some. split; [|done]. rewrite Hc. cbn.
      destruct r. cbn in *. by subst.
Qed.

Lemma scheduleAudioLoading_queue startIndex isPriority chunks isFreshLoad p :
  isChapterLoadCancelled p = false ->
  audioRequestQueue
    (scheduleAudioLoading startIndex isPriority chunks isFreshLoad p)
  = if isPriority
    then newRequestsOf startIndex chunks isFreshLoad p ++ audioRequestQueue p
    else audioRequestQueue p ++ newRequestsOf startIndex chunks isFreshLoad p.
Proof.
  intros Hc. unfold scheduleAudioLoading. rewrite Hc.
  fold (newRequestsOf startIndex chunks isFreshLoad p).
  destruct (newRequestsOf startIndex chunks isFreshLoad p) as [|r rs] eqn:E.
  { cbn. destruct isPriority; [done|by rewrite app_nil_r]. }
  cbn [length Nat.ltb Nat.leb]. cbn [audioRequestQueue setQueue bumpQueueUpdated].
  destruct isPriority; [|done]. f_equal.
  apply filter_keeps_all. intros x Hx. apply negb_true_iff.
  apply not_true_is_false. intros Hex. apply existsb_index in Hex.
  apply list_elem_of_fmap in Hex as (n & Hn & Hin). rewrite <- E in Hin.
  apply newRequestsOf_spec in Hin as (_ & _ & _ & _ & Hq & _).
  apply Hq. rewrite <- Hn. unfold queued. by apply list_elem_of_fmap_2.
Qed.

(** X11: a cancelled chapter load makes the scheduler do nothing.
    Otherwise the requests already queued all stay, in their order, and
    the new requests are put before them (priority) or after them; the new
    requests go by rising index within the [AUDIO_PRELOAD_COUNT] indices
    from [startIndex]; and an index gets a request exactly when it is in
    that window and holds a chunk, its audio is wanted (a fresh load, or no
    info, or idle, or error), it is not queued already and it is not the
    index being processed; the request carries that chunk and the current
    loader id. *)
Theorem scheduleAudioLoading_spec (startIndex : nat) (isPriority : bool)
    (chunks : list jsstring) (isFreshLoad : bool) (p : page) :
  (isChapterLoadCancelled p = true ->
   scheduleAudioLoading startIndex isPriority chunks isFreshLoad p = p)
  /\ (isChapterLoadCancelled p = false ->
      exists newRequests,
        audioRequestQueue
          (scheduleAudioLoading startIndex isPriority chunks isFreshLoad p)
        = (if isPriority then newRequests ++ audioRequestQueue p
           else audioRequestQueue p ++ newRequests)
        /\ index <$> newRequests `sublist_of` seq startIndex AUDIO_PRELOAD_COUNT
        /\ forall r,
             r ∈ newRequests
             <-> (startIndex <= index r < startIndex + AUDIO_PRELOAD_COUNT)%nat
                 /\ chunks !! index r = Some (text r)
                 /\ loaderId r = audioLoaderId p
                 /\ wanted isFreshLoad (audioInfoRef p !! index r) = true
                 /\ (index r ∉ index <$> audioRequestQueue p)
                 /\ activelyProcessingIndex p <> Some (index r)).
Proof.
  split.
  - intros Hc. unfold scheduleAudioLoading. by rewrite Hc.
  - intros Hc. exists (newRequestsOf startIndex chunks isFreshLoad p).
    split; [by apply scheduleAudioLoading_queue|].
    split; [|apply newRequestsOf_spec].
    etrans; [apply candidates_sublist|].
    set (n := (Nat.min (startIndex + AUDIO_PRELOAD_COUNT) (length chunks)
               - startIndex)%nat).
    replace AUDIO_PRELOAD_COUNT with (n + (AUDIO_PRELOAD_COUNT - n))%nat
      by (unfold n; lia).
    rewrite seq_app. by apply sublist_inserts_r.
Qed.

End SchedulerFacts.

(** ** The reader: the queue over time

    The page changes one event at a time: a render that brings the refs
    up to date, an effect, a handler, or the settling of an [await] of a
    [processQueue] that is under way.  [pending] lists the calls of
    [processQueue] that are waiting, with what they wait for. *)

Section QueueEvents.
Import ReaderPage.

Inductive stage := Fetching | Decoding.

Record world := { pg : page; pending : list (launched * stage) }.

Definition initialWorld : world := {| pg := initialPage; pending := [] |}.

Inductive event :=
| Rendered
| PreloadEffect (currentlyPlayingIndex : option nat)
                (sentenceChunks : list jsstring)
| QueueEffect
| FetchSettled (n : nat) (rejected context : option thrown)
| DecodeSettled (n : nat) (rejected playback : option thrown)
| ChapterEffect (book : Book) (currentChapterIndex : Z)
| ChapterCleanup
| GlobalPlayPause (currentlyPlayingIndex resumeIndex : option nat)
                  (sentenceChunks : list jsstring)
| PlayPauseSentence (currentlyPlayingIndex : option nat) (i : nat)
                    (sentenceChunks : list jsstring).

Definition onPage (f : page -> page) (w : world) : world :=
  {| pg := f (pg w); pending := pending w |}.

(** One event; [None] when it cannot happen: nothing waits at the place
    named, or the splitter does not return. *)
Definition step (e : event) (w : world) : option world :=
  match e with
  | Rendered => Some (onPage syncAudioInfoRef w)
  | PreloadEffect playing chunks => Some (onPage (preloadEffect playing chunks) w)
  | QueueEffect =>
      let '(p, started) := queueEffect (pg w) in
      Some {| pg := p;
              pending := pending w
                         ++ match started with
                            | Some l => [(l, Fetching)]
                            | None => []
                            end |}
  | FetchSettled n rejected context =>
      match pending w !! n with
      | Some (l, Fetching) =>
          let '(p, goesOn) := afterFetch l rejected context (pg w) in
          Some {| pg := p;
                  pending := if goesOn then <[n := (l, Decoding)]> (pending w)
                             else base.delete n (pending w) |}
      | _ => None
      end
  | DecodeSettled n rejected playback =>
      match pending w !! n with
      | Some (l, Decoding) =>
          Some {| pg := afterDecode l rejected playback (pg w);
                  pending := base.delete n (pending w) |}
      | _ => None
      end
  | ChapterEffect book currentChapterIndex =>
      match chapterEffect book currentChapterIndex (pg w) with
      | Some p => Some {| pg := p; pending := pending w |}
      | None => None
      end
  | ChapterCleanup => Some (onPage chapterCleanup w)
  | GlobalPlayPause playing resumeIndex chunks =>
      Some (onPage (handleGlobalPlayPause playing resumeIndex chunks) w)
  | PlayPauseSentence playing i chunks =>
      Some (onPage (handlePlayPauseSentence playing i chunks) w)
  end.

Fixpoint runEvents (events : list event) (w : world) : option world :=
  match events with
  | [] => Some w
  | e :: rest =>
      match step e w with
      | Some w' => runEvents rest w'
      | None => None
      end
  end.

Ltac page_simpl :=
  cbn [audioLoaderId audioRequestQueue activelyProcessingIndex
       activelyProcessingController isChapterLoadCancelled isProcessingQueue
       audioInfoRef audioInfo audioError queueUpdated controllersCreated
       setQueue setLoaderId setProcessing setCancelled setIsProcessing
       setAudioInfoRef setAudioInfo setAudioError bumpQueueUpdated
       countController syncAudioInfoRef pg pending onPage] in *.

(** The queue is in order: no index twice, every request made under the
    current loader id, the index being processed not queued, and nothing
    queued once the chapter load is cancelled. *)
Definition tidyRefs (queue : list AudioRequest) (currentLoaderId : nat)
    (processing : option nat) (cancelled : bool) : Prop :=
  NoDup (index <$> queue)
  /\ Forall (fun r => loaderId r = currentLoaderId) queue
  /\ (forall i, processing = Some i -> i ∉ index <$> queue)
  /\ (cancelled = true -> queue = []).

Definition tidyQueue (p : page) : Prop :=
  tidyRefs (audioRequestQueue p) (audioLoaderId p)
           (activelyProcessingIndex p) (isChapterLoadCancelled p).

(** The refs of the call under way say what waits: nothing, or the one
    call whose controller and index they hold. *)
Definition oneAtATime (w : world) : Prop :=
  match pending w with
  | [] => isProcessingQueue (pg w) = false
          /\ activelyProcessingController (pg w) = None
          /\ activelyProcessingIndex (pg w) = None
  | [(Launched controller request, _)] =>
      isProcessingQueue (pg w) = true
      /\ activelyProcessingController (pg w) = Some controller
      /\ activelyProcessingIndex (pg w) = Some (index request)
  | _ => False
  end.

Lemma tidyRefs_empty currentLoaderId processing cancelled :
  tidyRefs [] currentLoaderId processing cancelled.
Proof.
  split; [constructor|]. split; [constructor|].
  split; [|done]. intros i _. apply not_elem_of_nil.
Qed.

Lemma tidyRefs_tail r rest currentLoaderId processing :
  tidyRefs (r :: rest) currentLoaderId processing false ->
  tidyRefs rest currentLoaderId (Some (index r)) false
  /\ forall processing', processing' = processing \/ processing' = None ->
       tidyRefs rest currentLoaderId processing' false.
Proof.
  intros (Hnd & Hall & Hp & _). cbn [fmap list_fmap] in *.
  apply NoDup_cons in Hnd as [Hr Hnd]. apply Forall_cons in Hall as [_ Hall].
  split.
  - split; [done|]. split; [done|]. split; [|done]. by intros i [= <-].
  - intros p' Hp'. split; [done|]. split; [done|]. split; [|done].
    intros i Hi. destruct Hp' as [->| ->]; [|done].
    specialize (Hp i Hi). intros Hin. apply Hp. by right.
Qed.

(** The scheduler changes the queue and the counter of queue updates,
    nothing else. *)
Lemma scheduleAudioLoading_frame startIndex isPriority chunks isFreshLoad p :
  exists queue n,
    scheduleAudioLoading startIndex isPriority chunks isFreshLoad p
    = {| audioLoaderId := audioLoaderId p; audioRequestQueue := queue;
         activelyProcessingIndex := activelyProcessingIndex p;
         activelyProcessingController := activelyProcessingController p;
         isChapterLoadCancelled := isChapterLoadCancelled p;
         isProcessingQueue := isProcessingQueue p;
         audioInfoRef := audioInfoRef p; audioInfo := audioInfo p;
         audioError := audioError p; queueUpdated := n;
         controllersCreated := controllersCreated p |}.
Proof.
  destruct p as [lid q pi pc c ip ir ai ae qu cc].
  unfold scheduleAudioLoading. page_simpl.
  destruct c; [by eexists _, _|].
  destruct (0 <? length _)%nat; by eexists _, _.
Qed.

Lemma scheduleAudioLoading_tidy startIndex isPriority chunks isFreshLoad p :
  tidyQueue p ->
  tidyQueue (scheduleAudioLoading startIndex isPriority chunks isFreshLoad p).
Proof.
  intros Ht.
  destruct (isChapterLoadCancelled p) eqn:Hc.
  { unfold scheduleAudioLoading. by rewrite Hc. }
  pose proof (scheduleAudioLoading_queue startIndex isPriority chunks
                isFreshLoad p Hc) as Hq.
  destruct (scheduleAudioLoading_frame startIndex isPriority chunks
              isFreshLoad p) as (queue & n & E).
  rewrite E in Hq |- *. unfold tidyQueue in *. page_simpl. rewrite Hc.
  destruct Ht as (Hnd & Hall & Hp & _).
  set (new := newRequestsOf startIndex chunks isFreshLoad p) in *.
  assert (NoDup (index <$> new)) as Hnew.
  { eapply sublist_NoDup; [apply NoDup_seq|apply candidates_sublist]. }
  assert (forall r, r ∈ new ->
            loaderId r = audioLoaderId p
            /\ (index r ∉ index <$> audioRequestQueue p)
            /\ activelyProcessingIndex p <> Some (index r)) as Hspec.
  { intros r Hr. by apply newRequestsOf_spec in Hr as (_ & _ & ? & _ & ? & ?). }
  assert (tidyRefs (new ++ audioRequestQueue p) (audioLoaderId p)
                   (activelyProcessingIndex p) false) as Hpri.
  { split; [|split; [|split; [|done]]].
    - rewrite fmap_app. apply NoDup_app. split; [done|]. split; [|done].
      intros i (r & -> & Hr)%list_elem_of_fmap. by apply Hspec.
    - apply Forall_app. split; [|done]. apply Forall_forall.
      intros r Hr. by apply Hspec.
    - intros i Hi. rewrite fmap_app, elem_of_app.
      intros [(r & -> & Hr)%list_elem_of_fmap|Hin].
      + by apply Hspec in Hr as (_ & _ & ?).
      + by apply (Hp i). }
  subst queue. destruct isPriority; [done|].
  destruct Hpri as (H1 & H2 & H3 & _).
  split; [|split; [|split; [|done]]].
  - rewrite fmap_app. rewrite fmap_app in H1.
    by rewrite (Permutation_app_comm _ _).
  - apply Forall_app. apply Forall_app in H2. tauto.
  - intros i Hi. specialize (H3 i Hi). rewrite fmap_app, elem_of_app in *.
    tauto.
Qed.

Definition processingOf (p : page) : bool * option nat * option nat :=
  (isProcessingQueue p, activelyProcessingController p,
   activelyProcessingIndex p).

Lemma oneAtATime_frame p p' l :
  processingOf p' = processingOf p ->
  oneAtATime {| pg := p; pending := l |} ->
  oneAtATime {| pg := p'; pending := l |}.
Proof.
  unfold processingOf, oneAtATime. cbn [pg pending].
  by intros [= -> -> ->].
Qed.

Lemma scheduleAudioLoading_processing startIndex isPriority chunks isFreshLoad p :
  processingOf (scheduleAudioLoading startIndex isPriority chunks isFreshLoad p)
  = processingOf p.
Proof.
  destruct (scheduleAudioLoading_frame startIndex isPriority chunks
              isFreshLoad p) as (queue & n & ->).
  reflexivity.
Qed.

Lemma preloadEffect_inv playing chunks p :
  tidyQueue p ->
  tidyQueue (preloadEffect playing chunks p)
  /\ processingOf (preloadEffect playing chunks p) = processingOf p.
Proof.
  intros Ht. unfold preloadEffect. destruct playing as [i|]; [|done].
  destruct (length chunks =? 0)%nat; [done|].
  destruct (i + 1 <? length chunks)%nat; [|done].
  split; [by apply scheduleAudioLoading_tidy|].
  apply scheduleAudioLoading_processing.
Qed.

Lemma playFrom_inv startSentence chunks p :
  tidyQueue (playFrom startSentence chunks p)
  /\ processingOf (playFrom startSentence chunks p) = processingOf p.
Proof.
  unfold playFrom. split.
  - apply scheduleAudioLoading_tidy. unfold tidyQueue.
    destruct (bool_decide _); page_simpl; apply tidyRefs_empty.
  - rewrite scheduleAudioLoading_processing. by destruct (bool_decide _).
Qed.

Lemma chapterEffect_inv book currentChapterIndex p p' :
  chapterEffect book currentChapterIndex p = Some p' ->
  tidyQueue p ->
  tidyQueue p' /\ processingOf p' = processingOf p.
Proof.
  unfold chapterEffect. intros Hp Ht.
  destruct (_ <=? _); [by injection Hp as <-|].
  destruct (_ <? 0); [by injection Hp as <-|].
  destruct (chapters book !! _) as [currentChapter|]; [|by injection Hp as <-].
  destruct (splitTextIntoChunks _ _ _) as [chunks|]; [|done].
  destruct (len _ <? 15); injection Hp as <-.
  - split; [|done]. unfold tidyQueue. page_simpl. apply tidyRefs_empty.
  - split; [|by rewrite scheduleAudioLoading_processing].
    apply scheduleAudioLoading_tidy. unfold tidyQueue. page_simpl.
    apply tidyRefs_empty.
Qed.

Lemma catchBlock_inv l e p :
  tidyQueue p ->
  tidyQueue (catchBlock l e p)
  /\ processingOf (catchBlock l e p) = processingOf p.
Proof.
  intros Ht. destruct l as [controller request]. unfold catchBlock.
  destruct e as [|isTtsError message]; [done|].
  destruct (startsWith _ _); [done|].
  destruct (_ =? _)%nat; [|done].
  split; [|done]. unfold tidyQueue. page_simpl. apply tidyRefs_empty.
Qed.

Lemma finallyBlock_inv controller request p :
  tidyQueue p -> activelyProcessingController p = Some controller ->
  tidyQueue (finallyBlock (Launched controller request) p)
  /\ isProcessingQueue (finallyBlock (Launched controller request) p) = false
  /\ activelyProcessingController
       (finallyBlock (Launched controller request) p) = None
  /\ activelyProcessingIndex
       (finallyBlock (Launched controller request) p) = None.
Proof.
  intros (Hnd & Hall & Hp & Hc) Hctl. unfold finallyBlock. rewrite Hctl.
  rewrite bool_decide_eq_true_2 by done.
  destruct (_ && _); (split; [|done]); unfold tidyQueue; page_simpl;
    by repeat split.
Qed.

Definition inOrder (w : world) : Prop := tidyQueue (pg w) /\ oneAtATime w.

Lemma queueEffect_inv w p started :
  queueEffect (pg w) = (p, started) ->
  inOrder w ->
  inOrder {| pg := p;
             pending := pending w
                        ++ match started with
                           | Some l => [(l, Fetching)]
                           | None => []
                           end |}.
Proof.
  destruct w as [p0 l]. cbn [pg pending]. intros Hq [Ht Ho].
  cbn [pg pending] in Ht.
  assert (inOrder {| pg := p0; pending := l ++ [] |}) as Hsame.
  { rewrite app_nil_r. by split. }
  unfold queueEffect in Hq.
  destruct (_ && _ && _); [|injection Hq as <- <-; exact Hsame].
  unfold processQueue in Hq.
  destruct (isProcessingQueue p0) eqn:Hip;
    [injection Hq as <- <-; exact Hsame|].
  assert (l = []) as ->.
  { unfold oneAtATime in Ho. cbn [pg pending] in Ho.
    destruct l as [|[[c r] st] [|x l]]; [done| |done].
    destruct Ho as [Ho _]. congruence. }
  cbn [orb] in Hq. destruct (_ =? 0)%nat; [injection Hq as <- <-; by split|].
  cbn [orb] in Hq.
  destruct (isChapterLoadCancelled p0) eqn:Hc; [injection Hq as <- <-; by split|].
  destruct (audioRequestQueue p0) as [|request rest] eqn:Eq;
    [injection Hq as <- <-; by split|].
  unfold tidyQueue in Ht. rewrite Eq, Hc in Ht.
  destruct (tidyRefs_tail _ _ _ _ Ht) as [Hnext Hrest].
  unfold oneAtATime in Ho. cbn [pg pending] in Ho.
  destruct Ho as (_ & Hctl & Hidx).
  destruct (negb _); injection Hq as <- <-; cbn [app].
  - split; unfold tidyQueue, oneAtATime; page_simpl; [|done].
    rewrite Hc. apply Hrest. by left.
  - split; unfold tidyQueue, oneAtATime; page_simpl; [|done].
    by rewrite Hc.
Qed.

(** Where something waits there is one call, and it is the one at the
    head. *)
Lemma pending_one w n l st :
  oneAtATime w -> pending w !! n = Some (l, st) ->
  n = 0%nat /\ pending w = [(l, st)]
  /\ exists controller request,
       l = Launched controller request
       /\ activelyProcessingController (pg w) = Some controller.
Proof.
  unfold oneAtATime. destruct (pending w) as [|[[c r] st'] [|x rest]]; [done| |done].
  intros (_ & Hctl & _). destruct n as [|n]; [|done].
  intros [= <- <-]. split; [done|]. split; [done|]. by exists c, r.
Qed.

Lemma settled_inv controller request p p1 :
  tidyQueue p -> activelyProcessingController p = Some controller ->
  tidyQueue p1 -> processingOf p1 = processingOf p ->
  inOrder {| pg := finallyBlock (Launched controller request) p1;
             pending := [] |}.
Proof.
  intros Ht Hctl Ht1 [= _ Hc1 _]. rewrite <- Hc1 in Hctl.
  destruct (finallyBlock_inv controller request p1 Ht1 Hctl) as [H1 H2].
  split; [done|]. unfold oneAtATime. by cbn [pg pending].
Qed.

Lemma step_inOrder e w w' : step e w = Some w' -> inOrder w -> inOrder w'.
Proof.
  destruct w as [p l]. intros Hs [Ht Ho]. cbn [pg] in Ht.
  destruct e as [|playing chunks| |n rejected context|n rejected playback
                |book idx| |playing resumeIndex chunks|playing i chunks];
    cbn [step pg pending onPage] in Hs.
  - injection Hs as <-. split; [done|].
    by apply (oneAtATime_frame p).
  - injection Hs as <-.
    destruct (preloadEffect_inv playing chunks p Ht).
    split; [done|]. by apply (oneAtATime_frame p).
  - destruct (queueEffect p) as [p1 started] eqn:E. injection Hs as <-.
    by apply (queueEffect_inv {| pg := p; pending := l |}).
  - destruct (l !! n) as [[l0 [|]]|] eqn:En; try done.
    destruct (pending_one _ _ _ _ Ho En) as (-> & Hl & c & r & -> & Hctl).
    cbn [pg pending] in Hl, Hctl. subst l.
    unfold afterFetch in Hs.
    destruct rejected as [e|].
    + injection Hs as <-. cbn [base.delete].
      destruct (catchBlock_inv (Launched c r) e p Ht).
      by apply (settled_inv c r p).
    + destruct (negb _).
      * injection Hs as <-.
        destruct (catchBlock_inv (Launched c r)
                    (ErrorThrown false (js "Stale request after fetch")) p Ht).
        by apply (settled_inv c r p).
      * destruct context as [e|]; injection Hs as <-.
        -- destruct (catchBlock_inv (Launched c r) e p Ht).
           by apply (settled_inv c r p).
        -- split; [done|]. exact Ho.
  - destruct (l !! n) as [[l0 [|]]|] eqn:En; try done.
    destruct (pending_one _ _ _ _ Ho En) as (-> & Hl & c & r & -> & Hctl).
    cbn [pg pending] in Hl, Hctl. subst l. injection Hs as <-.
    unfold afterDecode.
    destruct rejected as [e|].
    + destruct (catchBlock_inv (Launched c r) e p Ht).
      by apply (settled_inv c r p).
    + destruct (negb _).
      * destruct (catchBlock_inv (Launched c r)
                    (ErrorThrown false (js "Stale request after decode")) p Ht).
        by apply (settled_inv c r p).
      * set (p1 := setAudioInfo _ p).
        assert (tidyQueue p1) as Ht1 by done.
        destruct playback as [e|].
        -- destruct (catchBlock_inv (Launched c r) e p1 Ht1) as [H1 H2].
           apply (settled_inv c r p); [done|done|done|].
           transitivity (processingOf p1); [exact H2|done].
        -- by apply (settled_inv c r p p1).
  - destruct (chapterEffect book idx p) as [p1|] eqn:E;
      [|done].
    injection Hs as <-. destruct (chapterEffect_inv _ _ _ _ E Ht).
    split; [done|]. by apply (oneAtATime_frame p).
  - injection Hs as <-. split.
    + unfold tidyQueue, chapterCleanup. page_simpl. apply tidyRefs_empty.
    + by apply (oneAtATime_frame p).
  - injection Hs as <-. unfold handleGlobalPlayPause.
    destruct playing; [by split|].
    destruct (playFrom_inv (default 0%nat resumeIndex) chunks p).
    split; [done|]. by apply (oneAtATime_frame p).
  - injection Hs as <-. unfold handlePlayPauseSentence.
    destruct (bool_decide _); [by split|].
    destruct (playFrom_inv i chunks p).
    split; [done|]. by apply (oneAtATime_frame p).
Qed.

Lemma runEvents_inOrder events w w' :
  runEvents events w = Some w' -> inOrder w -> inOrder w'.
Proof.
  revert w. induction events as [|e events IH]; intros w; cbn [runEvents].
  - by intros [= <-].
  - destruct (step e w) as [w1|] eqn:E; [|done].
    intros Hr Hw. apply (IH w1 Hr). by apply (step_inOrder e w).
Qed.

Lemma initialWorld_inOrder : inOrder initialWorld.
Proof. split; [apply tidyRefs_empty|done]. Qed.

(** X12: whatever the events since the page was mounted, no index is
    queued twice; every queued request was made under the current loader
    id (so the processor never finds a stale request at the head of the
    queue); at most one call of [processQueue] waits for a fetch or a
    decoding, the refs hold its controller and its index, and that index
    is not queued; with no call waiting the refs are cleared; and once the
    chapter load is cancelled the queue is empty. *)
Theorem queue_stays_in_order (events : list event) (w : world) :
  runEvents events initialWorld = Some w ->
  NoDup (index <$> audioRequestQueue (pg w))
  /\ Forall (fun r => loaderId r = audioLoaderId (pg w))
            (audioRequestQueue (pg w))
  /\ (length (pending w) <= 1)%nat
  /\ (forall controller request st,
        (Launched controller request, st) ∈ pending w ->
        isProcessingQueue (pg w) = true
        /\ activelyProcessingController (pg w) = Some controller
        /\ activelyProcessingIndex (pg w) = Some (index request)
        /\ (index request ∉ index <$> audioRequestQueue (pg w)))
  /\ (pending w = [] ->
      isProcessingQueue (pg w) = false
      /\ activelyProcessingController (pg w) = None
      /\ activelyProcessingIndex (pg w) = None)
  /\ (isChapterLoadCancelled (pg w) = true -> audioRequestQueue (pg w) = []).
Proof.
  intros Hr.
  destruct (runEvents_inOrder events initialWorld w Hr initialWorld_inOrder)
    as [(Hnd & Hall & Hp & Hc) Ho].
  split; [done|]. split; [done|]. unfold oneAtATime in Ho.
  destruct (pending w) as [|[[c r] st'] [|x rest]]; [| |done].
  - split; [cbn; lia|]. split; [by intros ? ? ? ?%elem_of_nil|]. by split.
  - destruct Ho as (Hip & Hctl & Hidx).
    split; [cbn; lia|]. split; [|by split].
    intros c' r' st [= <- <- <-]%list_elem_of_singleton.
    split; [done|]. split; [done|]. split; [done|]. by apply Hp.
Qed.

Definition sampleChunks : list jsstring :=
  [js "Once upon a time."; js "The end."; js "Again."].

Definition sampleEvents : list event :=
  [ChapterEffect talesBook 0; QueueEffect; Rendered;
   PreloadEffect (Some 0%nat) sampleChunks;
   FetchSettled 0 None None; ChapterCleanup;
   DecodeSettled 0 None None;
   GlobalPlayPause None (Some 1%nat) sampleChunks; QueueEffect].

Definition sampleWorld : world :=
  default initialWorld (runEvents sampleEvents initialWorld).

Lemma queue_stays_in_order_witness :
  NoDup (index <$> audioRequestQueue (pg sampleWorld))
  /\ Forall (fun r => loaderId r = audioLoaderId (pg sampleWorld))
            (audioRequestQueue (pg sampleWorld))
  /\ (length (pending sampleWorld) <= 1)%nat
  /\ (forall controller request st,
        (Launched controller request, st) ∈ pending sampleWorld ->
        isProcessingQueue (pg sampleWorld) = true
        /\ activelyProcessingController (pg sampleWorld) = Some controller
        /\ activelyProcessingIndex (pg sampleWorld) = Some (index request)
        /\ (index request ∉ index <$> audioRequestQueue (pg sampleWorld)))
  /\ (pending sampleWorld = [] ->
      isProcessingQueue (pg sampleWorld) = false
      /\ activelyProcessingController (pg sampleWorld) = None
      /\ activelyProcessingIndex (pg sampleWorld) = None)
  /\ (isChapterLoadCancelled (pg sampleWorld) = true ->
      audioRequestQueue (pg sampleWorld) = []).
Proof.
  apply (queue_stays_in_order sampleEvents sampleWorld).
  vm_compute. reflexivity.
Defined.

(** *** A failure that is neither an abort nor a stale request *)

Definition fatal (e : thrown) : Prop :=
  match e with
  | AbortException => False
  | ErrorThrown _ message => startsWith message (js "Stale request") = false
  end.

(** The event is the call at the head failing with [e]: the fetch is
    rejected, the audio context cannot be had, the decoding is rejected, or
    starting the playback throws. *)
Definition failsWith (e : thrown) (failure : event) : Prop :=
  match failure with
  | FetchSettled 0 (Some e') _ => e' = e
  | FetchSettled 0 None (Some e') => e' = e
  | DecodeSettled 0 (Some e') _ => e' = e
  | DecodeSettled 0 None (Some e') => e' = e
  | _ => False
  end.

(** Any event but the effect that loads a chapter. *)
Definition quiet (e : event) : Prop :=
  match e with ChapterEffect _ _ => False | _ => True end.

Definition stopped (w : world) : Prop :=
  isChapterLoadCancelled (pg w) = true /\ audioRequestQueue (pg w) = []
  /\ pending w = [].

Lemma failed_page controller request e p :
  fatal e -> loaderId request = audioLoaderId p ->
  isChapterLoadCancelled
    (finallyBlock (Launched controller request)
       (catchBlock (Launched controller request) e p)) = true
  /\ audioRequestQueue
       (finallyBlock (Launched controller request)
          (catchBlock (Launched controller request) e p)) = []
  /\ audioInfo
       (finallyBlock (Launched controller request)
          (catchBlock (Launched controller request) e p)) !! index request
     = Some AudioError
  /\ is_Some (audioError
                (finallyBlock (Launched controller request)
                   (catchBlock (Launched controller request) e p))).
Proof.
  intros He Hid. unfold catchBlock.
  destruct e as [|isTtsError message]; [done|].
  change (startsWith message (js "Stale request") = false) in He. rewrite He.
  rewrite Hid, Nat.eqb_refl. unfold finallyBlock. page_simpl.
  destruct (bool_decide _); page_simpl; cbn [length Nat.ltb Nat.leb andb];
    page_simpl.
  all: by rewrite lookup_insert_eq.
Qed.

Lemma scheduleAudioLoading_cancelled startIndex isPriority chunks isFreshLoad p :
  isChapterLoadCancelled p = true ->
  scheduleAudioLoading startIndex isPriority chunks isFreshLoad p = p.
Proof. intros Hc. unfold scheduleAudioLoading. by rewrite Hc. Qed.

Lemma quiet_step e w w' :
  quiet e -> step e w = Some w' -> stopped w ->
  stopped w'
  /\ controllersCreated (pg w') = controllersCreated (pg w)
  /\ (audioLoaderId (pg w) <= audioLoaderId (pg w'))%nat.
Proof.
  destruct w as [p l]. intros Hq Hs (Hc & Hqu & Hl). cbn [pg pending] in *.
  subst l. unfold stopped.
  destruct e as [|playing chunks| |n rejected context|n rejected playback
                |book idx| |playing resumeIndex chunks|playing i chunks];
    cbn [step] in Hs; unfold onPage in Hs; cbn [pg pending] in Hs; try done.
  - injection Hs as <-. by repeat split.
  - injection Hs as <-. cbn [pg pending]. unfold preloadEffect.
    destruct playing; [|by repeat split].
    destruct (_ =? _)%nat; [by repeat split|].
    destruct (_ <? _)%nat; [|by repeat split].
    rewrite scheduleAudioLoading_cancelled by done. by repeat split.
  - unfold queueEffect in Hs. rewrite Hqu in Hs. cbn in Hs.
    injection Hs as <-. by repeat split.
  - injection Hs as <-. unfold chapterCleanup. page_simpl.
    repeat split. lia.
  - injection Hs as <-. cbn [pg pending]. unfold handleGlobalPlayPause.
    destruct playing; [by repeat split|]. unfold playFrom.
    rewrite scheduleAudioLoading_cancelled;
      destruct (bool_decide _); page_simpl; by repeat split.
  - injection Hs as <-. cbn [pg pending]. unfold handlePlayPauseSentence.
    destruct (bool_decide (playing = Some i)); [by repeat split|].
    unfold playFrom.
    rewrite scheduleAudioLoading_cancelled;
      destruct (bool_decide _); page_simpl; by repeat split.
Qed.

Lemma quiet_run events :
  forall w w',
    Forall quiet events -> runEvents events w = Some w' -> stopped w ->
    stopped w' /\ controllersCreated (pg w') = controllersCreated (pg w).
Proof.
  induction events as [|e events IH]; intros w w' Hq; cbn [runEvents].
  - by intros [= <-].
  - apply Forall_cons in Hq as [He Hq].
    destruct (step e w) as [w1|] eqn:E; [|done]. intros Hr Hw.
    destruct (quiet_step e w w1 He E Hw) as (H1 & H2 & _).
    destruct (IH w1 w' Hq Hr H1) as [H3 H4]. split; [done|congruence].
Qed.

(** X13: when the one call of [processQueue] under way fails, for a
    request of the current loader id, with an error that is neither an
    abort nor a stale request, the chunk is marked as in error and an
    error is shown, the chapter load is cancelled and the queue emptied;
    and from then on, whatever happens short of the effect that loads a
    chapter (renders, the preload effect, the queue effect, play and pause,
    the cleanup), the queue stays empty and no fetch is started. *)
Theorem fatal_failure_stops_chapter
    (w : world) (controller : nat) (request : AudioRequest) (st : stage)
    (e : thrown) (failure : event) (w1 : world)
    (after : list event) (w2 : world) :
  pending w = [(Launched controller request, st)] ->
  loaderId request = audioLoaderId (pg w) ->
  fatal e -> failsWith e failure ->
  step failure w = Some w1 ->
  Forall quiet after ->
  runEvents after w1 = Some w2 ->
  audioInfo (pg w1) !! index request = Some AudioError
  /\ is_Some (audioError (pg w1))
  /\ isChapterLoadCancelled (pg w2) = true
  /\ audioRequestQueue (pg w2) = []
  /\ pending w2 = []
  /\ controllersCreated (pg w2) = controllersCreated (pg w1).
Proof.
  destruct w as [p l]. cbn [pg pending]. intros -> Hid He Hf Hs Hq Hr.
  assert (exists p0,
            loaderId request = audioLoaderId p0
            /\ w1 = {| pg := finallyBlock (Launched controller request)
                               (catchBlock (Launched controller request) e p0);
                       pending := [] |}) as (p0 & Hid0 & ->).
  { apply Nat.eqb_eq in Hid as Hb.
    destruct failure as [| | |[|n] [e'|] [e''|]|[|n] [e'|] [e''|]| | | |];
      try done; cbn in Hf; subst; cbn [step pending pg lookup list_lookup] in Hs;
      destruct st; try done; unfold afterFetch, afterDecode in Hs;
      rewrite ?Hb in Hs; cbn [negb] in Hs; injection Hs as <-;
      try (by exists p); by eexists (setAudioInfo _ p). }
  destruct (failed_page controller request e p0 He Hid0) as (H1 & H2 & H3 & H4).
  split; [done|]. split; [done|].
  destruct (quiet_run after _ w2 Hq Hr) as [(H5 & H6 & H7) H8]; [by split|].
  done.
Qed.

Definition twoEvents : list event := [ChapterEffect talesBook 0; QueueEffect].

Definition fetchingWorld : world :=
  default initialWorld (runEvents twoEvents initialWorld).

Definition networkDown : thrown := ErrorThrown true (js "Network down").

Definition failedWorld : world :=
  default initialWorld
    (step (FetchSettled 0 (Some networkDown) None) fetchingWorld).

Definition laterEvents : list event :=
  [Rendered; QueueEffect; PreloadEffect (Some 0%nat) sampleChunks;
   GlobalPlayPause None (Some 1%nat) sampleChunks; QueueEffect;
   PlayPauseSentence None 2 sampleChunks; QueueEffect; ChapterCleanup].

Definition laterWorld : world :=
  default initialWorld (runEvents laterEvents failedWorld).

Lemma fatal_failure_stops_chapter_witness :
  audioInfo (pg failedWorld) !! 0%nat = Some AudioError
  /\ is_Some (audioError (pg failedWorld))
  /\ isChapterLoadCancelled (pg laterWorld) = true
  /\ audioRequestQueue (pg laterWorld) = []
  /\ pending laterWorld = []
  /\ controllersCreated (pg laterWorld) = controllersCreated (pg failedWorld).
Proof.
  apply (fatal_failure_stops_chapter fetchingWorld 0
           {| index := 0; loaderId := 1;
              text := js ("Once upon a time." ++ newline ++ "The end.") |}
           Fetching networkDown
           (FetchSettled 0 (Some networkDown) None) failedWorld
           laterEvents laterWorld).
  - vm_compute. reflexivity.
  - vm_compute. reflexivity.
  - vm_compute. reflexivity.
  - reflexivity.
  - vm_compute. reflexivity.
  - repeat constructor.
  - vm_compute. reflexivity.
Defined.

End QueueEvents.

(** ** splitTextIntoChunks: the fallback path on text with spaces *)

Section FallbackContent.

(** The index found holds the unit looked for. *)
Lemma lastIndexFrom_holds c s i limit acc :
  lastIndexFrom c s i limit acc = acc
  \/ s !! Z.to_nat (lastIndexFrom c s i limit acc - i) = Some c.
Proof.
  revert i acc. induction s as [|x s IH]; intros i acc; [by left|].
  cbn [lastIndexFrom].
  set (acc' := if (i <=? limit) && (x =? c)%N then i else acc).
  assert (acc' = acc \/ (acc' = i /\ x = c)) as Hacc.
  { unfold acc'. destruct ((i <=? limit) && (x =? c)%N) eqn:F; [|by left].
    right. by apply andb_prop in F as [_ F%N.eqb_eq]. }
  destruct (lastIndexFrom_range c s (i + 1) limit acc') as [R|R].
  - rewrite R. destruct Hacc as [->|[-> ->]]; [by left|right].
    by replace (i - i) with 0 by lia.
  - destruct (IH (i + 1) acc') as [E|E].
    + rewrite E. destruct Hacc as [->|[-> ->]]; [by left|right].
      by replace (i - i) with 0 by lia.
    + right.
      replace (Z.to_nat (lastIndexFrom c s (i + 1) limit acc' - i))
        with (S (Z.to_nat (lastIndexFrom c s (i + 1) limit acc' - (i + 1))))
        by lia.
      exact E.
Qed.

(** No index up to the limit that holds the unit is beyond the one
    found. *)
Lemma lastIndexFrom_last c s i limit acc j :
  acc < i -> i <= j <= limit -> s !! Z.to_nat (j - i) = Some c ->
  j <= lastIndexFrom c s i limit acc.
Proof.
  revert i acc. induction s as [|x s IH]; intros i acc Ha Hj Hc; [done|].
  cbn [lastIndexFrom].
  set (acc' := if (i <=? limit) && (x =? c)%N then i else acc).
  destruct (Z.eq_dec j i) as [->|Hne].
  - replace (i - i) with 0 in Hc by lia. cbn in Hc. injection Hc as ->.
    assert (acc' = i) as ->.
    { unfold acc'. rewrite N.eqb_refl, andb_true_r.
      by assert ((i <=? limit) = true) as -> by lia. }
    destruct (lastIndexFrom_range c s (i + 1) limit i) as [->|R]; lia.
  - apply IH.
    + unfold acc'. destruct (_ && _); lia.
    + lia.
    + replace (Z.to_nat (j - i)) with (S (Z.to_nat (j - (i + 1)))) in Hc by lia.
      exact Hc.
Qed.

Lemma lastIndexOf_holds s c from :
  lastIndexOf s c from = -1
  \/ s !! Z.to_nat (lastIndexOf s c from) = Some c.
Proof.
  unfold lastIndexOf.
  destruct (lastIndexFrom_holds c s 0 (Z.max from 0) (-1)) as [E|E];
    [by left|right].
  by rewrite Z.sub_0_r in E.
Qed.

Lemma lastIndexOf_last s c from j :
  0 <= j <= from -> s !! Z.to_nat j = Some c -> j <= lastIndexOf s c from.
Proof.
  intros Hj Hc. unfold lastIndexOf.
  apply lastIndexFrom_last; [lia|lia|]. by rewrite Z.sub_0_r.
Qed.

Lemma substring_take_drop s a b :
  0 <= a <= b -> b <= len s ->
  substring s a b = take (Z.to_nat (b - a)) (drop (Z.to_nat a) s).
Proof.
  intros Ha Hb. unfold substring, clampIndex.
  replace (Z.min (Z.max 0 (Z.min a (len s))) (Z.max 0 (Z.min b (len s))))
    with a by lia.
  replace (Z.max (Z.max 0 (Z.min a (len s))) (Z.max 0 (Z.min b (len s))))
    with b by lia.
  done.
Qed.

(** The first piece of a split is followed by the separator, unless it is
    the whole text. *)
Lemma splitOn_first sep s l ls :
  splitOn sep s = l :: ls ->
  (ls = [] /\ s = l) \/ s !! length l = Some sep.
Proof.
  revert l ls. induction s as [|c s IH]; intros l ls; cbn [splitOn].
  - intros [= <- <-]. by left.
  - destruct (c =? sep)%N eqn:E.
    + intros [= <- <-]. right. by apply N.eqb_eq in E as ->.
    + destruct (splitOn sep s) as [|l' ls'] eqn:Es; intros [= <- <-].
      * by destruct (splitOn_nonempty sep s).
      * destruct (IH l' ls' eq_refl) as [[-> ->]|H]; [by left|by right].
Qed.

(** With every word shorter than [m], every [m] units in a row hold a
    space. *)
Lemma short_words_windows t m :
  Forall (fun w => len w < m) (splitOn SPACE t) ->
  forall i, 0 <= i -> i + m <= len t ->
    exists j, i <= j < i + m /\ t !! Z.to_nat j = Some SPACE.
Proof.
  induction t as [|c t IH]; intros Hw i Hi Hm.
  - apply Forall_cons in Hw as [Hw _]. unfold len in *. simpl in *. lia.
  - assert (Forall (fun w => len w < m) (splitOn SPACE t)) as Hw'.
    { cbn [splitOn] in Hw. destruct (c =? SPACE)%N.
      - by apply Forall_cons in Hw as [_ Hw].
      - destruct (splitOn SPACE t) as [|l ls]; [constructor|].
        apply Forall_cons in Hw as [Hl Hls]. constructor; [|done].
        unfold len in *. simpl in Hl. lia. }
    destruct (Z.eq_dec i 0) as [->|Hne].
    + destruct (splitOn SPACE (c :: t)) as [|l ls] eqn:E;
        [by destruct (splitOn_nonempty SPACE (c :: t))|].
      apply Forall_cons in Hw as [Hl _].
      destruct (splitOn_first _ _ _ _ E) as [[_ <-]|Hs]; [lia|].
      exists (len l). unfold len in *. rewrite Nat2Z.id. split; [lia|done].
    + destruct (IH Hw' (i - 1)) as (j & Hj & Hs); [lia| |].
      { unfold len in *. simpl length in Hm. lia. }
      exists (j + 1). split; [lia|].
      replace (Z.to_nat (j + 1)) with (S (Z.to_nat j)) by lia. exact Hs.
Qed.

Lemma filter_drop_white (t : jsstring) (n : nat) c :
  t !! n = Some c -> isWhiteSpace c = true ->
  List.filter notWhite (drop n t) = List.filter notWhite (drop (S n) t).
Proof.
  intros Ht Hc. rewrite (drop_S t c n Ht). cbn [List.filter].
  unfold notWhite at 1. by rewrite Hc.
Qed.

(** One chunk and what is skipped after it: nothing but white space is
    left out. *)
Lemma fallbackStep_keeps t m start :
  (forall i, 0 <= i -> i + m <= len t ->
     exists j, i <= j < i + m /\ t !! Z.to_nat j = Some SPACE) ->
  0 <= m -> 0 <= start -> start < len t ->
  List.filter notWhite (drop (Z.to_nat start) t)
  = List.filter notWhite (fallbackStep t m start).1
    ++ List.filter notWhite (drop (Z.to_nat (fallbackStep t m start).2) t).
Proof.
  intros Hwin Hm Hs Hl. rewrite fallbackStep_end. cbn [fst snd].
  destruct (fallbackEnd_range t m start Hm Hs Hl) as [[He1 He2] He3].
  rewrite filter_trim by apply notWhite_spec.
  rewrite substring_take_drop by lia.
  set (e := fallbackEnd t m start) in *.
  rewrite <- (take_drop (Z.to_nat (e - start)) (drop (Z.to_nat start) t)) at 1.
  rewrite List.filter_app. f_equal. rewrite drop_drop.
  replace (Z.to_nat start + Z.to_nat (e - start))%nat with (Z.to_nat e) by lia.
  replace (Z.to_nat (e + 1)) with (S (Z.to_nat e)) by lia.
  destruct (Z.eq_dec e (len t)) as [E|E].
  { rewrite !drop_ge; [done| |]; unfold len in *; lia. }
  assert (t !! Z.to_nat e = Some SPACE) as Hsp.
  { unfold e, fallbackEnd in *.
    destruct (start + m <? len t) eqn:F; [|lia].
    destruct (lastIndexOf t SPACE (start + m) >? start) eqn:G.
    - destruct (lastIndexOf_holds t SPACE (start + m)) as [H|H]; [lia|done].
    - exfalso. destruct (Hwin (start + 1)) as (j & Hj & Hsp); [lia|lia|].
      pose proof (lastIndexOf_last t SPACE (start + m) j) as Hlast.
      pose proof (Zgt_cases (lastIndexOf t SPACE (start + m)) start) as Hc.
      rewrite G in Hc. specialize (Hlast ltac:(lia) Hsp). lia. }
  by apply (filter_drop_white t (Z.to_nat e) SPACE).
Qed.

Lemma fallbackLoop_keeps t m :
  (forall i, 0 <= i -> i + m <= len t ->
     exists j, i <= j < i + m /\ t !! Z.to_nat j = Some SPACE) ->
  0 <= m ->
  forall fuel start chunks res,
    0 <= start ->
    fallbackLoop fuel t m start chunks = Some res ->
    List.filter notWhite (concat res)
    = List.filter notWhite (concat chunks)
      ++ List.filter notWhite (drop (Z.to_nat start) t).
Proof.
  intros Hwin Hm fuel.
  induction fuel as [|fuel IH]; intros start chunks res Hs;
    cbn [fallbackLoop]; destruct (start <? len t) eqn:E; try done.
  - intros [= <-]. rewrite drop_ge; [by rewrite app_nil_r|].
    unfold len in *. lia.
  - apply Z.ltb_lt in E.
    pose proof (fallbackStep_keeps t m start Hwin Hm Hs E) as Hk.
    destruct (fallbackStep_bound t m start Hm Hs E) as (_ & _ & Hn).
    destruct (fallbackStep t m start) as [chunk next]. cbn [fst snd] in *.
    intros Hr. assert (0 <= next) as Hnext by lia.
    rewrite (IH _ _ _ Hnext Hr), Hk.
    rewrite app_assoc. f_equal.
    destruct chunk as [|c chunk]; cbn [isEmpty]; [by rewrite app_nil_r|].
    rewrite concat_app, List.filter_app. cbn [concat].
    by rewrite app_nil_r.
  - intros [= <-]. rewrite drop_ge; [by rewrite app_nil_r|].
    unfold len in *. lia.
Qed.

Lemma splitTextIntoChunks_fallbackPath fuel text maxLength :
  (length (matchAll sentenceRegex (trim text)) <= 1)%nat ->
  maxLength < len (trim text) -> 0 <= maxLength ->
  splitTextIntoChunks fuel text maxLength
  = match fallbackLoop fuel (trim text) maxLength 0 [] with
    | None => None
    | Some res => if (length res =? 0)%nat then Some [trim text] else Some res
    end.
Proof.
  intros Hss Hlen Hm. unfold splitTextIntoChunks.
  assert (trim text <> []) as Hne.
  { intros E. rewrite E in Hlen. unfold len in Hlen. simpl in Hlen. lia. }
  assert (isEmpty text = false) as ->.
  { destruct text; [by vm_compute in Hne|done]. }
  assert ((len (trim text) =? 0) = false) as ->.
  { apply Z.eqb_neq. by rewrite len_nil_iff. }
  assert ((len (trim text) <=? maxLength) = false) as -> by lia.
  cbn [orb].
  assert ((1 <? length (matchAll sentenceRegex (trim text)))%nat = false)
    as -> by (apply Nat.ltb_ge; lia).
  destruct (fallbackLoop fuel (trim text) maxLength 0 []) as [res|]; [|done].
  assert ((len (trim text) >? 0) = true) as ->.
  { apply Z.gtb_lt. lia. }
  by rewrite andb_true_r.
Qed.

End FallbackContent.

(** X14: when the trimmed text is longer than [maxLength], has at most
    one sentence match (so the fallback loop is taken), and every word of
    it (a piece between two space characters) is shorter than [maxLength],
    the function returns, every chunk has at most [maxLength] units, and
    the chunks hold every code unit of the text that is not white space,
    in order, and no other: on such text the fallback drops nothing but
    white space. *)
Theorem splitTextIntoChunks_fallback_keeps (text : jsstring) (maxLength : Z) :
  (length (matchAll sentenceRegex (trim text)) <= 1)%nat ->
  maxLength < len (trim text) ->
  Forall (fun word => len word < maxLength) (splitOn SPACE (trim text)) ->
  exists chunks,
    splitTextIntoChunks (length text) text maxLength = Some chunks
    /\ Forall (fun c => len c <= maxLength) chunks
    /\ List.filter notWhite (concat chunks) = List.filter notWhite text.
Proof.
  intros Hss Hlen Hwords.
  assert (1 <= maxLength) as Hm.
  { destruct (splitOn SPACE (trim text)) as [|w ws] eqn:E;
      [by destruct (splitOn_nonempty SPACE (trim text))|].
    apply Forall_cons in Hwords as [Hw _]. unfold len in Hw. lia. }
  rewrite splitTextIntoChunks_fallbackPath by (done || lia).
  destruct (fallbackLoop_terminates (trim text) maxLength ltac:(lia)
              (length text) 0 []) as [res Hres]; [lia| |].
  { pose proof (trim_length text). unfold len. lia. }
  rewrite Hres.
  assert (res <> []) as Hne.
  { destruct (trim_shape text) as [E|(c & d & u & v & E & _ & Hc & _)].
    - rewrite E in Hlen. unfold len in Hlen. simpl in Hlen. lia.
    - rewrite E in Hres. by apply (fallbackLoop_nonempty _ _ _ _ _ Hm Hc Hres). }
  assert ((length res =? 0)%nat = false) as ->.
  { apply Nat.eqb_neq. by destruct res. }
  exists res. split; [done|]. split.
  - apply (fallbackLoop_Forall (fun c => len c <= maxLength) (fun s => 0 <= s)
             (trim text) maxLength) with (fuel := length text) (start := 0)
             (chunks := []); [|lia|done|done].
    intros start Hs Hl.
    destruct (fallbackStep_bound (trim text) maxLength start) as (H1 & H2 & H3);
      [lia|done|done|]. split; [done|lia].
  - rewrite (fallbackLoop_keeps (trim text) maxLength
               (short_words_windows _ _ Hwords) ltac:(lia) (length text) 0 [] res);
      [|lia|done].
    cbn [concat List.filter app Z.to_nat]. rewrite drop_0.
    apply filter_trim, notWhite_spec.
Qed.

Lemma splitTextIntoChunks_fallback_keeps_witness :
  exists chunks,
    splitTextIntoChunks (length (js "one two three four five six"))
      (js "one two three four five six") 10 = Some chunks
    /\ Forall (fun c => len c <= 10) chunks
    /\ List.filter notWhite (concat chunks)
       = List.filter notWhite (js "one two three four five six").
Proof.
  apply (splitTextIntoChunks_fallback_keeps (js "one two three four five six") 10).
  - vm_compute. lia.
  - vm_compute. reflexivity.
  - vm_compute. repeat constructor.
Defined.

(** *** The queue drains when the server answers *)

Section QueueProgress.
Import ReaderPage.

(** One request served: the queue effect runs, the fetch resolves, the
    audio context is there, the decoding succeeds and nothing throws. *)
Definition loadOne : list event :=
  [QueueEffect; FetchSettled 0 None None; DecodeSettled 0 None None].

Definition loadAll (n : nat) : list event := concat (replicate n loadOne).

(** Nothing waits, nothing is being processed, the chapter load is not
    cancelled and every queued request is of the current loader id. *)
Definition ready (w : world) : Prop :=
  pending w = []
  /\ isProcessingQueue (pg w) = false
  /\ isChapterLoadCancelled (pg w) = false
  /\ Forall (fun r => loaderId r = audioLoaderId (pg w))
            (audioRequestQueue (pg w)).

Lemma runEvents_app events1 events2 w :
  runEvents (events1 ++ events2) w
  = match runEvents events1 w with
    | Some w1 => runEvents events2 w1
    | None => None
    end.
Proof.
  revert w. induction events1 as [|e events1 IH]; intros w; [done|].
  cbn [app runEvents]. by destruct (step e w).
Qed.

(** The page while the request at the head of the queue is served. *)
Definition serving (request : AudioRequest) (rest : list AudioRequest)
    (p : page) : page :=
  {| audioLoaderId := audioLoaderId p; audioRequestQueue := rest;
     activelyProcessingIndex := Some (index request);
     activelyProcessingController := Some (controllersCreated p);
     isChapterLoadCancelled := false; isProcessingQueue := true;
     audioInfoRef := audioInfoRef p;
     audioInfo := if bool_decide (audioInfo p !! index request
                                  = Some AudioLoading)
                  then audioInfo p
                  else <[index request := AudioLoading]> (audioInfo p);
     audioError := audioError p; queueUpdated := queueUpdated p;
     controllersCreated := S (controllersCreated p) |}.

Lemma queueEffect_head p request rest :
  isProcessingQueue p = false -> isChapterLoadCancelled p = false ->
  audioRequestQueue p = request :: rest ->
  loaderId request = audioLoaderId p ->
  queueEffect p
  = (serving request rest p, Some (Launched (controllersCreated p) request)).
Proof.
  destruct p as [lid q pi pc c ip ir ai ae qu cc].
  cbn [isProcessingQueue isChapterLoadCancelled audioRequestQueue
       audioLoaderId].
  intros -> -> -> Hid.
  unfold queueEffect, processQueue.
  cbn [isProcessingQueue isChapterLoadCancelled audioRequestQueue
       audioLoaderId length Nat.ltb Nat.leb Nat.eqb negb andb orb].
  rewrite Hid, Nat.eqb_refl. reflexivity.
Qed.

Lemma afterFetch_goesOn controller request p :
  loaderId request = audioLoaderId p ->
  afterFetch (Launched controller request) None None p = (p, true).
Proof.
  intros Hid. unfold afterFetch. by rewrite Hid, Nat.eqb_refl.
Qed.

Lemma afterDecode_loaded request rest p :
  loaderId request = audioLoaderId p ->
  exists n,
    afterDecode (Launched (controllersCreated p) request) None None
      (serving request rest p)
    = {| audioLoaderId := audioLoaderId p; audioRequestQueue := rest;
         activelyProcessingIndex := None;
         activelyProcessingController := None;
         isChapterLoadCancelled := false; isProcessingQueue := false;
         audioInfoRef := audioInfoRef p;
         audioInfo := <[index request := AudioLoaded]> (audioInfo p);
         audioError := audioError p; queueUpdated := n;
         controllersCreated := S (controllersCreated p) |}.
Proof.
  intros Hid. unfold afterDecode, serving, finallyBlock.
  cbn [audioLoaderId]. rewrite Hid, Nat.eqb_refl. cbn [negb].
  cbn [setAudioInfo activelyProcessingController audioLoaderId
       audioRequestQueue activelyProcessingIndex isChapterLoadCancelled
       isProcessingQueue audioInfoRef audioInfo audioError queueUpdated
       controllersCreated].
  rewrite bool_decide_eq_true_2 by done.
  assert (<[index request := AudioLoaded]>
            (if bool_decide (audioInfo p !! index request = Some AudioLoading)
             then audioInfo p
             else <[index request := AudioLoading]> (audioInfo p))
          = <[index request := AudioLoaded]> (audioInfo p)) as Hm.
  { destruct (bool_decide _); [done|]. apply insert_insert_eq. }
  destruct rest;
    unfold bumpQueueUpdated, setIsProcessing, setProcessing, setAudioInfo;
    cbn [activelyProcessingController audioLoaderId
         audioRequestQueue activelyProcessingIndex isChapterLoadCancelled
         isProcessingQueue audioInfoRef audioInfo audioError queueUpdated
         controllersCreated length Nat.ltb Nat.leb andb negb];
    rewrite Hm; by eexists.
Qed.

Lemma loadOne_run w request rest :
  ready w -> audioRequestQueue (pg w) = request :: rest ->
  exists w',
    runEvents loadOne w = Some w'
    /\ ready w'
    /\ audioRequestQueue (pg w') = rest
    /\ audioError (pg w') = audioError (pg w)
    /\ audioInfo (pg w')
       = <[index request := AudioLoaded]> (audioInfo (pg w))
    /\ controllersCreated (pg w') = S (controllersCreated (pg w)).
Proof.
  destruct w as [p l]. unfold ready. cbn [pg pending].
  intros (-> & Hip & Hc & Hall) Hq.
  assert (loaderId request = audioLoaderId p) as Hid.
  { rewrite Hq in Hall. by apply Forall_cons in Hall as [? _]. }
  destruct (afterDecode_loaded request rest p Hid) as (n & Hd).
  unfold loadOne. cbn [runEvents step pg pending].
  rewrite (queueEffect_head p request rest Hip Hc Hq Hid).
  cbn [app pg pending lookup list_lookup].
  rewrite afterFetch_goesOn by done.
  cbn [pg pending lookup list_lookup insert list_insert base.delete
       list_delete].
  rewrite Hd. eexists. split; [reflexivity|].
  cbn [pg pending audioRequestQueue isProcessingQueue isChapterLoadCancelled
       audioLoaderId audioError audioInfo controllersCreated].
  split; [|done]. split; [done|]. split; [done|]. split; [done|].
  rewrite Hq in Hall. by apply Forall_cons in Hall as [_ ?].
Qed.

Lemma loadAll_run queue :
  forall w,
    ready w -> audioRequestQueue (pg w) = queue ->
    exists w',
      runEvents (loadAll (length queue)) w = Some w'
      /\ ready w'
      /\ audioRequestQueue (pg w') = []
      /\ audioError (pg w') = audioError (pg w)
      /\ controllersCreated (pg w')
         = (controllersCreated (pg w) + length queue)%nat
      /\ forall i,
           audioInfo (pg w') !! i
           = if bool_decide (i ∈ index <$> queue) then Some AudioLoaded
             else audioInfo (pg w) !! i.
Proof.
  induction queue as [|request rest IH]; intros w Hw Hq.
  - exists w. split; [done|]. split; [done|]. split; [done|].
    split; [done|]. split; [cbn; lia|]. intros i.
    rewrite bool_decide_eq_false_2; [done|]. apply not_elem_of_nil.
  - destruct (loadOne_run w request rest Hw Hq)
      as (w1 & Hr1 & Hw1 & Hq1 & He1 & Hi1 & Hc1).
    destruct (IH w1 Hw1 Hq1) as (w' & Hr & Hw' & Hq' & He & Hc & Hi).
    exists w'. split.
    { unfold loadAll. cbn [length replicate concat].
      rewrite runEvents_app, Hr1. exact Hr. }
    split; [done|]. split; [done|]. split; [congruence|].
    split; [cbn [length]; lia|].
    intros i. rewrite Hi, Hi1. cbn [fmap list_fmap].
    destruct (decide (i = index request)) as [->|Hne].
    + rewrite (bool_decide_eq_true_2 (index request ∈ index request :: _))
        by left.
      rewrite lookup_insert_eq. by destruct (bool_decide _).
    + rewrite lookup_insert_ne by done.
      destruct (decide (i ∈ index <$> rest)) as [Hin|Hin].
      * rewrite !bool_decide_eq_true_2; [done|by right|done].
      * rewrite !bool_decide_eq_false_2; [done| |done].
        intros [?|?]%elem_of_cons; done.
Qed.

(** X15: from any state the reader's queue can reach in which no call of
    [processQueue] waits and the chapter load is not cancelled, serving
    the requests one after the other (the queue effect runs, the fetch
    resolves, the decoding succeeds, nothing throws) goes through for as
    many rounds as there are queued requests and ends with the queue
    empty and nothing waiting: exactly one fetch has been started per
    request, every queued index is marked loaded, the state of every
    other index is what it was, and the error message is untouched. *)
Theorem queue_drains (events : list event) (w : world) :
  runEvents events initialWorld = Some w ->
  pending w = [] ->
  isChapterLoadCancelled (pg w) = false ->
  exists w',
    runEvents (loadAll (length (audioRequestQueue (pg w)))) w = Some w'
    /\ pending w' = []
    /\ audioRequestQueue (pg w') = []
    /\ isProcessingQueue (pg w') = false
    /\ audioError (pg w') = audioError (pg w)
    /\ controllersCreated (pg w')
       = (controllersCreated (pg w) + length (audioRequestQueue (pg w)))%nat
    /\ forall i,
         audioInfo (pg w') !! i
         = if bool_decide (i ∈ index <$> audioRequestQueue (pg w))
           then Some AudioLoaded
           else audioInfo (pg w) !! i.
Proof.
  intros Hr Hp Hc.
  destruct (runEvents_inOrder events initialWorld w Hr initialWorld_inOrder)
    as [(_ & Hall & _) Ho].
  unfold oneAtATime in Ho. rewrite Hp in Ho. destruct Ho as (Hip & _).
  destruct (loadAll_run (audioRequestQueue (pg w)) w)
    as (w' & Hrun & (Hp' & Hip' & _) & Hq & He & Hn & Hi); [done|done|].
  by exists w'.
Qed.

Definition playEvents : list event :=
  [ChapterEffect talesBook 0; GlobalPlayPause None (Some 0%nat) sampleChunks].

Definition scheduledWorld : world :=
  default initialWorld (runEvents playEvents initialWorld).

Lemma queue_drains_witness :
  exists w',
    runEvents (loadAll (length (audioRequestQueue (pg scheduledWorld))))
      scheduledWorld = Some w'
    /\ pending w' = []
    /\ audioRequestQueue (pg w') = []
    /\ isProcessingQueue (pg w') = false
    /\ audioError (pg w') = audioError (pg scheduledWorld)
    /\ controllersCreated (pg w')
       = (controllersCreated (pg scheduledWorld)
          + length (audioRequestQueue (pg scheduledWorld)))%nat
    /\ forall i,
         audioInfo (pg w') !! i
         = if bool_decide
                (i ∈ index <$> audioRequestQueue (pg scheduledWorld))
           then Some AudioLoaded
           else audioInfo (pg scheduledWorld) !! i.
Proof.
  apply (queue_drains playEvents scheduledWorld).
  - vm_compute. reflexivity.
  - vm_compute. reflexivity.
  - vm_compute. reflexivity.
Defined.

End QueueProgress.

(** *** Results that arrive after the chapter has changed *)

Section StaleResults.
Import ReaderPage.

(** The event is the settling of the call that waits at the place [n]. *)
Definition settles (n : nat) (e : event) : Prop :=
  match e with
  | FetchSettled m _ _ | DecodeSettled m _ _ => m = n
  | _ => False
  end.

(** What the page shows and what the scheduler goes by. *)
Definition shown (p : page)
  : nat * list AudioRequest * bool * option jsstring * gmap nat AudioState :=
  (audioLoaderId p, audioRequestQueue p, isChapterLoadCancelled p,
   audioError p, audioInfoRef p).

(** [info'] is [info], but for a mark 'loading' at [i] turned 'idle'. *)
Definition unmarked (i : nat) (info info' : gmap nat AudioState) : Prop :=
  info' = info
  \/ (info !! i = Some AudioLoading /\ info' = <[i := AudioIdle]> info).

Lemma finallyBlock_shown l p :
  shown (finallyBlock l p) = shown p
  /\ audioInfo (finallyBlock l p) = audioInfo p
  /\ isProcessingQueue (finallyBlock l p) = false.
Proof.
  destruct l as [controller request]. unfold finallyBlock.
  destruct (bool_decide _); destruct (_ && _); done.
Qed.

Lemma catchBlock_stale controller request e p :
  loaderId request <> audioLoaderId p ->
  shown (catchBlock (Launched controller request) e p) = shown p
  /\ unmarked (index request) (audioInfo p)
       (audioInfo (catchBlock (Launched controller request) e p)).
Proof.
  intros Hid%Nat.eqb_neq. unfold catchBlock.
  destruct e as [|isTtsError message].
  - split; [done|]. cbn [setAudioInfo audioInfo].
    destruct (bool_decide _) eqn:E; [|by left].
    apply bool_decide_eq_true in E. by right.
  - destruct (startsWith _ _); [by split; [|left]|].
    rewrite Hid. by split; [|left].
Qed.

Lemma settled_stale controller request e p :
  loaderId request <> audioLoaderId p ->
  let p' := finallyBlock (Launched controller request)
              (catchBlock (Launched controller request) e p) in
  shown p' = shown p
  /\ unmarked (index request) (audioInfo p) (audioInfo p')
  /\ isProcessingQueue p' = false.
Proof.
  intros Hid p'. subst p'.
  destruct (finallyBlock_shown (Launched controller request)
              (catchBlock (Launched controller request) e p))
    as (H1 & H2 & H3).
  destruct (catchBlock_stale controller request e p Hid) as [H4 H5].
  rewrite H1, H2. by split.
Qed.

Lemma afterFetch_stale controller request rejected context p :
  loaderId request <> audioLoaderId p ->
  exists e,
    afterFetch (Launched controller request) rejected context p
    = (finallyBlock (Launched controller request)
         (catchBlock (Launched controller request) e p), false).
Proof.
  intros Hid%Nat.eqb_neq. unfold afterFetch.
  destruct rejected as [e|]; [by exists e|]. rewrite Hid. by eexists.
Qed.

Lemma afterDecode_stale controller request rejected playback p :
  loaderId request <> audioLoaderId p ->
  exists e,
    afterDecode (Launched controller request) rejected playback p
    = finallyBlock (Launched controller request)
        (catchBlock (Launched controller request) e p).
Proof.
  intros Hid%Nat.eqb_neq. unfold afterDecode.
  destruct rejected as [e|]; [by exists e|]. rewrite Hid. by eexists.
Qed.

(** X16: a call of [processQueue] whose request was made under an
    earlier loader id (the chapter has changed since) is discarded
    however it settles, whether the fetch resolves or is rejected, an
    abort included, and whether the decoding succeeds or not: the call
    stops waiting and is not carried on to the decoding, the queue, the
    cancel flag and the error message are what they were, no index is
    marked loaded or failed (the one change there can be is that an
    abort turns a mark 'loading' at the index of the request into
    'idle'), and the processor is free again. *)
Theorem stale_result_discarded (w w' : world) (n controller : nat)
    (request : AudioRequest) (st : stage) (settled : event) :
  pending w !! n = Some (Launched controller request, st) ->
  loaderId request <> audioLoaderId (pg w) ->
  settles n settled ->
  step settled w = Some w' ->
  pending w' = base.delete n (pending w)
  /\ shown (pg w') = shown (pg w)
  /\ unmarked (index request) (audioInfo (pg w)) (audioInfo (pg w'))
  /\ isProcessingQueue (pg w') = false.
Proof.
  intros Hp Hid Hs Hstep.
  pose proof Hid as Hne%Nat.eqb_neq.
  destruct settled as [| | |m rejected context|m rejected playback| | | |];
    try done; cbn [settles] in Hs; subst m; cbn [step] in Hstep;
    rewrite Hp in Hstep; destruct st; try done.
  - destruct (afterFetch_stale controller request rejected context (pg w) Hid)
      as (e & He).
    rewrite He in Hstep. injection Hstep as <-. cbn [pg pending]. split; [done|].
    apply (settled_stale controller request e (pg w) Hid).
  - destruct (afterDecode_stale controller request rejected playback (pg w)
                Hid) as (e & He).
    rewrite He in Hstep. injection Hstep as <-. cbn [pg pending].
    split; [done|].
    apply (settled_stale controller request e (pg w) Hid).
Qed.

Definition chapterLeft : list event :=
  [ChapterEffect talesBook 0; QueueEffect; ChapterCleanup;
   ChapterEffect talesBook 0; PlayPauseSentence None 0 sampleChunks].

Definition staleWorld : world :=
  default initialWorld (runEvents chapterLeft initialWorld).

Definition staleRequest : AudioRequest :=
  {| index := 0; loaderId := 1;
     text := js ("Once upon a time." ++ newline ++ "The end.") |}.

Definition settledWorld : world :=
  default initialWorld
    (step (FetchSettled 0 (Some AbortException) None) staleWorld).

Lemma stale_result_discarded_witness :
  pending settledWorld = base.delete 0%nat (pending staleWorld)
  /\ shown (pg settledWorld) = shown (pg staleWorld)
  /\ unmarked (index staleRequest) (audioInfo (pg staleWorld))
       (audioInfo (pg settledWorld))
  /\ isProcessingQueue (pg settledWorld) = false.
Proof.
  apply (stale_result_discarded staleWorld settledWorld 0 0 staleRequest
           Fetching (FetchSettled 0 (Some AbortException) None)).
  - vm_compute. reflexivity.
  - vm_compute. lia.
  - reflexivity.
  - vm_compute. reflexivity.
Defined.

End StaleResults.
